(** * Veski0/functional: the helpers of [src/index.ts]

    A shallow embedding of [src/index.ts] and the properties its
    specification states about the object helpers [pick], [omit], [set]
    and [merge].

    Modelling conventions.

    - A JavaScript value is a [value]: a primitive, a function, a plain
      object (a finite map of its own enumerable data properties), an
      array (its elements, with holes, and its named own properties), or
      one of the two prototype objects of the host that plain data
      inherits from.  Numbers are integer valued; the helpers never
      compute with them, they test them for truthiness and, as an array
      length, for their range.  A string value is the list of its code
      units.
    - A property name, and a path, is a [string].  The helpers compare
      names, split a path at its dots and recognise the decimal form of
      an index; they never take a name apart otherwise.
    - Deep equality of two values is Leibniz equality of their models:
      maps are extensional and carry no insertion order.
    - A plain object inherits from [Object.prototype] and an array from
      [Array.prototype].  Reading a property and the [in] operator follow
      that chain; assigning to [__proto__] runs the setter of
      [Object.prototype] and assigning to the [length] of an array
      resizes the array, as the host does.
    - The values of the model are plain data.  Where a call leaves plain
      data (it replaces the prototype of an object, calls a function
      stored under the name [hasOwnProperty], converts a string or an
      object to an array length, or looks for a property of a function)
      the model stops and answers [Beyond]: it does not say how the call
      ends.
    - The pure model ([Pure]) has values without identity.  The store
      model ([Store]) has locations, allocation and in-place writes, and
      is the one in which "the arguments are not mutated" means
      something.  The two agree: what the store model returns reads as
      what the pure model returns ([set_refines], [merge_refines],
      [pick_omit_refine]). *)

From Stdlib Require Import ZArith Ascii.
From stdpp Require Import gmap strings list fin_maps pretty.

(** ** Values *)

(** The two objects of the host that plain data inherits from. *)
Inductive host_object : Type :=
  | ObjectPrototype
  | ArrayPrototype.

#[global] Instance host_object_eq_dec : EqDecision host_object.
Proof. solve_decision. Defined.

#[local] Unset Elimination Schemes.

Inductive value : Type :=
  | VUndefined
  | VNull
  | VBool (b : bool)
  | VNum (n : Z)
  | VStr (units : list N)
  | VFun (id : nat)
  | VHostFunction (name : string)
  | VHostObject (o : host_object)
  | VObj (props : gmap string value)
  | VArr (elems : list (option value)) (extra : gmap string value).

#[local] Set Elimination Schemes.

(** What is thrown.  [set] throws a plain [Error] in two cases, which the
    specification names; the host throws a [TypeError] when what is
    called is not a function or when [in] is applied to a primitive, and
    a [RangeError] on an invalid array length. *)
Inductive error : Type :=
  | InvalidPathError
  | InvalidIntermediateError
  | TypeError
  | RangeError.

(** The messages of the two errors of [set]. *)
Definition error_message (e : error) : option string :=
  match e with
  | InvalidPathError => Some "functional: set: Path cannot be empty"
  | InvalidIntermediateError =>
      Some "functional: set: Intermediate value is not an object or array"
  | TypeError | RangeError => None
  end.

(** How a call ends: it returns, it throws, or it leaves the plain data
    of the model, which does not follow it further. *)
Inductive outcome (A : Type) : Type :=
  | Returns (x : A)
  | Throws (e : error)
  | Beyond.

Arguments Returns {A} x.
Arguments Throws {A} e.
Arguments Beyond {A}.

#[global] Instance outcome_ret : MRet outcome := λ A x, Returns x.

#[global] Instance outcome_bind : MBind outcome := λ A B f m,
  match m with
  | Returns x => f x
  | Throws e => Throws e
  | Beyond => Beyond
  end.

#[global] Instance outcome_fmap : FMap outcome := λ A B f m,
  match m with
  | Returns x => Returns (f x)
  | Throws e => Throws e
  | Beyond => Beyond
  end.

(** Two calls end alike: both return, and what they return is related by
    [R], or both throw the same error, or both leave the model. *)
Definition outcome_rel {A B} (R : A → B → Prop)
    (m : outcome A) (m' : outcome B) : Prop :=
  match m, m' with
  | Returns x, Returns y => R x y
  | Throws e, Throws e' => e = e'
  | Beyond, Beyond => True
  | _, _ => False
  end.

(** How a call that gives a value ends. *)
Abbreviation completion := (outcome value).

(** ** The host operations the helpers use *)

(** [typeof v === 'object'] *)
Definition typeof_object (v : value) : bool :=
  match v with
  | VNull | VHostObject _ | VObj _ | VArr _ _ => true
  | _ => false
  end.

(** [typeof v === 'function'] *)
Definition typeof_function (v : value) : bool :=
  match v with
  | VFun _ | VHostFunction _ => true
  | _ => false
  end.

(** [v === null] *)
Definition is_null (v : value) : bool :=
  match v with VNull => true | _ => false end.

(** [Array.isArray(v)]; [Array.prototype] is an array. *)
Definition is_array (v : value) : bool :=
  match v with
  | VArr _ _ | VHostObject ArrayPrototype => true
  | _ => false
  end.

(** A plain object or an array of the program: an object that is not
    one of the host's. *)
Definition is_plain (v : value) : bool :=
  match v with
  | VObj _ | VArr _ _ => true
  | _ => false
  end.

(** [typeof v === 'object' && v !== null]: a Record or a Sequence. *)
Definition is_container (v : value) : bool :=
  typeof_object v && negb (is_null v).

(** [typeof v === 'object' && v !== null && !Array.isArray(v)]: a Record. *)
Definition is_record (v : value) : bool :=
  typeof_object v && negb (is_null v) && negb (is_array v).

(** The spec's "primitive or null": [undefined], [null], a boolean, a
    number or a string. *)
Definition is_primitive_or_null (v : value) : bool :=
  match v with
  | VUndefined | VNull | VBool _ | VNum _ | VStr _ => true
  | _ => false
  end.

(** ToBoolean, as used by [||]. *)
Definition truthy (v : value) : bool :=
  match v with
  | VUndefined | VNull => false
  | VBool b => b
  | VNum n => negb (n =? 0)%Z
  | VStr units => negb (bool_decide (units = []))
  | _ => true
  end.

(** [v || {}] *)
Definition or_empty (v : value) : value :=
  if truthy v then v else VObj ∅.

(** *** Array indices

    A property name is an array index when it is the canonical decimal
    form of an integer below [2^32 - 1]. *)

Definition digit_of (c : ascii) : option N :=
  let code := N_of_ascii c in
  if (48 <=? code)%N && (code <=? 57)%N then Some (code - 48)%N else None.

Fixpoint parse_digits (acc : N) (s : string) : option N :=
  match s with
  | EmptyString => Some acc
  | String c s' =>
      match digit_of c with
      | Some d => parse_digits (10 * acc + d)%N s'
      | None => None
      end
  end.

Definition array_index (key : string) : option nat :=
  match parse_digits 0 key with
  | Some n =>
      if decide (pretty n = key ∧ (n < 4294967295)%N)
      then Some (N.to_nat n) else None
  | None => None
  end.

(** [elems[i] = x] on an array: inside the array the slot is replaced,
    past its end the array grows and the gap is left as holes. *)
Definition write_index (elems : list (option value)) (i : nat) (x : value)
  : list (option value) :=
  if decide (i < length elems)
  then <[i := Some x]> elems
  else elems ++ replicate (i - length elems) None ++ [Some x].

(** [elems.length = x]: the host converts [x] to a number, throws
    [RangeError] unless that is an integer from [0] to [2^32 - 1], and
    otherwise cuts the array or extends it with holes.  [undefined]
    converts to [NaN], [null] to [0], a boolean to [0] or [1]; converting
    a string, an object or a function runs code of the host that the
    model does not follow. *)
Definition set_length (elems : list (option value)) (x : value)
  : outcome (list (option value)) :=
  match x with
  | VNum n =>
      if decide (0 ≤ n < 4294967296)%Z
      then Returns (resize (Z.to_nat n) None elems)
      else Throws RangeError
  | VBool b => Returns (resize (if b then 1 else 0) None elems)
  | VNull => Returns (resize 0 None elems)
  | VUndefined => Throws RangeError
  | _ => Beyond
  end.

(** *** The prototypes of plain data

    The members of [Object.prototype] and of [Array.prototype], as the
    language defines them (ECMAScript 2023, with the legacy accessors of
    its Annex B).  Each is a function of the host; [constructor] is
    [Object], respectively [Array]. *)

Definition object_prototype_methods : list string :=
  ["hasOwnProperty"; "isPrototypeOf"; "propertyIsEnumerable";
   "toLocaleString"; "toString"; "valueOf";
   "__defineGetter__"; "__defineSetter__";
   "__lookupGetter__"; "__lookupSetter__"].

Definition array_prototype_methods : list string :=
  ["at"; "concat"; "copyWithin"; "entries"; "every"; "fill"; "filter";
   "find"; "findIndex"; "findLast"; "findLastIndex"; "flat"; "flatMap";
   "forEach"; "includes"; "indexOf"; "join"; "keys"; "lastIndexOf"; "map";
   "pop"; "push"; "reduce"; "reduceRight"; "reverse"; "shift"; "slice";
   "some"; "sort"; "splice"; "toLocaleString"; "toReversed"; "toSorted";
   "toSpliced"; "toString"; "unshift"; "values"; "with"].

(** The function of the host that [Object.prototype] holds at [key], by
    its name; [__proto__], an accessor, is apart. *)
Definition object_member (key : string) : option string :=
  if decide (key = "constructor") then Some "Object"
  else if decide (key ∈ object_prototype_methods)
       then Some ("Object.prototype." +:+ key)
       else None.

(** The function of the host that [Array.prototype] holds or inherits at
    [key]; [__proto__] and [length] are apart. *)
Definition array_member (key : string) : option string :=
  if decide (key = "constructor") then Some "Array"
  else if decide (key ∈ array_prototype_methods)
       then Some ("Array.prototype." +:+ key)
       else object_member key.

(** *** Property access *)

(** The property [key] of the object [v], own or inherited: [Some x] when
    [key in v], and then [x] is [v[key]].  The accessor [__proto__] of
    [Object.prototype] reads as the prototype of [v]. *)
Definition lookup_property (v : value) (key : string) : option value :=
  match v with
  | VObj props =>
      match props !! key with
      | Some x => Some x
      | None =>
          if decide (key = "__proto__")
          then Some (VHostObject ObjectPrototype)
          else VHostFunction <$> object_member key
      end
  | VArr elems extra =>
      match array_index key with
      | Some i => mjoin (elems !! i)
      | None =>
          if decide (key = "length")
          then Some (VNum (Z.of_nat (length elems)))
          else match extra !! key with
               | Some x => Some x
               | None =>
                   if decide (key = "__proto__")
                   then Some (VHostObject ArrayPrototype)
                   else VHostFunction <$> array_member key
               end
      end
  | VHostObject ObjectPrototype =>
      if decide (key = "__proto__") then Some VNull
      else VHostFunction <$> object_member key
  | VHostObject ArrayPrototype =>
      if decide (key = "length") then Some (VNum 0)
      else if decide (key = "__proto__")
           then Some (VHostObject ObjectPrototype)
           else VHostFunction <$> array_member key
  | _ => None
  end.

(** [key in v]: [TypeError] on a primitive; the properties of a function
    are not modelled. *)
Definition has_property (v : value) (key : string) : outcome bool :=
  match v with
  | VObj _ | VArr _ _ | VHostObject _ =>
      Returns (bool_decide (is_Some (lookup_property v key)))
  | VFun _ | VHostFunction _ => Beyond
  | _ => Throws TypeError
  end.

(** [v[key]], for an object [v]. *)
Definition get (v : value) (key : string) : value :=
  default VUndefined (lookup_property v key).

(** What the setter of [__proto__] does with [x], on an object whose
    prototype is [standard]: it ignores a primitive, and the prototype
    stays what it is when [x] is that prototype; on [null], another
    object or a function it replaces the prototype. *)
Definition keeps_prototype (standard : host_object) (x : value) : bool :=
  match x with
  | VUndefined | VBool _ | VNum _ | VStr _ => true
  | VHostObject o => bool_decide (o = standard)
  | _ => false
  end.

(** [object[key] = x], on the own properties of a plain object the caller
    has created.  The name [__proto__], unless it is an own property,
    reaches the setter of [Object.prototype]; any other name becomes or
    stays an own property. *)
Definition assign (props : gmap string value) (key : string) (x : value)
  : outcome (gmap string value) :=
  if decide (key = "__proto__" ∧ props !! key = None)
  then (if keeps_prototype ObjectPrototype x then Returns props else Beyond)
  else Returns (<[key := x]> props).

(** [v[key] = x], for a plain object or an array [v] the caller has
    created. *)
Definition put (v : value) (key : string) (x : value) : outcome value :=
  match v with
  | VObj props => VObj <$> assign props key x
  | VArr elems extra =>
      match array_index key with
      | Some i => Returns (VArr (write_index elems i x) extra)
      | None =>
          if decide (key = "length")
          then (λ elems', VArr elems' extra) <$> set_length elems x
          else if decide (key = "__proto__" ∧ extra !! key = None)
          then (if keeps_prototype ArrayPrototype x then Returns v else Beyond)
          else Returns (VArr elems (<[key := x]> extra))
      end
  | _ => Beyond
  end.

(** The code units of a string as properties ["0"], ["1"], ... *)
Fixpoint string_entries (i : N) (units : list N) : gmap string value :=
  match units with
  | [] => ∅
  | u :: units' => <[pretty i := VStr [u]]> (string_entries (N.succ i) units')
  end.

(** The elements of an array as properties; a hole is no property. *)
Fixpoint index_entries (i : N) (elems : list (option value))
  : gmap string value :=
  match elems with
  | [] => ∅
  | e :: elems' =>
      let rest := index_entries (N.succ i) elems' in
      match e with
      | Some x => <[pretty i := x]> rest
      | None => rest
      end
  end.

(** [{ ...v }]: the own enumerable properties of [v].  The members of the
    prototypes, and the [length] of an array, are not enumerable. *)
Definition spread (v : value) : gmap string value :=
  match v with
  | VObj props => props
  | VArr elems extra => index_entries 0 elems ∪ extra
  | VStr units => string_entries 0 units
  | _ => ∅
  end.

(** [[ ...v ]] for an array [v]: the elements, holes read as [undefined];
    named properties are not copied.  [Array.prototype] has no element. *)
Definition array_copy (v : value) : value :=
  match v with
  | VArr elems _ => VArr ((λ e, Some (default VUndefined e)) <$> elems) ∅
  | _ => VArr [] ∅
  end.

(** [{ ...v }] as a value. *)
Definition object_copy (v : value) : value := VObj (spread v).

(** [Array.isArray(v) ? [...v] : { ...v }] *)
Definition shallow_copy (v : value) : value :=
  if is_array v then array_copy v else object_copy v.

(** How deep Records nest inside a value. *)
Fixpoint depth (v : value) : nat :=
  match v with
  | VObj props => S (map_fold (λ _ x acc, depth x `max` acc) 0 props)
  | _ => 0
  end.

(** The Records that [merge] goes through: [v], when it is a Record, the
    Records it holds, and so on.  [ordinary_keys v] says that none of
    them has an own key named [hasOwnProperty] or [__proto__], and that
    none of them is a prototype object of the host. *)
Fixpoint ordinary_keys (v : value) : bool :=
  match v with
  | VObj props =>
      bool_decide (props !! "hasOwnProperty" = None)
      && bool_decide (props !! "__proto__" = None)
      && map_fold (λ _ x acc, ordinary_keys x && acc) true props
  | VHostObject ObjectPrototype => false
  | _ => true
  end.

(** The names that the host handles itself when they are assigned to on
    [u]: [__proto__], and [length] on an array. *)
Definition host_name (u : value) (key : string) : bool :=
  bool_decide (key = "__proto__")
  || (is_array u && bool_decide (key = "length")).

(** The names a plain object inherits: [__proto__] and the members of
    [Object.prototype]. *)
Definition object_inherits (key : string) : bool :=
  bool_decide (key = "__proto__") || bool_decide (is_Some (object_member key)).

(** A list of segments none of which the host handles itself wherever it
    is assigned to: no segment is [__proto__], and the last one, the only
    one that can be assigned a value that is no container, is not
    [length]. *)
Definition ordinary_path (keys : list string) : Prop :=
  ("__proto__" ∉ keys) ∧ last keys ≠ Some "length".

(** ** The path resolver *)

(** [path.split('.')] *)
Fixpoint split_dot (path : string) : list string :=
  match path with
  | EmptyString => [EmptyString]
  | String c rest =>
      if decide (c = "."%char) then EmptyString :: split_dot rest
      else match split_dot rest with
           | seg :: segs => String c seg :: segs
           | [] => [String c EmptyString]
           end
  end.

(** [segments.join('.')], the inverse of [split] on segments without a
    dot. *)
Fixpoint join_dot (segments : list string) : string :=
  match segments with
  | [] => EmptyString
  | [seg] => seg
  | seg :: rest => seg +:+ "." +:+ join_dot rest
  end.

(** The segment contains no ['.']. *)
Fixpoint dot_free (seg : string) : bool :=
  match seg with
  | EmptyString => true
  | String c rest => negb (bool_decide (c = "."%char)) && dot_free rest
  end.

(** ** The object helpers *)

Module Pure.

(** [pick]: lines 75-86.  The keys are property names: a number given as
    a key is the string of its digits.  The loop runs over the keys in
    their order and stops at the first that throws. *)
Definition pick (obj : value) (keys : list string) : outcome value :=
  VObj <$> foldl (λ (acc : outcome (gmap string value)) key,
                    object ← acc;
                    present ← has_property obj key;
                    if present : bool
                    then assign object key (get obj key)
                    else Returns object)
                 (Returns ∅) keys.

(** [omit]: lines 89-100.  [delete] removes an own property and does
    nothing for an inherited one. *)
Definition omit (candidate : value) (keys : list string) : value :=
  VObj (foldl (λ object key,
                 if bool_decide (is_Some (lookup_property (VObj object) key))
                 then delete key object
                 else object)
              (spread candidate) keys).

(** [recursor]: lines 114-125. *)
Fixpoint recursor (current : value) (keys : list string) (value : value)
  : completion :=
  match keys with
  | [] => Returns value
  | firstKey :: remainingKeys =>
      if negb (typeof_object current) || is_null current
      then Throws InvalidIntermediateError
      else
        let updated := shallow_copy current in
        x ← recursor (get current firstKey) remainingKeys value;
        put updated firstKey x
  end.

(** [set]: lines 105-128. *)
Definition set (path : string) (obj : value) (value : value)
  : completion :=
  if String.eqb path "" then Throws InvalidPathError
  else recursor obj (split_dot path) value.

(** [b.hasOwnProperty(key)], line 137, for an own enumerable key of [b].
    The method is looked up on [b]: an own property of that name shadows
    the method of [Object.prototype].  What is found is called: that
    throws unless it is a function, and a function other than the
    method of the host is not followed.  A string inherits the method
    of the host. *)
Definition has_own_property_call (b : value) (key : string) : outcome bool :=
  match b with
  | VObj _ | VArr _ _ =>
      match get b "hasOwnProperty" with
      | VHostFunction name =>
          if decide (name = "Object.prototype.hasOwnProperty")
          then Returns true else Beyond
      | VFun _ => Beyond
      | _ => Throws TypeError
      end
  | _ => Returns true
  end.

(** The state of the [for ... in] loop of [merge]: the object under
    construction, and whether the loop is running ([Returns ()]), has
    thrown or has left the model. *)
Definition loop_state : Type := gmap string value * outcome ().

(** The body of the loop, lines 137-143, for one own key of [b], on the
    object under construction; [merge] is the recursive call. *)
Definition merge_iteration (merge : value → value → outcome value)
    (b : value) (key : string) (bv : value) (result : gmap string value)
  : outcome (gmap string value) :=
  present ← has_own_property_call b key;
  if present : bool then
    if is_record bv
    then x ← merge (or_empty (get (VObj result) key)) bv;
         assign result key x
    else assign result key bv
  else Returns result.

(** One turn of the loop.

    The host runs the loop in the order in which it keeps the keys of
    [b], which a Record of the model does not carry.  An iteration reads
    and writes the object under its own key only, so what the loop builds
    does not depend on that order; which iteration fails first does.
    The model therefore goes through all the keys, also after one has
    thrown: when some iteration leaves the model the answer is [Beyond],
    whatever the order, and otherwise the loop throws when some
    iteration throws. *)
Definition merge_step (merge : value → value → outcome value) (b : value)
    (key : string) (bv : value) (acc : loop_state) : loop_state :=
  let '(result, so_far) := acc in
  match so_far, merge_iteration merge b key bv result with
  | Beyond, _ => acc
  | _, Beyond => (result, Beyond)
  | Returns _, Returns result' => (result', so_far)
  | Returns _, Throws e => (result, Throws e)
  | Throws _, _ => acc
  end.

(** [return result], or what stopped the loop. *)
Definition loop_end (acc : loop_state) : outcome value :=
  _ ← acc.2; Returns (VObj acc.1).

(** [merge]: lines 131-146. *)
Fixpoint merge (a b : value) {struct b} : outcome value :=
  match b with
  | VObj props =>
      loop_end (map_fold (merge_step merge b) (spread a, Returns ()) props)
  | VArr elems extra =>
      let indexed :=
        (fix loop (i : N) (elems : list (option value)) (acc : loop_state) :=
           match elems with
           | [] => acc
           | e :: elems' =>
               loop (N.succ i) elems'
                 match e with
                 | Some bv => merge_step merge b (pretty i) bv acc
                 | None => acc
                 end
           end) 0%N elems (spread a, Returns ()) in
      loop_end (map_fold (merge_step merge b) indexed extra)
  | _ =>
      (* the own properties of a string are strings, and the other values
         have none: no property here is a Record, and the loop never
         makes the recursive call *)
      loop_end (map_fold (merge_step (λ _ x, Returns x) b)
                         (spread a, Returns ()) (spread b))
  end.

(** Reading back along a list of segments: [v[k1][k2]...], defined as long
    as every value read from is a Record or a Sequence. *)
Fixpoint read_path (v : value) (keys : list string) : option value :=
  match keys with
  | [] => Some v
  | key :: keys' =>
      if is_container v then read_path (get v key) keys' else None
  end.

(** [x] is a value [set] reads from on its way along [keys]: the value
    reached from [root] by the segments before some segment of [keys],
    every value before it being a Record or a Sequence.  The root is
    reached by no segment, as soon as one segment remains. *)
Definition reached (root : value) (keys : list string) (x : value) : Prop :=
  ∃ ks k rest, keys = ks ++ k :: rest ∧ read_path root ks = Some x.

End Pure.

(** ** The store model

    Objects live in a store and are named by locations.  The helpers
    allocate their copies and write into them in place, as the source
    does; the store after a call holds every object that existed before. *)

Module Store.

Definition loc : Type := positive.

(** A value is a primitive, a function, a prototype object of the host or
    a reference. *)
Inductive hvalue : Type :=
  | HUndefined
  | HNull
  | HBool (b : bool)
  | HNum (n : Z)
  | HStr (units : list N)
  | HFun (id : nat)
  | HHostFunction (name : string)
  | HHostObject (o : host_object)
  | HRef (l : loc).

(** What a location holds: a plain object or an array. *)
Inductive hobject : Type :=
  | HObj (props : gmap string hvalue)
  | HArr (elems : list (option hvalue)) (extra : gmap string hvalue).

(** A reference to a location that holds nothing does not arise from a
    JavaScript state; it is read as an empty object. *)
Definition deref (h : gmap loc hobject) (l : loc) : hobject :=
  default (HObj ∅) (h !! l).

(** [new]: the object goes to a location the store does not use. *)
Definition alloc (h : gmap loc hobject) (o : hobject)
  : gmap loc hobject * loc :=
  let l := fresh (dom h) in (<[l := o]> h, l).

Definition h_truthy (x : hvalue) : bool :=
  match x with
  | HUndefined | HNull => false
  | HBool b => b
  | HNum n => negb (n =? 0)%Z
  | HStr units => negb (bool_decide (units = []))
  | _ => true
  end.

Definition o_is_array (o : hobject) : bool :=
  match o with HArr _ _ => true | HObj _ => false end.

(** [typeof x === 'object' && x !== null] *)
Definition h_is_container (x : hvalue) : bool :=
  match x with
  | HHostObject _ | HRef _ => true
  | _ => false
  end.

(** [Array.isArray(x)] *)
Definition h_is_array (h : gmap loc hobject) (x : hvalue) : bool :=
  match x with
  | HRef l => o_is_array (deref h l)
  | HHostObject ArrayPrototype => true
  | _ => false
  end.

(** [typeof x === 'object' && x !== null && !Array.isArray(x)] *)
Definition h_is_record (h : gmap loc hobject) (x : hvalue) : bool :=
  h_is_container x && negb (h_is_array h x).

Definition o_write_index (elems : list (option hvalue)) (i : nat) (x : hvalue)
  : list (option hvalue) :=
  if decide (i < length elems)
  then <[i := Some x]> elems
  else elems ++ replicate (i - length elems) None ++ [Some x].

(** [elems.length = x] *)
Definition o_set_length (elems : list (option hvalue)) (x : hvalue)
  : outcome (list (option hvalue)) :=
  match x with
  | HNum n =>
      if decide (0 ≤ n < 4294967296)%Z
      then Returns (resize (Z.to_nat n) None elems)
      else Throws RangeError
  | HBool b => Returns (resize (if b then 1 else 0) None elems)
  | HNull => Returns (resize 0 None elems)
  | HUndefined => Throws RangeError
  | _ => Beyond
  end.

(** The property [key] of an object of the store, own or inherited. *)
Definition o_lookup_property (o : hobject) (key : string) : option hvalue :=
  match o with
  | HObj props =>
      match props !! key with
      | Some x => Some x
      | None =>
          if decide (key = "__proto__")
          then Some (HHostObject ObjectPrototype)
          else HHostFunction <$> object_member key
      end
  | HArr elems extra =>
      match array_index key with
      | Some i => mjoin (elems !! i)
      | None =>
          if decide (key = "length")
          then Some (HNum (Z.of_nat (length elems)))
          else match extra !! key with
               | Some x => Some x
               | None =>
                   if decide (key = "__proto__")
                   then Some (HHostObject ArrayPrototype)
                   else HHostFunction <$> array_member key
               end
      end
  end.

(** The property [key] of a prototype object of the host. *)
Definition host_lookup_property (o : host_object) (key : string)
  : option hvalue :=
  match o with
  | ObjectPrototype =>
      if decide (key = "__proto__") then Some HNull
      else HHostFunction <$> object_member key
  | ArrayPrototype =>
      if decide (key = "length") then Some (HNum 0)
      else if decide (key = "__proto__")
           then Some (HHostObject ObjectPrototype)
           else HHostFunction <$> array_member key
  end.

Definition h_lookup_property (h : gmap loc hobject) (x : hvalue)
    (key : string) : option hvalue :=
  match x with
  | HRef l => o_lookup_property (deref h l) key
  | HHostObject o => host_lookup_property o key
  | _ => None
  end.

(** [o[key]] *)
Definition o_get (o : hobject) (key : string) : hvalue :=
  default HUndefined (o_lookup_property o key).

(** [x[key]], for an object [x]. *)
Definition h_get (h : gmap loc hobject) (x : hvalue) (key : string)
  : hvalue :=
  default HUndefined (h_lookup_property h x key).

(** [key in x] *)
Definition h_has_property (h : gmap loc hobject) (x : hvalue) (key : string)
  : outcome bool :=
  match x with
  | HRef _ | HHostObject _ =>
      Returns (bool_decide (is_Some (h_lookup_property h x key)))
  | HFun _ | HHostFunction _ => Beyond
  | _ => Throws TypeError
  end.

(** What the setter of [__proto__] does with [x]. *)
Definition h_keeps_prototype (standard : host_object) (x : hvalue) : bool :=
  match x with
  | HUndefined | HBool _ | HNum _ | HStr _ => true
  | HHostObject o => bool_decide (o = standard)
  | _ => false
  end.

(** The object [o] after [o[key] = x]. *)
Definition o_put (o : hobject) (key : string) (x : hvalue)
  : outcome hobject :=
  match o with
  | HObj props =>
      if decide (key = "__proto__" ∧ props !! key = None)
      then (if h_keeps_prototype ObjectPrototype x then Returns o else Beyond)
      else Returns (HObj (<[key := x]> props))
  | HArr elems extra =>
      match array_index key with
      | Some i => Returns (HArr (o_write_index elems i x) extra)
      | None =>
          if decide (key = "length")
          then (λ elems', HArr elems' extra) <$> o_set_length elems x
          else if decide (key = "__proto__" ∧ extra !! key = None)
          then (if h_keeps_prototype ArrayPrototype x then Returns o else Beyond)
          else Returns (HArr elems (<[key := x]> extra))
      end
  end.

Fixpoint o_string_entries (i : N) (units : list N) : gmap string hvalue :=
  match units with
  | [] => ∅
  | u :: units' =>
      <[pretty i := HStr [u]]> (o_string_entries (N.succ i) units')
  end.

Fixpoint o_index_entries (i : N) (elems : list (option hvalue))
  : gmap string hvalue :=
  match elems with
  | [] => ∅
  | e :: elems' =>
      let rest := o_index_entries (N.succ i) elems' in
      match e with
      | Some x => <[pretty i := x]> rest
      | None => rest
      end
  end.

(** The own enumerable properties of an object. *)
Definition o_spread (o : hobject) : gmap string hvalue :=
  match o with
  | HObj props => props
  | HArr elems extra => o_index_entries 0 elems ∪ extra
  end.

(** [{ ...x }] *)
Definition h_spread (h : gmap loc hobject) (x : hvalue)
  : gmap string hvalue :=
  match x with
  | HRef l => o_spread (deref h l)
  | HStr units => o_string_entries 0 units
  | _ => ∅
  end.

(** [[ ...o ]] *)
Definition o_array_copy (o : hobject) : hobject :=
  match o with
  | HArr elems _ => HArr ((λ e, Some (default HUndefined e)) <$> elems) ∅
  | HObj _ => HArr [] ∅
  end.

(** [Array.isArray(o) ? [...o] : { ...o }] *)
Definition o_shallow_copy (o : hobject) : hobject :=
  if o_is_array o then o_array_copy o else HObj (o_spread o).

(** The same for an object [x]; a prototype object of the host has no
    element and no own enumerable property. *)
Definition h_shallow_copy (h : gmap loc hobject) (x : hvalue) : hobject :=
  match x with
  | HRef l => o_shallow_copy (deref h l)
  | HHostObject ArrayPrototype => HArr [] ∅
  | _ => HObj ∅
  end.

(** [l[key] = x]: the one operation that changes an object in place.  The
    store is left as it was when the assignment does not return. *)
Definition store (h : gmap loc hobject) (l : loc) (key : string) (x : hvalue)
  : gmap loc hobject * outcome () :=
  match o_put (deref h l) key x with
  | Returns o => (<[l := o]> h, Returns ())
  | Throws e => (h, Throws e)
  | Beyond => (h, Beyond)
  end.

(** [recursor]: lines 114-125. *)
Fixpoint recursor (h : gmap loc hobject) (current : hvalue)
    (keys : list string) (value : hvalue)
  : gmap loc hobject * outcome hvalue :=
  match keys with
  | [] => (h, Returns value)
  | firstKey :: remainingKeys =>
      if negb (h_is_container current)
      then (h, Throws InvalidIntermediateError)
      else
        let '(h1, updated) := alloc h (h_shallow_copy h current) in
        match recursor h1 (h_get h current firstKey) remainingKeys value with
        | (h2, Returns x) =>
            let '(h3, assigned) := store h2 updated firstKey x in
            (h3, _ ← assigned; Returns (HRef updated))
        | (h2, Throws e) => (h2, Throws e)
        | (h2, Beyond) => (h2, Beyond)
        end
  end.

(** [set]: lines 105-128. *)
Definition set (path : string) (h : gmap loc hobject) (obj value : hvalue)
  : gmap loc hobject * outcome hvalue :=
  if String.eqb path "" then (h, Throws InvalidPathError)
  else recursor h obj (split_dot path) value.

(** [b.hasOwnProperty(key)], line 137. *)
Definition h_has_own_property_call (h : gmap loc hobject) (b : hvalue)
    (key : string) : outcome bool :=
  match b with
  | HRef _ =>
      match h_get h b "hasOwnProperty" with
      | HHostFunction name =>
          if decide (name = "Object.prototype.hasOwnProperty")
          then Returns true else Beyond
      | HFun _ => Beyond
      | _ => Throws TypeError
      end
  | _ => Returns true
  end.

(** The state of the loop of [merge]: the store, and whether the loop is
    running, has thrown or has left the model; [None] when the recursion
    has run out of fuel. *)
Definition loop_state : Type := gmap loc hobject * option (outcome ()).

(** The body of the [for ... in] loop of [merge], lines 137-143, for one
    own key of [b] and the value [bv] that [b] holds there, in the store
    [hi]: [result] is the location of the object being built and [merge]
    the recursive call. *)
Definition merge_iteration
    (merge : gmap loc hobject → hvalue → hvalue
             → gmap loc hobject * option (outcome hvalue))
    (result : loc) (b : hvalue) (key : string) (bv : hvalue)
    (hi : gmap loc hobject) : loop_state :=
  match h_has_own_property_call hi b key with
  | Returns present =>
      if present : bool then
        if h_is_record hi bv then
          let cur := h_get hi (HRef result) key in
          let '(hj, arg) :=
            if h_truthy cur then (hi, cur)
            else let '(hj, e) := alloc hi (HObj ∅) in (hj, HRef e) in
          match merge hj arg bv with
          | (hk, Some (Returns x)) =>
              let '(h', assigned) := store hk result key x in
              (h', Some assigned)
          | (hk, Some (Throws e)) => (hk, Some (Throws e))
          | (hk, Some Beyond) => (hk, Some Beyond)
          | (hk, None) => (hk, None)
          end
        else
          let '(h', assigned) := store hi result key bv in
          (h', Some assigned)
      else (hi, Some (Returns ()))
  | Throws e => (hi, Some (Throws e))
  | Beyond => (hi, Some Beyond)
  end.

(** One turn of the loop.  As in the pure model the loop goes through
    all the keys; once an iteration has thrown, the later ones are looked
    at only for leaving the model, and what they did to the store is
    dropped. *)
Definition merge_step
    (merge : gmap loc hobject → hvalue → hvalue
             → gmap loc hobject * option (outcome hvalue))
    (result : loc) (b : hvalue) (key : string) (bv : hvalue)
    (acc : loop_state) : loop_state :=
  let '(hi, so_far) := acc in
  match so_far with
  | None | Some Beyond => acc
  | Some (Returns _) => merge_iteration merge result b key bv hi
  | Some (Throws _) =>
      match (merge_iteration merge result b key bv hi).2 with
      | None => (hi, None)
      | Some Beyond => (hi, Some Beyond)
      | Some _ => acc
      end
  end.

(** The loop of [merge] from a new object that holds the own properties
    of [a], over the own properties of [b]; the keys are taken in the
    order in which the pure model takes them. *)
Definition merge_loop
    (merge : gmap loc hobject → hvalue → hvalue
             → gmap loc hobject * option (outcome hvalue))
    (h : gmap loc hobject) (a b : hvalue)
  : gmap loc hobject * option (outcome hvalue) :=
  let '(h1, result) := alloc h (HObj (h_spread h a)) in
  let '(h', status) :=
    foldr (λ entry, merge_step merge result b entry.1 entry.2)
          (h1, Some (Returns ()))
          (map_to_list (h_spread h b)) in
  (h', (λ s : outcome (), _ ← s; Returns (HRef result)) <$> status).

(** [merge]: lines 131-146.  The objects of a store may form a cycle, on
    which the source does not return; [fuel] bounds the depth of the
    references that the recursion follows, and [None] is the answer when
    it runs out.  A [b] that is no reference holds no Record, and the
    loop over it makes no recursive call. *)
Fixpoint merge (fuel : nat) (h : gmap loc hobject) (a b : hvalue)
  : gmap loc hobject * option (outcome hvalue) :=
  match b with
  | HRef _ =>
      match fuel with
      | O => (h, None)
      | S fuel' => merge_loop (merge fuel') h a b
      end
  | _ => merge_loop (λ h _ _, (h, None)) h a b
  end.

(** What may be there reads as what may be there: both are, and the one
    reads as the other, or neither is. *)
Definition reads_option (read : hvalue → option value)
    (y : option hvalue) (v : option value) : Prop :=
  match y, v with
  | Some y, Some v => read y = Some v
  | None, None => True
  | _, _ => False
  end.

(** The properties of an object, each read by [read]; there is no
    answer when one of them cannot be read. *)
Definition snapshot_props (read : hvalue → option value)
    (m : gmap string hvalue) : option (gmap string value) :=
  if decide (map_Forall (λ _ x, is_Some (read x)) m)
  then Some (omap read m) else None.

(** The elements of an array, each read by [read]; a hole stays a hole. *)
Definition snapshot_elems (read : hvalue → option value)
    (elems : list (option hvalue)) : option (list (option value)) :=
  mapM (λ e, match e with
             | Some y => Some <$> read y
             | None => Some None
             end) elems.

(** An object, its parts read by [read]. *)
Definition snapshot_object (read : hvalue → option value) (o : hobject)
  : option value :=
  match o with
  | HObj props => VObj <$> snapshot_props read props
  | HArr elems extra =>
      es ← snapshot_elems read elems;
      VArr es <$> snapshot_props read extra
  end.

(** The value that [x] is, when it is no reference. *)
Definition direct (x : hvalue) : option value :=
  match x with
  | HUndefined => Some VUndefined
  | HNull => Some VNull
  | HBool b => Some (VBool b)
  | HNum n => Some (VNum n)
  | HStr units => Some (VStr units)
  | HFun id => Some (VFun id)
  | HHostFunction name => Some (VHostFunction name)
  | HHostObject o => Some (VHostObject o)
  | HRef _ => None
  end.

(** The value a store holds behind [x], read to depth [fuel]: the
    snapshot a deep-equality test compares. *)
Fixpoint snapshot (fuel : nat) (h : gmap loc hobject) (x : hvalue)
  : option value :=
  match x with
  | HRef l =>
      match fuel with
      | O => None
      | S fuel' => h !! l ≫= snapshot_object (snapshot fuel' h)
      end
  | _ => direct x
  end.

(** The object [o] after [delete o[key]], for a plain object [o]: an own
    property goes, and nothing happens for a name that is not one.  The
    helpers delete from plain objects only. *)
Definition o_delete (o : hobject) (key : string) : hobject :=
  match o with
  | HObj props => HObj (delete key props)
  | HArr _ _ => o
  end.

(** [delete l[key]], in place. *)
Definition remove (h : gmap loc hobject) (l : loc) (key : string)
  : gmap loc hobject :=
  alter (λ o, o_delete o key) l h.

(** The body of the loop of [pick], lines 80-82, for one key: the store
    and whether the loop is running, has thrown or has left the model. *)
Definition pick_step (obj : hvalue) (object : loc)
    (acc : gmap loc hobject * outcome ()) (key : string)
  : gmap loc hobject * outcome () :=
  let '(hi, so_far) := acc in
  match so_far with
  | Returns _ =>
      match h_has_property hi obj key with
      | Returns present =>
          if present : bool
          then store hi object key (h_get hi obj key)
          else acc
      | Throws e => (hi, Throws e)
      | Beyond => (hi, Beyond)
      end
  | _ => acc
  end.

(** [pick]: lines 75-86. *)
Definition pick (h : gmap loc hobject) (obj : hvalue) (keys : list string)
  : gmap loc hobject * outcome hvalue :=
  let '(h1, object) := alloc h (HObj ∅) in
  let '(h', status) := foldl (pick_step obj object) (h1, Returns ()) keys in
  (h', _ ← status; Returns (HRef object)).

(** [omit]: lines 89-100. *)
Definition omit (h : gmap loc hobject) (candidate : hvalue)
    (keys : list string) : gmap loc hobject * hvalue :=
  let '(h1, object) := alloc h (HObj (h_spread h candidate)) in
  (foldl (λ hi key,
            if bool_decide (is_Some (h_lookup_property hi (HRef object) key))
            then remove hi object key
            else hi)
         h1 keys,
   HRef object).

End Store.

(** ** The type predicates and their combinators *)

Module Base.

(** [isString] ... [isNull]: lines 11-18. *)
Definition isString (a : value) : bool :=
  match a with VStr _ => true | _ => false end.
Definition isNumber (a : value) : bool :=
  match a with VNum _ => true | _ => false end.
Definition isBoolean (a : value) : bool :=
  match a with VBool _ => true | _ => false end.
Definition isObject (a : value) : bool :=
  typeof_object a && negb (is_null a).
Definition isArray (a : value) : bool := is_array a.
Definition isFunction (a : value) : bool := typeof_function a.
Definition isUndefined (a : value) : bool :=
  match a with VUndefined => true | _ => false end.
Definition isNull (a : value) : bool := is_null a.

(** What a combined predicate answers: a boolean, or the error
    "All elements must be functions". *)
Inductive answer : Type :=
  | Answers (b : bool)
  | ThrowsNotFunction.

(** A member of the list given to [isAnyOf] or [isAllOf] is a predicate,
    [Some p], or a value that is not a function, [None]. *)

(** The [for ... of] loop of [isAnyOf], lines 25-31. *)
Fixpoint any_loop {T} (predicates : list (option (T → bool))) (candidate : T)
  : answer :=
  match predicates with
  | [] => Answers false
  | None :: _ => ThrowsNotFunction
  | Some predicate :: rest =>
      if predicate candidate then Answers true else any_loop rest candidate
  end.

(** [isAnyOf]: lines 21-32. *)
Definition isAnyOf {T} (predicates : list (option (T → bool))) (candidate : T)
  : answer :=
  if length predicates =? 0 then Answers false
  else any_loop predicates candidate.

(** The [for ... of] loop of [isAllOf], lines 39-45. *)
Fixpoint all_loop {T} (predicates : list (option (T → bool))) (candidate : T)
  : answer :=
  match predicates with
  | [] => Answers true
  | None :: _ => ThrowsNotFunction
  | Some predicate :: rest =>
      if negb (predicate candidate) then Answers false
      else all_loop rest candidate
  end.

(** [isAllOf]: lines 35-46. *)
Definition isAllOf {T} (predicates : list (option (T → bool))) (candidate : T)
  : answer :=
  if length predicates =? 0 then Answers true
  else all_loop predicates candidate.

(** [!b], through an answer. *)
Definition negate (r : answer) : answer :=
  match r with
  | Answers b => Answers (negb b)
  | ThrowsNotFunction => ThrowsNotFunction
  end.

End Base.

(** ** The list helpers *)

Module ListHelpers.

(** [a[i]] on the elements of an array: a hole and an index past the end
    read as [undefined]. *)
Definition element (a : list (option value)) (i : nat) : value :=
  default VUndefined (mjoin (a !! i)).

(** The tuple [[x, y]]. *)
Definition tuple (x y : value) : value := VArr [Some x; Some y] ∅.

(** [zip]: lines 152-159.  [new Array(length)] is [length] holes, and the
    loop assigns the indices [0] to [length - 1] in turn. *)
Definition zip (a b : list (option value)) : list (option value) :=
  let length := length a `max` length b in
  foldl (λ c i, write_index c i (tuple (element a i) (element b i)))
        (replicate length None) (seq 0 length).

(** What [partition] gives: the two parts, or the error "Predicate must
    be a function". *)
Inductive parts : Type :=
  | Parts (truePart falsePart : list (option value))
  | ThrowsPredicate.

(** [part.push(item)] *)
Definition push (part : list (option value)) (item : value)
  : list (option value) :=
  part ++ [Some item].

(** The [for ... of] loop of [partition], lines 168-177, from the parts
    built so far; the predicate is a function, [Some p], or not one,
    [None].  The loop reads a hole as [undefined]. *)
Fixpoint partition_loop (arr : list (option value))
    (predicate : option (value → bool))
    (truePart falsePart : list (option value)) : parts :=
  match arr with
  | [] => Parts truePart falsePart
  | e :: rest =>
      let item := default VUndefined e in
      match predicate with
      | None => ThrowsPredicate
      | Some p =>
          if p item
          then partition_loop rest predicate (push truePart item) falsePart
          else partition_loop rest predicate truePart (push falsePart item)
      end
  end.

(** [partition]: lines 162-179. *)
Definition partition (arr : list (option value))
    (predicate : option (value → bool)) : parts :=
  partition_loop arr predicate [] [].

End ListHelpers.

(** ** The function helpers *)

Module FunctionHelpers.

(** [composeL]: lines 216-219, [fns.reduce((acc, fn) => fn(acc), init)]. *)
Definition composeL {A} (fns : list (A → A)) (initialValue : A) : A :=
  foldl (λ acc fn, fn acc) initialValue fns.

(** [composeR]: lines 246-249, [fns.reduceRight((acc, fn) => fn(acc),
    init)]. *)
Definition composeR {A} (fns : list (A → A)) (initialValue : A) : A :=
  foldr (λ fn acc, fn acc) initialValue fns.

End FunctionHelpers.


Import Pure.
(** * Properties *)

(** ** Values and the host operations *)

Lemma is_record_inv (v : value) :
  is_record v = true →
  (∃ props, v = VObj props) ∨ v = VHostObject ObjectPrototype.
Proof. destruct v as [| | | | | | |[]| |]; try discriminate; eauto. Qed.

Lemma is_record_container (v : value) :
  is_record v = true → is_container v = true.
Proof. by intros [[props ->]| ->]%is_record_inv. Qed.

Lemma is_record_truthy (v : value) : is_record v = true → truthy v = true.
Proof. by intros [[props ->]| ->]%is_record_inv. Qed.

Lemma is_container_inv (v : value) :
  is_container v = true →
  (∃ props, v = VObj props) ∨ (∃ elems extra, v = VArr elems extra)
  ∨ (∃ o, v = VHostObject o).
Proof. destruct v; try discriminate; eauto. Qed.

Lemma container_guard (v : value) :
  negb (typeof_object v) || is_null v = negb (is_container v).
Proof. by destruct v. Qed.

(** The falsy values are [undefined], [null], [false], [0] and the empty
    string. *)
Lemma truthy_false_iff (v : value) :
  truthy v = false ↔
  v = VUndefined ∨ v = VNull ∨ v = VBool false ∨ v = VNum 0 ∨ v = VStr [].
Proof.
  split.
  - destruct v as [| |[]|n|s| | | | |]; simpl; try done; try by eauto.
    + intros ->%negb_false_iff%Z.eqb_eq. by eauto 6.
    + intros ->%negb_false_iff%bool_decide_eq_true. by eauto 6.
  - by intros [->|[->|[->|[->| ->]]]].
Qed.

Lemma primitive_not_container (v : value) :
  is_primitive_or_null v = true → is_container v = false.
Proof. by destruct v. Qed.

(** A value stored in a Record nests less deeply than the Record. *)
Lemma depth_lookup (props : gmap string value) (k : string) (v : value) :
  props !! k = Some v → depth v < depth (VObj props).
Proof.
  simpl. intros Hk. apply Nat.lt_succ_r. revert k v Hk.
  apply (map_fold_weak_ind
           (λ r (m : gmap string value), ∀ k v, m !! k = Some v → (depth v ≤ r)%nat)).
  - intros k v. by rewrite lookup_empty.
  - intros i x m r _ IH k v. rewrite lookup_insert.
    case_decide as Hik; [intros [= ->]; lia|].
    intros Hk. specialize (IH _ _ Hk). lia.
Qed.

(** Induction over the Records nested in a value: what holds of every
    value that is not a plain object, and of a plain object once it holds
    of all the values stored in it, holds of every value. *)
Lemma value_record_ind (P : value → Prop) :
  (∀ v, (∀ props, v ≠ VObj props) → P v) →
  (∀ props, map_Forall (λ _ v, P v) props → P (VObj props)) →
  ∀ v, P v.
Proof.
  intros Hother Hobj v.
  remember (depth v) as n eqn:Hn. revert v Hn.
  induction n as [n IH] using lt_wf_ind. intros v ->.
  destruct v as [| | | | | | | |props|];
    try (apply Hother; intros props'; discriminate).
  apply Hobj. intros k x Hk. eapply IH; [|reflexivity].
  by eapply depth_lookup.
Qed.

(** *** Records with ordinary keys *)

Lemma ordinary_keys_inv (props : gmap string value) :
  ordinary_keys (VObj props) = true →
  props !! "hasOwnProperty" = None ∧ props !! "__proto__" = None ∧
  ∀ k x, props !! k = Some x → ordinary_keys x = true.
Proof.
  cbn [ordinary_keys]. rewrite !andb_true_iff, !bool_decide_eq_true.
  intros [[Hcall Hproto] Hall]. split; [done|]. split; [done|].
  revert Hall.
  apply (map_fold_weak_ind
           (λ r (m : gmap string value),
              r = true → ∀ k x, m !! k = Some x → ordinary_keys x = true)).
  - intros _ k x. by rewrite lookup_empty.
  - intros i y m r _ IH [Hy Hr]%andb_true_iff k x. rewrite lookup_insert.
    case_decide; [by intros [= <-]|]. by apply IH.
Qed.

Lemma ordinary_keys_intro (props : gmap string value) :
  props !! "hasOwnProperty" = None → props !! "__proto__" = None →
  (∀ k x, props !! k = Some x → ordinary_keys x = true) →
  ordinary_keys (VObj props) = true.
Proof.
  intros Hcall Hproto. cbn [ordinary_keys].
  rewrite !andb_true_iff, !bool_decide_eq_true.
  intros Hall. split; [done|]. revert Hall.
  apply (map_fold_weak_ind
           (λ r (m : gmap string value),
              (∀ k x, m !! k = Some x → ordinary_keys x = true) → r = true)).
  - done.
  - intros i y m r Hi IH Hall. apply andb_true_iff. split.
    + apply (Hall i). by rewrite lookup_insert_eq.
    + apply IH. intros k x Hk. apply (Hall k).
      rewrite lookup_insert_ne; [done|]. by intros ->; simplify_eq.
Qed.

(** Among the values with ordinary keys, the Records are the plain
    objects. *)
Lemma ordinary_record_inv (v : value) :
  ordinary_keys v = true → is_record v = true → ∃ props, v = VObj props.
Proof. intros Hv [?| ->]%is_record_inv; [done|discriminate]. Qed.

(** A part of a Record with ordinary keys has ordinary keys. *)
Lemma ordinary_keys_subseteq (m props : gmap string value) :
  m ⊆ props → ordinary_keys (VObj props) = true →
  ordinary_keys (VObj m) = true.
Proof.
  intros Hsub (Hcall & Hproto & Hall)%ordinary_keys_inv.
  apply ordinary_keys_intro.
  - by eapply lookup_weaken_None.
  - by eapply lookup_weaken_None.
  - intros k x Hk. apply (Hall k). by eapply lookup_weaken.
Qed.

(** *** Reading and the [in] operator *)

(** A property of a plain object is read through its own entry at the
    key only. *)
Lemma lookup_property_obj_ext (r s : gmap string value) (k : string) :
  r !! k = s !! k →
  lookup_property (VObj r) k = lookup_property (VObj s) k.
Proof. simpl. by intros ->. Qed.

Lemma get_own (props : gmap string value) (k : string) (x : value) :
  props !! k = Some x → get (VObj props) k = x.
Proof. unfold get. simpl. by intros ->. Qed.

Lemma lookup_property_obj (props : gmap string value) (k : string) :
  object_inherits k = false →
  lookup_property (VObj props) k = props !! k.
Proof.
  unfold object_inherits. rewrite orb_false_iff, !bool_decide_eq_false.
  intros [Hproto Hmember]. simpl. destruct (props !! k); [done|].
  rewrite decide_False by done.
  destruct (object_member k); [|done]. by destruct Hmember.
Qed.

Lemma get_obj_absent (props : gmap string value) (k : string) :
  props !! k = None → object_inherits k = false →
  get (VObj props) k = VUndefined.
Proof. intros Hk Hin. unfold get. by rewrite lookup_property_obj, Hk. Qed.

(** What the [in] operator says of an object is whether reading finds a
    property. *)
Lemma has_property_container (c : value) (k : string) :
  is_container c = true →
  has_property c k = Returns (bool_decide (is_Some (lookup_property c k))).
Proof. by intros [[? ->]|[(? & ? & ->)|[? ->]]]%is_container_inv. Qed.

(** A property that is not there reads as [undefined]. *)
Lemma get_absent (c : value) (k : string) :
  has_property c k = Returns false → get c k = VUndefined.
Proof.
  unfold get.
  destruct c; simpl; try done;
    intros [= Hk%bool_decide_eq_false]; by apply eq_None_not_Some in Hk as ->.
Qed.

(** A name that is not in an object is not one the host handles. *)
Lemma absent_not_host_name (c : value) (k : string) :
  has_property c k = Returns false → host_name c k = false.
Proof.
  unfold host_name.
  destruct (decide (k = "__proto__")) as [->|Hproto].
  { by destruct c as [| | | | | | |[]|props|elems extra]; simpl; try done;
      [destruct (props !! "__proto__")|destruct (extra !! "__proto__")]. }
  rewrite (bool_decide_eq_false_2 (k = "__proto__")) by done. simpl.
  destruct (decide (k = "length")) as [->|Hlength].
  { by destruct c as [| | | | | | |[]| |]. }
  by rewrite (bool_decide_eq_false_2 (k = "length")), andb_false_r by done.
Qed.

(** ** [merge] *)

(** [merge] looks at its first argument through [{ ...a }] only. *)
Lemma merge_spread (a a' b : value) :
  spread a = spread a' → merge a b = merge a' b.
Proof. intros Heq. destruct b; cbn [merge]; by rewrite Heq. Qed.

(** A falsy value has no own enumerable properties, so putting [{}] in
    its place changes nothing for [merge]. *)
Lemma spread_or_empty (x : value) : spread (or_empty x) = spread x.
Proof.
  unfold or_empty. destruct (truthy x) eqn:Hx; [done|].
  apply truthy_false_iff in Hx as [->|[->|[->|[->| ->]]]]; done.
Qed.

Lemma merge_or_empty (x b : value) : merge (or_empty x) b = merge x b.
Proof. apply merge_spread, spread_or_empty. Qed.

Lemma or_empty_falsy (x : value) : truthy x = false → or_empty x = VObj ∅.
Proof. unfold or_empty. by intros ->. Qed.

(** What [result[key] || {}] spreads to: the own entry of [result] at the
    key, if it has one.  What a plain object inherits is a function or a
    prototype of the host, which has no own enumerable property. *)
Lemma spread_current (result : gmap string value) (k : string) :
  spread (or_empty (get (VObj result) k))
  = spread (default (VObj ∅) (result !! k)).
Proof.
  rewrite spread_or_empty. unfold get. simpl.
  destruct (result !! k) as [x|]; [done|]. simpl.
  case_decide; [done|]. by destruct (object_member k).
Qed.

Lemma merge_current (result : gmap string value) (k : string) (bv : value) :
  merge (or_empty (get (VObj result) k)) bv
  = merge (default (VObj ∅) (result !! k)) bv.
Proof. apply merge_spread, spread_current. Qed.

Lemma merge_record (a : value) (b : gmap string value) :
  merge a (VObj b)
  = loop_end (map_fold (merge_step merge (VObj b)) (spread a, Returns ()) b).
Proof. reflexivity. Qed.

Lemma loop_end_running (r : gmap string value) :
  loop_end (r, Returns ()) = Returns (VObj r).
Proof. reflexivity. Qed.

(** The call of line 137 never answers no: the keys that the loop goes
    through are own keys of [b]. *)
Lemma has_own_property_call_true (b : value) (key : string) (p : bool) :
  has_own_property_call b key = Returns p → p = true.
Proof.
  unfold has_own_property_call.
  destruct b; try (by intros [= <-]);
    destruct (get _ _); try done; case_decide; by intros [= <-].
Qed.

(** A Record without an own key [hasOwnProperty] answers the call of
    line 137 with the method of the host. *)
Lemma has_own_property_call_ordinary (b : gmap string value) (key : string) :
  b !! "hasOwnProperty" = None →
  has_own_property_call (VObj b) key = Returns true.
Proof. intros Hb. unfold has_own_property_call, get. simpl. by rewrite Hb. Qed.

(** An assignment to a name other than [__proto__] makes an own entry. *)
Lemma assign_ordinary (props : gmap string value) (k : string) (x : value) :
  k ≠ "__proto__" → assign props k x = Returns (<[k := x]> props).
Proof. intros Hk. unfold assign. rewrite decide_False; [done|]. by intros [? _]. Qed.

(** The loop of [merge] treats every own key of [b] on its own.  When the
    method [hasOwnProperty] is the host's, no key is [__proto__], and the
    recursive calls return, the loop runs to its end: the result at a key
    of [b] is computed from [b]'s value and the value the copy of [a]
    held there, and every other key keeps the copy's value. *)
Lemma merge_fold_lookup (f : value → value → completion) (b : value)
    (g : string → value → value) (r0 m : gmap string value) :
  (∀ key, has_own_property_call b key = Returns true) →
  m !! "__proto__" = None →
  (∀ k bv, m !! k = Some bv → is_record bv = true →
           f (or_empty (get (VObj r0) k)) bv = Returns (g k bv)) →
  ∃ r, map_fold (merge_step f b) (r0, Returns ()) m = (r, Returns ()) ∧
    ∀ k, r !! k = match m !! k with
                  | Some bv => Some (if is_record bv then g k bv else bv)
                  | None => r0 !! k
                  end.
Proof.
  intros Hcall. revert m.
  apply (map_fold_weak_ind
           (λ acc (m : gmap string value),
              m !! "__proto__" = None →
              (∀ k bv, m !! k = Some bv → is_record bv = true →
                       f (or_empty (get (VObj r0) k)) bv = Returns (g k bv)) →
              ∃ r, acc = (r, Returns ()) ∧
                ∀ k, r !! k = match m !! k with
                              | Some bv =>
                                  Some (if is_record bv then g k bv else bv)
                              | None => r0 !! k
                              end)).
  - intros _ _. exists r0. split; [done|]. intros k. by rewrite lookup_empty.
  - intros i x m acc Hi IH Hproto Hf.
    assert (i ≠ "__proto__") as Hne.
    { intros ->. by rewrite lookup_insert_eq in Hproto. }
    destruct IH as (r & -> & Hr).
    { by rewrite lookup_insert_ne in Hproto. }
    { intros k bv Hk. apply Hf. rewrite lookup_insert_ne; [done|].
      intros ->. congruence. }
    assert (get (VObj r) i = get (VObj r0) i) as Hget.
    { unfold get. f_equal. apply lookup_property_obj_ext.
      by rewrite Hr, Hi. }
    exists (<[i := if is_record x then g i x else x]> r). split.
    + unfold merge_step, merge_iteration. rewrite Hcall. simpl.
      destruct (is_record x) eqn:Hx.
      * rewrite Hget, (Hf i x) by (done || apply lookup_insert_eq). simpl.
        by rewrite assign_ordinary.
      * by rewrite assign_ordinary.
    + intros k. destruct (decide (k = i)) as [->|Hki].
      * by rewrite !lookup_insert_eq.
      * by rewrite !lookup_insert_ne, Hr.
Qed.

(** [merge] returns on a Record with ordinary keys. *)
Lemma merge_returns (b : value) :
  ordinary_keys b = true → is_record b = true →
  ∀ a, ∃ r, merge a b = Returns (VObj r).
Proof.
  induction b as [b Hb|b IH] using value_record_ind.
  { intros Hord [props ->]%ordinary_record_inv; [|done]. by destruct (Hb props). }
  intros (Hcall & Hproto & Hall)%ordinary_keys_inv _ a.
  destruct (merge_fold_lookup merge (VObj b)
              (λ k bv, match merge (or_empty (get (VObj (spread a)) k)) bv with
                       | Returns x => x
                       | _ => VUndefined
                       end)
              (spread a) b) as (r & Hr & _); [|done| |].
  - intros key. by apply has_own_property_call_ordinary.
  - intros k bv Hk Hrec.
    destruct (IH k bv Hk (Hall k bv Hk) Hrec
                 (or_empty (get (VObj (spread a)) k))) as [x ->]. done.
  - exists r. by rewrite merge_record, Hr.
Qed.

(** [merge] on a Record [b] with ordinary keys: it returns a Record, which
    holds at a key of [b] the merge of what [a] has there (an empty
    Record for nothing) with [b]'s value when that is a Record, and
    [b]'s value otherwise; the other keys are those of [{ ...a }]. *)
Lemma merge_lookup (a : value) (b : gmap string value) :
  ordinary_keys (VObj b) = true →
  ∃ r, merge a (VObj b) = Returns (VObj r) ∧
    ∀ k, match b !! k with
         | Some bv =>
             if is_record bv
             then ∃ x, merge (default (VObj ∅) (spread a !! k)) bv
                       = Returns (VObj x)
                       ∧ r !! k = Some (VObj x)
             else r !! k = Some bv
         | None => r !! k = spread a !! k
         end.
Proof.
  intros Hord. pose proof Hord as (Hcall & Hproto & Hall)%ordinary_keys_inv.
  destruct (merge_fold_lookup merge (VObj b)
              (λ k bv, match merge (default (VObj ∅) (spread a !! k)) bv with
                       | Returns x => x
                       | _ => VUndefined
                       end)
              (spread a) b) as (r & Hr & Hlookup); [|done| |].
  - intros key. by apply has_own_property_call_ordinary.
  - intros k bv Hk Hrec. rewrite merge_current.
    destruct (merge_returns bv (Hall k bv Hk) Hrec
                (default (VObj ∅) (spread a !! k))) as [x ->]. done.
  - exists r. split; [by rewrite merge_record, Hr|].
    intros k. rewrite Hlookup. destruct (b !! k) as [bv|] eqn:Hk; [|done].
    destruct (is_record bv) eqn:Hrec; [|done].
    destruct (merge_returns bv (Hall k bv Hk) Hrec
                (default (VObj ∅) (spread a !! k))) as [x Hx].
    exists x. by rewrite Hx.
Qed.

(** Merging a Record into itself gives the Record back. *)
Lemma merge_self (v : value) :
  ordinary_keys v = true → is_record v = true → merge v v = Returns v.
Proof.
  induction v as [v Hv|props IH] using value_record_ind.
  { intros Hord [props ->]%ordinary_record_inv; [|done]. by destruct (Hv props). }
  intros Hord _. pose proof Hord as (Hcall & Hproto & Hall)%ordinary_keys_inv.
  destruct (merge_fold_lookup merge (VObj props) (λ _ bv, bv) props props)
    as (r & Hr & Hlookup); [|done| |].
  - intros key. by apply has_own_property_call_ordinary.
  - intros k bv Hk Hrec. rewrite merge_current, Hk. simpl.
    apply (IH k); [done|by eapply Hall|done].
  - rewrite merge_record. simpl. rewrite Hr, loop_end_running. do 2 f_equal.
    apply map_eq. intros k. rewrite Hlookup.
    destruct (props !! k) as [bv|]; [|done]. by destruct (is_record bv).
Qed.

(** Merging a Record into the empty Record gives an equal Record: a deep
    copy. *)
Lemma merge_empty (v : value) :
  ordinary_keys v = true → is_record v = true →
  merge (VObj ∅) v = Returns v.
Proof.
  induction v as [v Hv|props IH] using value_record_ind.
  { intros Hord [props ->]%ordinary_record_inv; [|done]. by destruct (Hv props). }
  intros Hord _. pose proof Hord as (Hcall & Hproto & Hall)%ordinary_keys_inv.
  destruct (merge_fold_lookup merge (VObj props) (λ _ bv, bv) ∅ props)
    as (r & Hr & Hlookup); [|done| |].
  - intros key. by apply has_own_property_call_ordinary.
  - intros k bv Hk Hrec. rewrite merge_current, lookup_empty. simpl.
    apply (IH k); [done|by eapply Hall|done].
  - rewrite merge_record. simpl. rewrite Hr, loop_end_running. do 2 f_equal.
    apply map_eq. intros k. rewrite Hlookup.
    destruct (props !! k) as [bv|]; [|by rewrite lookup_empty].
    by destruct (is_record bv).
Qed.

(** A Record with an own key [hasOwnProperty] that holds no function:
    the first iteration of the loop of [merge] throws. *)
Lemma merge_throws_type_error (a : value) (b : gmap string value) (x : value) :
  b !! "hasOwnProperty" = Some x → typeof_function x = false →
  (∀ k bv, b !! k = Some bv → is_record bv = false ∧ k ≠ "__proto__") →
  merge a (VObj b) = Throws TypeError.
Proof.
  intros Hx Hfun Hflat. rewrite merge_record.
  assert (∀ key, has_own_property_call (VObj b) key = Throws TypeError)
    as Hcall.
  { intros key. unfold has_own_property_call, get. simpl. rewrite Hx. simpl.
    by destruct x. }
  assert (∀ m : gmap string value,
    ∃ r, map_fold (merge_step merge (VObj b)) (spread a, Returns ()) m
         = (r, if decide (m = ∅) then Returns () else Throws TypeError))
    as Hfold.
  { apply (map_fold_weak_ind
             (λ acc (m : gmap string value),
                ∃ r, acc = (r, if decide (m = ∅) then Returns ()
                               else Throws TypeError))).
    - by exists (spread a).
    - intros i y m acc Hi [r ->]. exists r.
      rewrite (decide_False (P := <[i:=y]> m = ∅))
        by apply insert_non_empty.
      unfold merge_step, merge_iteration. rewrite Hcall. simpl.
      by case_decide. }
  destruct (Hfold b) as [r ->]. rewrite decide_False; [done|].
  intros ->. by rewrite lookup_empty in Hx.
Qed.

(** ** [pick] and [omit] *)

(** The loop of [pick] on an object: a listed key that is in the object,
    as an own or an inherited property, becomes an own property of the
    result.  The key [__proto__] is assigned through the setter of the
    result; when what is assigned is [Object.prototype], as for a listed
    [__proto__] on a Record that has no such own key, nothing changes. *)
Lemma pick_fold_lookup (obj : value) (keys : list string) :
  is_container obj = true →
  ("__proto__" ∈ keys →
   lookup_property obj "__proto__" = Some (VHostObject ObjectPrototype)) →
  ∀ acc : gmap string value,
    acc !! "__proto__" = None →
    ∃ object,
      foldl (λ (acc : outcome (gmap string value)) key,
               object ← acc;
               present ← has_property obj key;
               if present : bool
               then assign object key (get obj key)
               else Returns object)
            (Returns acc) keys = Returns object ∧
      object !! "__proto__" = None ∧
      ∀ k, object !! k
           = if decide (k ∈ keys ∧ k ≠ "__proto__")
             then match lookup_property obj k with
                  | Some x => Some x
                  | None => acc !! k
                  end
             else acc !! k.
Proof.
  intros Hobj. induction keys as [|key keys IH]; intros Hproto acc Hacc.
  { exists acc. split; [done|]. split; [done|]. intros k.
    rewrite decide_False; [done|]. by intros [?%elem_of_nil _]. }
  cbn [foldl]. simpl. rewrite has_property_container by done. simpl.
  (* one step of the loop *)
  assert (∃ acc' : gmap string value,
    (if bool_decide (is_Some (lookup_property obj key))
     then assign acc key (get obj key) else Returns acc) = Returns acc' ∧
    acc' !! "__proto__" = None ∧
    ∀ k, acc' !! k
         = if decide (k = key ∧ k ≠ "__proto__")
           then match lookup_property obj k with
                | Some x => Some x
                | None => acc !! k
                end
           else acc !! k) as (acc' & -> & Hacc' & Hstep).
  { destruct (lookup_property obj key) as [x|] eqn:Hx.
    - rewrite bool_decide_eq_true_2 by eauto. unfold get. rewrite Hx. simpl.
      destruct (decide (key = "__proto__")) as [->|Hkey].
      + rewrite Hproto in Hx by apply list_elem_of_here. injection Hx as <-.
        exists acc. unfold assign. rewrite decide_True by done. simpl.
        split; [done|]. split; [done|]. intros k.
        rewrite decide_False; [done|]. by intros [-> ?].
      + exists (<[key := x]> acc). rewrite assign_ordinary by done.
        split; [done|]. split; [by rewrite lookup_insert_ne|]. intros k.
        destruct (decide (k = key)) as [->|Hk].
        * by rewrite decide_True, Hx, lookup_insert_eq.
        * rewrite decide_False by (by intros [? _]).
          by rewrite lookup_insert_ne.
    - rewrite bool_decide_eq_false_2 by (by intros [? ?]).
      exists acc. split; [done|]. split; [done|]. intros k.
      case_decide as Hk; [|done]. destruct Hk as [-> _]. by rewrite Hx. }
  destruct (IH (λ Hin, Hproto (list_elem_of_further _ _ _ Hin)) acc' Hacc')
    as (object & -> & Hobject & Hlookup).
  exists object. split; [done|]. split; [done|]. intros k.
  rewrite Hlookup.
  destruct (decide (k ∈ keys ∧ k ≠ "__proto__")) as [[Hin Hp]|Hrest].
  - rewrite decide_True by (split; [by right|done]).
    destruct (lookup_property obj k) eqn:Hx; [done|].
    rewrite Hstep, Hx. by case_decide.
  - rewrite Hstep.
    destruct (decide (k = key ∧ k ≠ "__proto__")) as [[-> Hp]|Hhere].
    + by rewrite decide_True by (split; [by left|done]).
    + rewrite decide_False; [done|].
      intros [[->|Hin]%elem_of_cons Hp]; [by apply Hhere|by apply Hrest].
Qed.

(** [pick] on an object, by keys: a listed key other than [__proto__]
    holds in the result what the object has or inherits there. *)
Lemma pick_lookup (obj : value) (keys : list string) :
  is_container obj = true →
  ("__proto__" ∈ keys →
   lookup_property obj "__proto__" = Some (VHostObject ObjectPrototype)) →
  ∃ object, pick obj keys = Returns (VObj object) ∧
    ∀ k, object !! k = if decide (k ∈ keys ∧ k ≠ "__proto__")
                       then lookup_property obj k else None.
Proof.
  intros Hobj Hproto.
  destruct (pick_fold_lookup obj keys Hobj Hproto ∅ (lookup_empty _))
    as (object & Hfold & _ & Hlookup).
  exists object. unfold pick. rewrite Hfold. split; [done|].
  intros k. rewrite Hlookup, lookup_empty.
  case_decide; [|done]. by destruct (lookup_property obj k).
Qed.

(** On a Record without an own key [__proto__], every list of keys will
    do. *)
Lemma pick_record_lookup (props : gmap string value) (keys : list string) :
  props !! "__proto__" = None →
  ∃ object, pick (VObj props) keys = Returns (VObj object) ∧
    ∀ k, object !! k = if decide (k ∈ keys ∧ k ≠ "__proto__")
                       then lookup_property (VObj props) k else None.
Proof.
  intros Hproto. apply pick_lookup; [done|]. intros _. simpl.
  by rewrite Hproto.
Qed.

(** The loop of [omit]: a listed key is not in the result, whether
    [delete] removed it or it was not an own property. *)
Lemma omit_fold_lookup (acc : gmap string value)
    (keys : list string) (k : string) :
  foldl (λ object key,
           if bool_decide (is_Some (lookup_property (VObj object) key))
           then delete key object
           else object) acc keys !! k
  = if decide (k ∈ keys) then None else acc !! k.
Proof.
  revert acc. induction keys as [|key keys IH]; intros acc; cbn [foldl].
  { by rewrite decide_False by set_solver. }
  rewrite IH. clear IH.
  destruct (decide (k ∈ keys)).
  { by rewrite decide_True by set_solver. }
  destruct (decide (k = key)) as [->|Hne].
  - rewrite decide_True by set_solver.
    destruct (bool_decide _) eqn:Hin.
    + by rewrite lookup_delete_eq.
    + apply bool_decide_eq_false in Hin. simpl in Hin.
      destruct (acc !! key); [|done]. by destruct Hin.
  - rewrite decide_False by (rewrite not_elem_of_cons; auto).
    destruct (bool_decide _); [|done]. by rewrite lookup_delete_ne.
Qed.

Lemma omit_lookup (candidate : value) (keys : list string) :
  ∃ object, omit candidate keys = VObj object ∧
    ∀ k, object !! k = if decide (k ∈ keys) then None else spread candidate !! k.
Proof.
  eexists. split; [reflexivity|]. intros k. by rewrite omit_fold_lookup.
Qed.

(** ** The path resolver *)

Lemma split_dot_nonempty (s : string) : split_dot s ≠ [].
Proof.
  destruct s as [|c s]; [done|]. simpl.
  case_decide; [done|]. by destruct (split_dot s).
Qed.

Lemma split_dot_cons_dot (s : string) :
  split_dot (String "." s) = "" :: split_dot s.
Proof. reflexivity. Qed.

Lemma split_dot_cons_other (c : ascii) (s : string) :
  c ≠ "."%char →
  ∃ seg segs, split_dot s = seg :: segs ∧
    split_dot (String c s) = String c seg :: segs.
Proof.
  intros Hc. simpl. rewrite decide_False by done.
  destruct (split_dot s) as [|seg segs] eqn:Hs; [by apply split_dot_nonempty in Hs|].
  eauto.
Qed.

(** A dot between two strings separates their segments. *)
Lemma split_dot_app (s1 s2 : string) :
  split_dot (s1 +:+ String "." s2) = split_dot s1 ++ split_dot s2.
Proof.
  induction s1 as [|c s1 IH]; [done|].
  change (String c s1 +:+ String "." s2) with (String c (s1 +:+ String "." s2)).
  destruct (decide (c = "."%char)) as [->|Hc].
  - rewrite !split_dot_cons_dot, IH. done.
  - destruct (split_dot_cons_other c s1 Hc) as (seg & segs & Hs & ->).
    simpl. rewrite decide_False by done. rewrite IH, Hs. done.
Qed.

Lemma split_dot_dot_free (seg : string) :
  dot_free seg = true → split_dot seg = [seg].
Proof.
  induction seg as [|c seg IH]; [done|]. simpl.
  intros [Hc Hseg]%andb_true_iff. apply negb_true_iff, bool_decide_eq_false in Hc.
  rewrite decide_False by done. by rewrite IH.
Qed.

(** Splitting is the inverse of joining segments that contain no dot,
    empty segments included. *)
Lemma split_dot_join (segments : list string) :
  segments ≠ [] → forallb dot_free segments = true →
  split_dot (join_dot segments) = segments.
Proof.
  induction segments as [|seg rest IH]; [done|]. intros _.
  cbn [forallb]. intros [Hseg Hrest]%andb_true_iff.
  destruct rest as [|seg' rest]; [by apply split_dot_dot_free|].
  change (join_dot (seg :: seg' :: rest))
    with (seg +:+ String "." (join_dot (seg' :: rest))).
  rewrite split_dot_app, IH by done. by rewrite split_dot_dot_free.
Qed.

(** ** [set] *)

Lemma write_index_lookup (elems : list (option value)) (i : nat) (x : value) :
  write_index elems i x !! i = Some (Some x).
Proof.
  unfold write_index. case_decide as Hi.
  - by apply list_lookup_insert_eq.
  - rewrite lookup_app_r by lia. rewrite lookup_app_r; rewrite length_replicate; [|lia].
    by rewrite Nat.sub_diag.
Qed.

(** The copy that [set] makes of a container is a plain object or an
    array without named properties, after the kind of the container. *)
Lemma shallow_copy_inv (c : value) :
  is_container c = true →
  (∃ props, shallow_copy c = VObj props ∧ is_array c = false) ∨
  (∃ elems, shallow_copy c = VArr elems ∅ ∧ is_array c = true).
Proof.
  intros Hc.
  apply is_container_inv in Hc as [[props ->]|[(elems & extra & ->)|[o ->]]].
  - left. by exists props.
  - right. by eexists.
  - destruct o; [left; by exists ∅|right; by exists []].
Qed.

Lemma shallow_copy_container (c : value) :
  is_container c = true → is_container (shallow_copy c) = true.
Proof. by intros [(? & -> & _)|(? & -> & _)]%shallow_copy_inv. Qed.

Lemma shallow_copy_is_array (c : value) :
  is_container c = true → is_array (shallow_copy c) = is_array c.
Proof. by intros [(? & -> & ->)|(? & -> & ->)]%shallow_copy_inv. Qed.

(** An assignment that returns gives a container of the same kind. *)
Lemma put_kind (u : value) (k : string) (x u' : value) :
  put u k x = Returns u' →
  is_container u' = true ∧ is_array u' = is_array u.
Proof.
  destruct u as [| | | | | | | |props|elems extra]; simpl; try done.
  - unfold assign. case_decide; [destruct (keeps_prototype _ _)|];
      simpl; by intros [= <-].
  - destruct (array_index k); [by intros [= <-]|].
    case_decide.
    { destruct (set_length elems x); simpl; by intros [= <-]. }
    case_decide; [destruct (keeps_prototype _ _)|]; by intros [= <-].
Qed.

(** The one error of an assignment is the [RangeError] of the host. *)
Lemma put_throws (u : value) (k : string) (x : value) (e : error) :
  put u k x = Throws e → e = RangeError.
Proof.
  destruct u as [| | | | | | | |props|elems extra]; simpl; try done.
  - unfold assign. by case_decide; [destruct (keeps_prototype _ _)|].
  - destruct (array_index k); [done|]. case_decide.
    { destruct x; simpl; try done; try case_decide; simpl; congruence. }
    by case_decide; [destruct (keeps_prototype _ _)|].
Qed.

(** An assignment on the copy of a container, to a name that the host
    does not handle itself, returns, and the name is then an own
    property that holds what was assigned. *)
Lemma put_copy_ordinary (c : value) (k : string) (x : value) :
  is_container c = true → host_name c k = false →
  ∃ u, put (shallow_copy c) k x = Returns u ∧
       lookup_property u k = Some x.
Proof.
  unfold host_name. rewrite orb_false_iff, bool_decide_eq_false.
  intros Hc [Hproto Hlength].
  destruct (shallow_copy_inv c Hc) as [(props & -> & _)|(elems & -> & Harr)].
  - exists (VObj (<[k := x]> props)). simpl. rewrite assign_ordinary by done.
    by rewrite lookup_insert_eq.
  - rewrite Harr in Hlength. simpl in Hlength.
    apply bool_decide_eq_false in Hlength. simpl.
    destruct (array_index k) as [i|] eqn:Hi.
    + eexists. split; [done|]. simpl. by rewrite Hi, write_index_lookup.
    + rewrite decide_False by done. rewrite decide_False by (by intros [? _]).
      eexists. split; [done|]. simpl.
      by rewrite Hi, decide_False, lookup_insert_eq.
Qed.

(** What was just assigned is what is read. *)
Lemma get_put (c : value) (k : string) (x : value) :
  is_container c = true → host_name c k = false →
  ∃ u, put (shallow_copy c) k x = Returns u ∧
       is_container u = true ∧
       has_property u k = Returns true ∧ get u k = x.
Proof.
  intros Hc Hk. destruct (put_copy_ordinary c k x Hc Hk) as (u & Hput & Hu).
  exists u. destruct (put_kind _ _ _ _ Hput) as [Hcu _].
  split; [done|]. split; [done|].
  rewrite has_property_container by done. unfold get. rewrite Hu.
  split; [|done]. by rewrite bool_decide_eq_true_2.
Qed.

(** The [length] of an array is a number: no container. *)
Lemma get_length_array (c : value) :
  is_array c = true → is_container (get c "length") = false.
Proof. by destruct c as [| | | | | | |[]| |]. Qed.

Lemma recursor_container (current : value) (k : string)
    (rest : list string) (v : value) :
  is_container current = true →
  recursor current (k :: rest) v
  = recursor (get current k) rest v ≫= put (shallow_copy current) k.
Proof. intros Hc. simpl. by rewrite container_guard, Hc. Qed.

Lemma recursor_not_container (current : value) (k : string)
    (rest : list string) (v : value) :
  is_container current = false →
  recursor current (k :: rest) v = Throws InvalidIntermediateError.
Proof. intros Hc. simpl. by rewrite container_guard, Hc. Qed.

Lemma read_path_app (root : value) (ks1 ks2 : list string) :
  read_path root (ks1 ++ ks2) = read_path root ks1 ≫= λ x, read_path x ks2.
Proof.
  revert root. induction ks1 as [|k ks1 IH]; intros root; simpl; [done|].
  destruct (is_container root); [apply IH|done].
Qed.

(** [recursor] throws its own error or lets the [RangeError] of an
    assignment through. *)
Lemma recursor_throws (current : value) (keys : list string) (v : value)
    (e : error) :
  recursor current keys v = Throws e →
  e = InvalidIntermediateError ∨ e = RangeError.
Proof.
  revert current. induction keys as [|k rest IH]; intros current; [done|].
  destruct (is_container current) eqn:Hc.
  - rewrite recursor_container by done.
    destruct (recursor (get current k) rest v) eqn:Hrec; simpl; [| |done].
    + intros ->%put_throws. by right.
    + intros [= <-]. by eapply IH.
  - rewrite recursor_not_container by done. intros [= <-]. by left.
Qed.

(** [recursor] throws [InvalidIntermediateError] exactly when a value it
    reads from is not a container. *)
Lemma recursor_throws_iff (current : value) (keys : list string) (v : value) :
  recursor current keys v = Throws InvalidIntermediateError ↔
  ∃ x, reached current keys x ∧ is_container x = false.
Proof.
  revert current. induction keys as [|k rest IH]; intros current.
  { split; [done|]. intros (x & (ks & k & rest & Hks & _) & _).
    by destruct ks. }
  destruct (is_container current) eqn:Hc.
  - rewrite recursor_container by done. split.
    + destruct (recursor (get current k) rest v) eqn:Hrec; simpl; [| |done].
      { by intros ?%put_throws. }
      intros [= ->].
      apply IH in Hrec as (x & (ks & k' & rest' & -> & Hread) & Hx).
      exists x. split; [|done]. exists (k :: ks), k', rest'.
      split; [done|]. simpl. by rewrite Hc.
    + intros (x & (ks & k' & rest' & Hks & Hread) & Hx).
      destruct ks as [|k0 ks]; simpl in *.
      { simplify_eq. congruence. }
      rewrite Hc in Hread. injection Hks as <- ->.
      assert (recursor (get current k) (ks ++ k' :: rest') v
              = Throws InvalidIntermediateError) as ->; [|done].
      apply IH. exists x. split; [|done]. by exists ks, k', rest'.
  - rewrite recursor_not_container by done. split; [|done]. intros _.
    exists current. split; [|done]. by exists [], k, rest.
Qed.

Lemma ordinary_path_tail (k : string) (rest : list string) :
  ordinary_path (k :: rest) → ordinary_path rest.
Proof.
  intros [Hproto Hlast]. split.
  - by apply not_elem_of_cons in Hproto as [_ ?].
  - destruct rest as [|k' rest]; [done|]. by rewrite last_cons_cons in Hlast.
Qed.

(** On an ordinary path, a segment that the traversal gets past is not
    one the host handles: the [length] of an array, not being the last
    segment, would stop the traversal. *)
Lemma ordinary_path_head (current : value) (k : string) (rest : list string) :
  ordinary_path (k :: rest) →
  (rest ≠ [] → is_container (get current k) = true) →
  host_name current k = false.
Proof.
  intros [Hproto Hlast] Hnext. unfold host_name.
  apply not_elem_of_cons in Hproto as [Hk _].
  rewrite (bool_decide_eq_false_2 (k = "__proto__")) by done. simpl.
  destruct (is_array current) eqn:Harr; [|done]. simpl.
  apply bool_decide_eq_false. intros ->.
  destruct rest as [|k' rest]; [done|].
  rewrite get_length_array in Hnext by done. by discriminate Hnext.
Qed.

(** On an ordinary path [recursor] returns exactly when every value it
    reads from is a container. *)
Lemma recursor_returns_iff (current : value) (keys : list string) (v : value) :
  ordinary_path keys →
  (∃ r, recursor current keys v = Returns r) ↔
  ∀ x, reached current keys x → is_container x = true.
Proof.
  intros Hpath. split.
  - intros [r Hr] x Hx. destruct (is_container x) eqn:Hc; [done|].
    assert (recursor current keys v = Throws InvalidIntermediateError)
      by (apply recursor_throws_iff; eauto).
    congruence.
  - revert current Hpath. induction keys as [|k rest IH]; intros current Hpath Hall.
    { by exists v. }
    assert (is_container current = true) as Hc.
    { apply Hall. by exists [], k, rest. }
    assert (∀ x, reached (get current k) rest x → is_container x = true)
      as Hall'.
    { intros x (ks & k' & rest' & -> & Hread). apply Hall.
      exists (k :: ks), k', rest'. split; [done|]. simpl. by rewrite Hc. }
    destruct (IH (get current k) (ordinary_path_tail _ _ Hpath) Hall')
      as [x Hx].
    rewrite recursor_container, Hx by done. simpl.
    destruct (put_copy_ordinary current k x Hc) as (u & -> & _); [|by exists u].
    apply (ordinary_path_head current k rest Hpath).
    intros Hrest. destruct rest as [|k' rest]; [done|].
    apply Hall'. by exists [], k', rest.
Qed.

(** Reading back along the segments of an ordinary path gives the value
    that was set. *)
Lemma recursor_round_trip (current : value) (keys : list string)
    (v r : value) :
  ordinary_path keys →
  recursor current keys v = Returns r → read_path r keys = Some v.
Proof.
  revert current r. induction keys as [|k rest IH]; intros current r Hpath.
  { by intros [= ->]. }
  destruct (is_container current) eqn:Hc;
    [|by rewrite recursor_not_container].
  rewrite recursor_container by done.
  destruct (recursor (get current k) rest v) as [x| |] eqn:Hrec; [|done..].
  simpl. intros Hput.
  destruct (get_put current k x Hc) as (u & Hu & Hcu & _ & Hget).
  { apply (ordinary_path_head current k rest Hpath). intros Hrest.
    destruct rest as [|k' rest]; [done|].
    destruct (is_container (get current k)) eqn:Hnext; [done|].
    by rewrite recursor_not_container in Hrec. }
  rewrite Hu in Hput. injection Hput as <-. simpl. rewrite Hcu, Hget.
  eapply IH; [|done]. by eapply ordinary_path_tail.
Qed.

Lemma set_nonempty (p : string) (root v : value) :
  p ≠ "" → set p root v = recursor root (split_dot p) v.
Proof.
  intros Hp. unfold set.
  destruct (String.eqb p "") eqn:Heq; [|done]. by apply String.eqb_eq in Heq.
Qed.

Lemma set_invalid_path_iff (p : string) (root v : value) :
  set p root v = Throws InvalidPathError ↔ p = "".
Proof.
  split; [|by intros ->].
  destruct (decide (p = "")) as [|Hp]; [done|].
  rewrite set_nonempty by done. by intros [?|?]%recursor_throws.
Qed.

(** ** The store model *)

Section store_frame.
Implicit Types (h : gmap Store.loc Store.hobject) (x : Store.hvalue).

(** A new object leaves every object of the store in place. *)
Lemma alloc_frame h o : h ⊆ (Store.alloc h o).1.
Proof. apply insert_subseteq, not_elem_of_dom, is_fresh. Qed.

Lemma alloc_fresh h o : h !! (Store.alloc h o).2 = None.
Proof. apply not_elem_of_dom, is_fresh. Qed.

Lemma alloc_lookup h o : (Store.alloc h o).1 !! (Store.alloc h o).2 = Some o.
Proof. apply lookup_insert_eq. Qed.

(** A write into an object that the store [h] did not hold leaves every
    object of [h] as it was. *)
Lemma store_frame h h' l key x :
  h ⊆ h' → h !! l = None → h ⊆ (Store.store h' l key x).1.
Proof.
  intros Hsub Hl. unfold Store.store.
  destruct (Store.o_put _ _ _); simpl; [|done..].
  apply map_subseteq_spec. intros l' o' Hl'.
  rewrite lookup_insert_ne by congruence. by eapply lookup_weaken.
Qed.

(** A write that returns has put the new content at the location and
    left the rest of the store. *)
Lemma store_returns h l key x h' :
  Store.store h l key x = (h', Returns ()) →
  ∃ o, Store.o_put (Store.deref h l) key x = Returns o ∧ h' = <[l := o]> h.
Proof.
  unfold Store.store. destruct (Store.o_put _ _ _) as [o| |]; [|done..].
  intros [= <-]. by exists o.
Qed.

(** A write that does not return leaves the store. *)
Lemma store_fails h l key x h' s :
  Store.store h l key x = (h', s) → s ≠ Returns () → h' = h.
Proof.
  unfold Store.store. destruct (Store.o_put _ _ _); intros [= <- <-]; done.
Qed.

Lemma recursor_frame keys h current value :
  h ⊆ (Store.recursor h current keys value).1.
Proof.
  revert h current. induction keys as [|k rest IH]; intros h current; [done|].
  cbn [Store.recursor]. destruct (negb _); [done|].
  set (c := Store.h_shallow_copy h current).
  pose proof (alloc_frame h c) as Hsub.
  pose proof (alloc_fresh h c) as Hfresh.
  destruct (Store.alloc h c) as [h1 updated]. simpl in Hsub, Hfresh.
  specialize (IH h1 (Store.h_get h current k)).
  destruct (Store.recursor h1 (Store.h_get h current k) rest value)
    as [h2 [x|e|]]; simpl in *; [|by etrans..].
  pose proof (store_frame h h2 updated k x (transitivity Hsub IH) Hfresh).
  by destruct (Store.store h2 updated k x).
Qed.

Lemma foldl_invariant {A B} (P : A → Prop) (f : A → B → A)
    (l : list B) (a : A) :
  P a → (∀ a b, P a → P (f a b)) → P (foldl f a l).
Proof.
  intros Ha Hstep. revert a Ha.
  induction l as [|b l IH]; intros a Ha; simpl; auto.
Qed.

Lemma foldr_invariant {A B} (P : A → Prop) (f : B → A → A)
    (l : list B) (a : A) :
  P a → (∀ a b, P a → P (f b a)) → P (foldr f a l).
Proof. intros Ha Hstep. induction l as [|b l IH]; simpl; auto. Qed.

Lemma merge_step_frame merge result b h acc key bv :
  (∀ h' a' b', h' ⊆ (merge h' a' b').1) →
  h !! result = None →
  h ⊆ acc.1 → h ⊆ (Store.merge_step merge result b key bv acc).1.
Proof.
  intros Hmerge Hresult. destruct acc as [hi so_far]. cbn [fst].
  intros Hsub.
  (* the store of an iteration holds the store it started from *)
  assert (h ⊆ (Store.merge_iteration merge result b key bv hi).1)
    as Hiteration.
  { unfold Store.merge_iteration.
    destruct (Store.h_has_own_property_call hi b key) as [[]| |]; try done.
    destruct (Store.h_is_record hi bv).
    - set (cur := Store.h_get hi (Store.HRef result) key).
      assert (∃ hj arg,
        (if Store.h_truthy cur then (hi, cur)
         else let '(hj, e) := Store.alloc hi (Store.HObj ∅) in
              (hj, Store.HRef e)) = (hj, arg) ∧ hi ⊆ hj)
        as (hj & arg & -> & Hij).
      { destruct (Store.h_truthy cur); [by eauto|].
        pose proof (alloc_frame hi (Store.HObj ∅)).
        destruct (Store.alloc hi (Store.HObj ∅)); eauto. }
      specialize (Hmerge hj arg bv).
      destruct (merge hj arg bv) as [hk [[x|e|]|]]; cbn [fst] in *;
        try (by do 2 etrans).
      pose proof (store_frame h hk result key x) as Hstore.
      destruct (Store.store hk result key x). apply Hstore; [|done].
      by do 2 etrans.
    - pose proof (store_frame h hi result key bv Hsub Hresult).
      by destruct (Store.store hi result key bv). }
  unfold Store.merge_step.
  destruct so_far as [[[]|e|]|]; try done.
  by destruct (_.2) as [[]|].
Qed.

Lemma merge_loop_frame merge h a b :
  (∀ h' a' b', h' ⊆ (merge h' a' b').1) →
  h ⊆ (Store.merge_loop merge h a b).1.
Proof.
  intros Hmerge. unfold Store.merge_loop.
  set (o := Store.HObj (Store.h_spread h a)).
  pose proof (alloc_frame h o) as Hsub.
  pose proof (alloc_fresh h o) as Hfresh.
  destruct (Store.alloc h o) as [h1 result]. simpl in Hsub, Hfresh.
  match goal with
  | |- context [foldr ?f ?acc ?l] =>
      assert (h ⊆ (foldr f acc l).1) as Hfold
  end.
  { apply (foldr_invariant (λ acc, h ⊆ acc.1)); [done|].
    intros acc entry Hacc. by apply merge_step_frame. }
  by destruct (foldr _ _ _).
Qed.

Lemma merge_frame fuel h a b : h ⊆ (Store.merge fuel h a b).1.
Proof.
  revert h a b. induction fuel as [|fuel IH]; intros h a b;
    destruct b; cbn [Store.merge]; try done;
    by apply merge_loop_frame.
Qed.

Lemma mapM_weaken {A B} (f g : A → option B) (l : list A) (k : list B) :
  (∀ a c, f a = Some c → g a = Some c) →
  mapM f l = Some k → mapM g l = Some k.
Proof.
  intros Hfg. rewrite !mapM_Some. intros Hall.
  eapply Forall2_impl; [exact Hall|]. auto.
Qed.

Lemma snapshot_props_weaken (f g : Store.hvalue → option value) m r :
  (∀ x y, f x = Some y → g x = Some y) →
  Store.snapshot_props f m = Some r → Store.snapshot_props g m = Some r.
Proof.
  intros Hfg. unfold Store.snapshot_props.
  case_decide as Hall; [|done]. intros [= <-].
  rewrite decide_True.
  - f_equal. apply map_eq. intros k. rewrite !lookup_omap.
    destruct (m !! k) as [y|] eqn:Hk; [|done]. simpl.
    destruct (Hall k y Hk) as [v Hv]. by rewrite Hv, (Hfg _ _ Hv).
  - intros k y Hk. destruct (Hall k y Hk) as [v Hv]. by rewrite (Hfg _ _ Hv).
Qed.

Lemma snapshot_elems_weaken (f g : Store.hvalue → option value) elems r :
  (∀ x y, f x = Some y → g x = Some y) →
  Store.snapshot_elems f elems = Some r →
  Store.snapshot_elems g elems = Some r.
Proof.
  intros Hfg. apply mapM_weaken. intros [y|] c; [|done].
  intros (v & Hv & ->)%fmap_Some. by rewrite (Hfg _ _ Hv).
Qed.

Lemma snapshot_object_weaken (f g : Store.hvalue → option value) o r :
  (∀ x y, f x = Some y → g x = Some y) →
  Store.snapshot_object f o = Some r → Store.snapshot_object g o = Some r.
Proof.
  intros Hfg. destruct o as [props|elems extra]; simpl.
  - intros (m & Hm & ->)%fmap_Some.
    by rewrite (snapshot_props_weaken _ _ _ _ Hfg Hm).
  - intros (es & Hes & (m & Hm & ->)%fmap_Some)%bind_Some.
    rewrite (snapshot_elems_weaken _ _ _ _ Hfg Hes). simpl.
    by rewrite (snapshot_props_weaken _ _ _ _ Hfg Hm).
Qed.

(** A snapshot taken in a store is the snapshot taken in any store that
    still holds the same objects. *)
Lemma snapshot_weaken fuel h h' x s :
  h ⊆ h' → Store.snapshot fuel h x = Some s →
  Store.snapshot fuel h' x = Some s.
Proof.
  intros Hsub. revert x s.
  induction fuel as [|fuel IH]; intros x s; destruct x; try done.
  cbn [Store.snapshot].
  intros (o & Hl & Ho)%bind_Some.
  rewrite (lookup_weaken _ _ _ _ Hl Hsub). simpl.
  by apply (snapshot_object_weaken _ _ _ _ IH).
Qed.

(** Reading deeper gives the same snapshot. *)
Lemma snapshot_S fuel h x s :
  Store.snapshot fuel h x = Some s → Store.snapshot (S fuel) h x = Some s.
Proof.
  revert x s. induction fuel as [|fuel IH]; intros x s; destruct x; try done.
  cbn [Store.snapshot]. intros (o & Hl & Ho)%bind_Some.
  rewrite Hl. simpl. by apply (snapshot_object_weaken _ _ _ _ IH).
Qed.

Lemma snapshot_le fuel fuel' h x s :
  fuel ≤ fuel' →
  Store.snapshot fuel h x = Some s → Store.snapshot fuel' h x = Some s.
Proof. induction 1; auto using snapshot_S. Qed.
End store_frame.

(** ** The store model computes what the pure model computes *)

Lemma snapshot_direct fuel (h : gmap Store.loc Store.hobject) y v :
  Store.direct y = Some v → Store.snapshot fuel h y = Some v.
Proof. by destruct y, fuel. Qed.

Lemma snapshot_undefined fuel (h : gmap Store.loc Store.hobject) :
  Store.snapshot fuel h Store.HUndefined = Some VUndefined.
Proof. by apply snapshot_direct. Qed.

Lemma snapshot_ref_inv fuel (h : gmap Store.loc Store.hobject) l v :
  Store.snapshot fuel h (Store.HRef l) = Some v →
  ∃ fuel' o, fuel = S fuel' ∧ h !! l = Some o ∧
             Store.snapshot_object (Store.snapshot fuel' h) o = Some v.
Proof.
  destruct fuel as [|fuel']; [done|]. cbn [Store.snapshot].
  intros (o & Hl & Ho)%bind_Some. eauto.
Qed.

Lemma snapshot_object_plain read o cv :
  Store.snapshot_object read o = Some cv → is_plain cv = true.
Proof.
  destruct o as [props|elems extra]; simpl.
  - by intros (m & _ & ->)%fmap_Some.
  - by intros (es & _ & (m & _ & ->)%fmap_Some)%bind_Some.
Qed.

Lemma snapshot_ref_plain fuel (h : gmap Store.loc Store.hobject) l v :
  Store.snapshot fuel h (Store.HRef l) = Some v → is_plain v = true.
Proof.
  intros (fuel' & o & _ & _ & Ho)%snapshot_ref_inv.
  by eapply snapshot_object_plain.
Qed.

Section store_refinement.
Implicit Types (h : gmap Store.loc Store.hobject).

(** A way to read the values of a store: what is no reference reads as
    itself, and a reference reads as a plain object or an array. *)
Context (read : Store.hvalue → option value).
Hypothesis read_direct : ∀ y v, Store.direct y = Some v → read y = Some v.
Hypothesis read_ref : ∀ l v, read (Store.HRef l) = Some v → is_plain v = true.

Lemma read_inv y v :
  read y = Some v →
  Store.direct y = Some v ∨ (∃ l, y = Store.HRef l) ∧ is_plain v = true.
Proof.
  intros Hy. destruct (Store.direct y) as [d|] eqn:Hd.
  - left. rewrite (read_direct _ _ Hd) in Hy. by rewrite Hy in *.
  - right. destruct y; try done. split; [by eauto|]. by eapply read_ref.
Qed.

Lemma read_truthy y v : read y = Some v → Store.h_truthy y = truthy v.
Proof.
  intros [Hd|[[l ->] Hv]]%read_inv.
  - by destruct y; simplify_eq/=.
  - by destruct v.
Qed.

Lemma read_keeps_prototype standard y v :
  read y = Some v →
  Store.h_keeps_prototype standard y = keeps_prototype standard v.
Proof.
  intros [Hd|[[l ->] Hv]]%read_inv.
  - by destruct y; simplify_eq/=.
  - by destruct v.
Qed.

Lemma read_is_container y v :
  read y = Some v → Store.h_is_container y = is_container v.
Proof.
  intros [Hd|[[l ->] Hv]]%read_inv.
  - by destruct y; simplify_eq/=.
  - by destruct v.
Qed.

Lemma snapshot_props_lookup m r k :
  Store.snapshot_props read m = Some r →
  Store.reads_option read (m !! k) (r !! k).
Proof.
  unfold Store.snapshot_props. case_decide as Hall; [|done].
  intros [= <-]. rewrite lookup_omap.
  destruct (m !! k) as [y|] eqn:Hk; [|done]. simpl.
  destruct (Hall k y Hk) as [v Hv]. by rewrite Hv.
Qed.

Lemma snapshot_props_insert m r k y v :
  Store.snapshot_props read m = Some r → read y = Some v →
  Store.snapshot_props read (<[k := y]> m) = Some (<[k := v]> r).
Proof.
  unfold Store.snapshot_props. case_decide as Hall; [|done].
  intros [= <-] Hy. rewrite decide_True by (apply map_Forall_insert_2; eauto).
  f_equal. by apply omap_insert_Some.
Qed.

Lemma snapshot_props_empty : Store.snapshot_props read ∅ = Some ∅.
Proof.
  unfold Store.snapshot_props.
  rewrite decide_True by apply map_Forall_empty. by rewrite omap_empty.
Qed.

Lemma snapshot_elems_lookup elems es i :
  Store.snapshot_elems read elems = Some es →
  Store.reads_option read (mjoin (elems !! i)) (mjoin (es !! i)).
Proof.
  intros Hall%mapM_Some. destruct (elems !! i) as [e|] eqn:He.
  - destruct (Forall2_lookup_l _ _ _ _ _ Hall He) as (c & -> & Hc).
    destruct e as [y|]; simpl in *.
    + by apply fmap_Some in Hc as (v & -> & ->).
    + by injection Hc as <-.
  - rewrite (lookup_ge_None_2 es i); [done|].
    rewrite <- (Forall2_length _ _ _ Hall). by apply lookup_ge_None.
Qed.

Lemma snapshot_elems_length elems es :
  Store.snapshot_elems read elems = Some es → length elems = length es.
Proof. intros Hall%mapM_Some. by eapply Forall2_length. Qed.

Lemma snapshot_elems_copy elems es :
  Store.snapshot_elems read elems = Some es →
  Store.snapshot_elems read ((λ e, Some (default Store.HUndefined e)) <$> elems)
  = Some ((λ e, Some (default VUndefined e)) <$> es).
Proof.
  intros Hall%mapM_Some. apply mapM_Some, Forall2_fmap.
  eapply Forall2_impl; [exact Hall|]. intros [y|] c; simpl.
  - intros (v & Hv & ->)%fmap_Some. simpl. by rewrite Hv.
  - intros [= <-]. simpl. by rewrite (read_direct Store.HUndefined VUndefined).
Qed.

Lemma snapshot_elems_write elems es i y v :
  Store.snapshot_elems read elems = Some es → read y = Some v →
  Store.snapshot_elems read (Store.o_write_index elems i y)
  = Some (write_index es i v).
Proof.
  intros Hall%mapM_Some Hy. apply mapM_Some.
  unfold Store.o_write_index, write_index.
  rewrite <- (Forall2_length _ _ _ Hall).
  assert (Hnew : (Some <$> read y) = Some (Some v)) by by rewrite Hy.
  case_decide.
  - by apply Forall2_insert.
  - apply Forall2_app; [done|]. apply Forall2_app.
    + by apply Forall2_replicate.
    + by repeat constructor.
Qed.

Lemma snapshot_elems_resize elems es n :
  Store.snapshot_elems read elems = Some es →
  Store.snapshot_elems read (resize n None elems) = Some (resize n None es).
Proof. intros Hall%mapM_Some. apply mapM_Some. by apply Forall2_resize. Qed.

(** Setting the length of an array ends in the store as it ends on the
    value the array reads as. *)
Lemma snapshot_set_length elems es y v :
  Store.snapshot_elems read elems = Some es → read y = Some v →
  outcome_rel (λ elems' es', Store.snapshot_elems read elems' = Some es')
              (Store.o_set_length elems y) (set_length es v).
Proof.
  intros Hes [Hd|[[l ->] Hv]]%read_inv.
  - destruct y; simplify_eq/=; try done;
      try case_decide; simpl; try done; by apply snapshot_elems_resize.
  - by destruct v.
Qed.

Lemma snapshot_object_container o cv :
  Store.snapshot_object read o = Some cv → is_container cv = true.
Proof. intros Ho%snapshot_object_plain. by destruct cv. Qed.

Lemma snapshot_object_is_array o cv :
  Store.snapshot_object read o = Some cv →
  Store.o_is_array o = is_array cv.
Proof.
  destruct o as [props|elems extra]; simpl.
  - by intros (m & _ & ->)%fmap_Some.
  - by intros (es & _ & (m & _ & ->)%fmap_Some)%bind_Some.
Qed.

(** A property of an object of the store, own or inherited, reads as the
    property of the value the object reads as. *)
Lemma snapshot_object_lookup o cv k :
  Store.snapshot_object read o = Some cv →
  Store.reads_option read (Store.o_lookup_property o k) (lookup_property cv k).
Proof.
  destruct o as [props|elems extra]; simpl.
  - intros (m & Hm & ->)%fmap_Some. simpl.
    pose proof (snapshot_props_lookup _ _ k Hm) as Hk.
    destruct (props !! k), (m !! k); try done.
    case_decide; [by apply read_direct|].
    destruct (object_member k); [by apply read_direct|done].
  - intros (es & Hes & (m & Hm & ->)%fmap_Some)%bind_Some. simpl.
    destruct (array_index k); [by apply snapshot_elems_lookup|].
    case_decide.
    { rewrite (snapshot_elems_length _ _ Hes). by apply read_direct. }
    pose proof (snapshot_props_lookup _ _ k Hm) as Hk.
    destruct (extra !! k), (m !! k); try done.
    case_decide; [by apply read_direct|].
    destruct (array_member k); [by apply read_direct|done].
Qed.

Lemma reads_option_default y v :
  Store.reads_option read y v →
  read (default Store.HUndefined y) = Some (default VUndefined v).
Proof. destruct y, v; try done. intros _. by apply read_direct. Qed.

Lemma reads_option_is_Some y v :
  Store.reads_option read y v →
  bool_decide (is_Some y) = bool_decide (is_Some v).
Proof.
  by destruct y, v.
Qed.

Lemma snapshot_object_get o cv k :
  Store.snapshot_object read o = Some cv →
  read (Store.o_get o k) = Some (get cv k).
Proof. intros Ho. by apply reads_option_default, snapshot_object_lookup. Qed.

Lemma snapshot_object_copy o cv :
  Store.snapshot_object read o = Some cv →
  Store.snapshot_object read (Store.o_shallow_copy o) = Some (shallow_copy cv).
Proof.
  destruct o as [props|elems extra]; simpl.
  - intros (m & Hm & ->)%fmap_Some. by rewrite Hm.
  - intros (es & Hes & (m & Hm & ->)%fmap_Some)%bind_Some.
    unfold Store.o_shallow_copy, shallow_copy. simpl.
    rewrite (snapshot_elems_copy _ _ Hes). simpl.
    by rewrite snapshot_props_empty.
Qed.

(** An assignment ends in the store as it ends on the values that the
    object and what is assigned read as. *)
Lemma snapshot_object_put o cv k y v :
  Store.snapshot_object read o = Some cv → read y = Some v →
  outcome_rel (λ o' cv', Store.snapshot_object read o' = Some cv')
              (Store.o_put o k y) (put cv k v).
Proof.
  destruct o as [props|elems extra]; simpl.
  - intros (m & Hm & ->)%fmap_Some Hy. simpl. unfold assign.
    pose proof (snapshot_props_lookup _ _ k Hm) as Hk.
    assert (props !! k = None ↔ m !! k = None) as Habsent
      by (destruct (props !! k), (m !! k); done).
    destruct (decide (k = "__proto__" ∧ props !! k = None)) as [Hp|Hp].
    + rewrite decide_True by (by rewrite <- Habsent).
      rewrite (read_keeps_prototype _ _ _ Hy).
      destruct (keeps_prototype _ _); simpl; [|done]. by rewrite Hm.
    + rewrite decide_False by (by rewrite <- Habsent). simpl.
      by rewrite (snapshot_props_insert _ _ _ _ _ Hm Hy).
  - intros (es & Hes & (m & Hm & ->)%fmap_Some)%bind_Some Hy. simpl.
    destruct (array_index k); simpl.
    { rewrite (snapshot_elems_write _ _ _ _ _ Hes Hy). simpl. by rewrite Hm. }
    case_decide.
    { pose proof (snapshot_set_length _ _ _ _ Hes Hy) as Hlen.
      destruct (Store.o_set_length elems y), (set_length es v); simpl in *;
        try done. rewrite Hlen. simpl. by rewrite Hm. }
    pose proof (snapshot_props_lookup _ _ k Hm) as Hk.
    assert (extra !! k = None ↔ m !! k = None) as Habsent
      by (destruct (extra !! k), (m !! k); done).
    destruct (decide (k = "__proto__" ∧ extra !! k = None)) as [Hp|Hp].
    + rewrite decide_True by (by rewrite <- Habsent).
      rewrite (read_keeps_prototype _ _ _ Hy).
      destruct (keeps_prototype _ _); simpl; [|done].
      rewrite Hes. simpl. by rewrite Hm.
    + rewrite decide_False by (by rewrite <- Habsent). simpl.
      rewrite Hes. simpl. by rewrite (snapshot_props_insert _ _ _ _ _ Hm Hy).
Qed.
End store_refinement.

Section set_refinement.
Implicit Types (h : gmap Store.loc Store.hobject).

(** What [set] asks of the value it stands on reads the same in the store
    and on the value: whether it is a container, what it has at a key,
    and its copy. *)
Lemma current_reads fuel h0 h current cv :
  h0 ⊆ h →
  Store.snapshot fuel h0 current = Some cv →
  Store.h_is_container current = is_container cv ∧
  (∀ k, Store.snapshot fuel h0 (Store.h_get h current k) = Some (get cv k)) ∧
  (is_container cv = true → ∀ n hx, h0 ⊆ hx → fuel ≤ S n →
     Store.snapshot_object (Store.snapshot n hx)
                           (Store.h_shallow_copy h current)
     = Some (shallow_copy cv)).
Proof.
  intros Hsub Hcurrent.
  destruct (Store.direct current) as [d|] eqn:Hdirect; cycle 1.
  - destruct current as [| | | | | | | |l]; try done.
    apply snapshot_ref_inv in Hcurrent as (fuel' & o & -> & Hl & Ho).
    assert (Store.deref h l = o) as Hderef.
    { unfold Store.deref. by rewrite (lookup_weaken _ _ _ _ Hl Hsub). }
    split; [|split].
    + by rewrite (snapshot_object_container _ _ _ Ho).
    + intros k.
      change (Store.h_get h (Store.HRef l) k)
        with (Store.o_get (Store.deref h l) k).
      rewrite Hderef. apply snapshot_S.
      by apply snapshot_object_get; [apply snapshot_direct|].
    + intros _ n hx Hhx Hn.
      change (Store.h_shallow_copy h (Store.HRef l))
        with (Store.o_shallow_copy (Store.deref h l)).
      rewrite Hderef.
      apply snapshot_object_copy; [apply snapshot_direct|].
      revert Ho. apply snapshot_object_weaken. intros y v Hy.
      apply (snapshot_le fuel'); [lia|]. by eapply snapshot_weaken.
  - assert (Store.direct current = Some cv) as Hcv.
    { rewrite (snapshot_direct fuel h0 _ _ Hdirect) in Hcurrent. congruence. }
    clear Hdirect. split; [|split].
    + by destruct current; simplify_eq/=.
    + intros k. apply snapshot_direct.
      destruct current as [| | | | | | |[]|]; simplify_eq/=; try done;
        unfold Store.h_get, get; simpl; repeat case_decide; try done.
      * by destruct (object_member k).
      * by destruct (array_member k).
    + intros Hc n hx _ _.
      destruct current as [| | | | | | |[]|]; simplify_eq/=; try done;
        unfold shallow_copy; simpl; by rewrite ?snapshot_props_empty.
Qed.

(** The traversal of the store model follows the traversal of the pure
    model step by step.  The inputs are read in [h0]; the call runs in a
    store [h] that holds [h0], and what it returns reads the same in any
    store that holds [h0] and the objects the call allocated. *)
Lemma recursor_refines keys fuel h0 h current value cv vv h' s :
  h0 ⊆ h →
  Store.snapshot fuel h0 current = Some cv →
  Store.snapshot fuel h0 value = Some vv →
  Store.recursor h current keys value = (h', s) →
  outcome_rel
    (λ x r, ∀ hx, h0 ⊆ hx →
       (∀ l, h !! l = None → hx !! l = h' !! l) →
       Store.snapshot (fuel + length keys) hx x = Some r)
    s (recursor cv keys vv).
Proof.
  revert h current cv h' s.
  induction keys as [|k rest IH]; intros h current cv h' s.
  { intros Hsub _ Hvalue [= <- <-]. simpl. intros hx Hhx _.
    rewrite Nat.add_0_r. by eapply snapshot_weaken. }
  intros Hsub Hcurrent Hvalue.
  destruct (current_reads fuel h0 h current cv Hsub Hcurrent)
    as (Hkind & Hget & Hcopy).
  cbn [Store.recursor recursor]. rewrite container_guard, Hkind.
  destruct (is_container cv) eqn:Hc; cbn [negb]; [|by intros [= <- <-]].
  specialize (Hcopy eq_refl).
  set (c := Store.h_shallow_copy h current) in *.
  pose proof (alloc_frame h c) as Hsub1.
  pose proof (alloc_fresh h c) as Hfresh.
  pose proof (alloc_lookup h c) as Hu.
  destruct (Store.alloc h c) as [h1 u]. cbn [fst snd] in Hsub1, Hfresh, Hu.
  pose proof (recursor_frame rest h1 (Store.h_get h current k) value) as Hsub2.
  destruct (Store.recursor h1 (Store.h_get h current k) rest value)
    as [h2 s2] eqn:Hrec. cbn [fst] in Hsub2.
  specialize (IH h1 (Store.h_get h current k) (get cv k) h2 s2
                 (transitivity Hsub Hsub1) (Hget k) Hvalue Hrec).
  destruct s2 as [x|e|], (recursor (get cv k) rest vv) as [r0|e0|];
    simpl in IH; try done; cbn [mbind outcome_bind];
    try (by intros [= <- <-]).
  (* the assignment into the copy *)
  assert (Store.deref h2 u = c) as Hderef.
  { unfold Store.deref. by rewrite (lookup_weaken _ _ _ _ Hu Hsub2). }
  assert (∀ hx, h0 ⊆ hx → (∀ l, h1 !! l = None → hx !! l = h2 !! l) →
    outcome_rel
      (λ o' cv', Store.snapshot_object
                   (Store.snapshot (fuel + length rest) hx) o' = Some cv')
      (Store.o_put c k x) (put (shallow_copy cv) k r0)) as Hput.
  { intros hx Hhx Hnew.
    apply snapshot_object_put;
      [apply snapshot_direct|apply snapshot_ref_plain| |by apply IH].
    apply Hcopy; [done|lia]. }
  unfold Store.store. rewrite Hderef.
  pose proof (Hput h2 (transitivity Hsub (transitivity Hsub1 Hsub2))
                (λ _ _, eq_refl)) as Hput2.
  destruct (Store.o_put c k x) as [o'| |] eqn:Ho',
           (put (shallow_copy cv) k r0) as [cv'| |] eqn:Hcv';
    simpl in Hput2; try done; intros [= <- <-]; simpl; [|done..].
  intros hx Hhx Hnew.
  replace (fuel + S (length rest)) with (S (fuel + length rest)) by lia.
  cbn [Store.snapshot].
  rewrite (Hnew u Hfresh), lookup_insert_eq. simpl.
  apply (Hput hx Hhx). intros l' Hl'.
  assert (l' ≠ u) by (intros ->; congruence).
  rewrite Hnew by (by eapply lookup_weaken_None).
  by rewrite lookup_insert_ne.
Qed.

(** X29.  [set] in the store model ends as [set] in the pure model ends
    on the values its arguments read as: it returns a value that reads as
    what the pure [set] returns, or throws what the pure [set] throws, or
    leaves the model where the pure [set] does. *)
Lemma set_refines path fuel h obj value cv vv :
  Store.snapshot fuel h obj = Some cv →
  Store.snapshot fuel h value = Some vv →
  outcome_rel
    (λ x r, Store.snapshot (fuel + length (split_dot path))
                           (Store.set path h obj value).1 x = Some r)
    (Store.set path h obj value).2
    (set path cv vv).
Proof.
  intros Hobj Hvalue. unfold Store.set, set.
  destruct (String.eqb path ""); [done|].
  destruct (Store.recursor h obj (split_dot path) value) as [h' s] eqn:Hrec.
  pose proof (recursor_refines (split_dot path) fuel h h obj value cv vv h' s
                (reflexivity h) Hobj Hvalue Hrec) as Href.
  pose proof (recursor_frame (split_dot path) h obj value) as Hsub.
  rewrite Hrec in Hsub. cbn [fst snd] in *.
  destruct s, (recursor cv (split_dot path) vv); try done.
  by apply Href.
Qed.
End set_refinement.

Section merge_refinement.
Implicit Types (h : gmap Store.loc Store.hobject).

Context (read : Store.hvalue → option value).
Hypothesis read_direct : ∀ y v, Store.direct y = Some v → read y = Some v.
Hypothesis read_ref : ∀ l v, read (Store.HRef l) = Some v → is_plain v = true.

(** What is called at line 137 is called alike in the two models. *)
Lemma read_call y v :
  read y = Some v →
  match y with
  | Store.HHostFunction name =>
      if decide (name = "Object.prototype.hasOwnProperty")
      then Returns true else Beyond
  | Store.HFun _ => Beyond
  | _ => Throws TypeError
  end
  = match v with
    | VHostFunction name =>
        if decide (name = "Object.prototype.hasOwnProperty")
        then Returns true else Beyond
    | VFun _ => Beyond
    | _ => Throws TypeError
    end.
Proof.
  intros [Hd|[[l ->] Hv]]%(read_inv read read_direct read_ref).
  - by destruct y; simplify_eq/=.
  - by destruct v.
Qed.

(** A property of a plain object is found alike when its own entry at
    the key reads alike. *)
Lemma lookup_obj_reads (rp : gmap string Store.hvalue)
    (R : gmap string value) k :
  Store.reads_option read (rp !! k) (R !! k) →
  Store.reads_option read (Store.o_lookup_property (Store.HObj rp) k)
                          (lookup_property (VObj R) k).
Proof.
  simpl. destruct (rp !! k), (R !! k); try done. intros _.
  case_decide; [by apply read_direct|].
  destruct (object_member k); [by apply read_direct|done].
Qed.

Lemma snapshot_props_union m1 m2 r1 r2 :
  Store.snapshot_props read m1 = Some r1 →
  Store.snapshot_props read m2 = Some r2 →
  Store.snapshot_props read (m1 ∪ m2) = Some (r1 ∪ r2).
Proof.
  unfold Store.snapshot_props.
  case_decide as H1; [|done]. case_decide as H2; [|done].
  intros [= <-] [= <-]. rewrite decide_True by by apply map_Forall_union_2.
  f_equal. apply map_eq. intros k.
  rewrite lookup_omap, !lookup_union, !lookup_omap.
  destruct (m1 !! k) as [y1|] eqn:Hk1; simpl.
  - destruct (H1 k y1 Hk1) as [v Hv]. rewrite union_Some_l. simpl.
    by rewrite Hv, union_Some_l.
  - by rewrite !(left_id_L None _).
Qed.

Lemma snapshot_string_entries i units :
  Store.snapshot_props read (Store.o_string_entries i units)
  = Some (string_entries i units).
Proof.
  revert i. induction units as [|u units IH]; intros i; simpl.
  - apply snapshot_props_empty.
  - apply snapshot_props_insert; [apply IH|by apply read_direct].
Qed.

Lemma snapshot_index_entries elems es i :
  Store.snapshot_elems read elems = Some es →
  Store.snapshot_props read (Store.o_index_entries i elems)
  = Some (index_entries i es).
Proof.
  intros Hall%mapM_Some. revert i.
  induction Hall as [|e c elems es Hc _ IH]; intros i; simpl.
  - apply snapshot_props_empty.
  - destruct e as [y|]; simpl in Hc.
    + apply fmap_Some in Hc as (v & Hv & ->).
      by apply snapshot_props_insert.
    + injection Hc as <-. apply IH.
Qed.

Lemma snapshot_object_spread o cv :
  Store.snapshot_object read o = Some cv →
  Store.snapshot_props read (Store.o_spread o) = Some (spread cv).
Proof.
  destruct o as [props|elems extra]; simpl.
  - by intros (m & Hm & ->)%fmap_Some.
  - intros (es & Hes & (m & Hm & ->)%fmap_Some)%bind_Some. simpl.
    apply snapshot_props_union; [|done]. by apply snapshot_index_entries.
Qed.

(** The entries of a map of the store and of the map it reads as, in the
    order of the fold: the same keys, and values that read alike. *)
Lemma snapshot_props_to_list m r :
  Store.snapshot_props read m = Some r →
  Forall2 (λ e p, e.1 = p.1 ∧ read e.2 = Some p.2)
          (map_to_list m) (map_to_list r).
Proof.
  unfold Store.snapshot_props. case_decide as Hall; [|done]. intros [= <-].
  assert (omap read m = (λ y, default VUndefined (read y)) <$> m) as ->.
  { apply map_eq. intros k. rewrite lookup_omap, lookup_fmap.
    destruct (m !! k) as [y|] eqn:Hk; [|done]. simpl.
    destruct (Hall k y Hk) as [v Hv]. by rewrite Hv. }
  rewrite map_to_list_fmap. apply Forall2_fmap_r, Forall_Forall2_diag.
  apply Forall_forall. intros [k y] Hin%elem_of_map_to_list.
  destruct (Hall k y Hin) as [v Hv]. simpl. by rewrite Hv.
Qed.
End merge_refinement.

Section merge_reads.
Implicit Types (h : gmap Store.loc Store.hobject).

Lemma snapshot_plain_inv fuel h y v :
  Store.snapshot fuel h y = Some v → is_plain v = true →
  ∃ l, y = Store.HRef l.
Proof.
  destruct (Store.direct y) as [d|] eqn:Hd.
  - rewrite (snapshot_direct fuel h _ _ Hd). intros [= <-].
    by destruct y; simplify_eq/=.
  - destruct y; try done. eauto.
Qed.

Lemma snapshot_host_inv fuel h y o :
  Store.snapshot fuel h y = Some (VHostObject o) →
  y = Store.HHostObject o.
Proof.
  destruct (Store.direct y) as [d|] eqn:Hd.
  - rewrite (snapshot_direct fuel h _ _ Hd). intros [= ->].
    by destruct y; simplify_eq/=.
  - destruct y; try done. by intros ?%snapshot_ref_plain.
Qed.

Lemma h_is_record_reads fuel h0 h y v :
  h0 ⊆ h → Store.snapshot fuel h0 y = Some v →
  Store.h_is_record h y = is_record v.
Proof.
  intros Hsub. destruct (Store.direct y) as [d|] eqn:Hd.
  - rewrite (snapshot_direct fuel h0 _ _ Hd). intros [= <-].
    by destruct y as [| | | | | | |[]|]; simplify_eq/=.
  - destruct y; try done.
    intros (fuel' & o & -> & Hl & Ho)%snapshot_ref_inv.
    unfold Store.h_is_record, Store.h_is_array, Store.deref.
    rewrite (lookup_weaken _ _ _ _ Hl Hsub). simpl.
    rewrite (snapshot_object_is_array _ _ _ Ho).
    apply snapshot_object_plain in Ho. by destruct v.
Qed.

(** The own enumerable properties of a value in the store read as the
    own enumerable properties of the value it reads as. *)
Lemma spread_reads fuel h0 h y v :
  h0 ⊆ h → Store.snapshot (S fuel) h0 y = Some v →
  Store.snapshot_props (Store.snapshot fuel h0) (Store.h_spread h y)
  = Some (spread v).
Proof.
  intros Hsub. destruct (Store.direct y) as [d|] eqn:Hd.
  - rewrite (snapshot_direct (S fuel) h0 _ _ Hd). intros [= <-].
    destruct y; simplify_eq/=; try apply snapshot_props_empty.
    apply snapshot_string_entries, snapshot_direct.
  - destruct y; try done. cbn [Store.snapshot].
    intros (o & Hl & Ho)%bind_Some. simpl.
    unfold Store.deref. rewrite (lookup_weaken _ _ _ _ Hl Hsub). simpl.
    by apply snapshot_object_spread.
Qed.

(** The same, read no deeper than the value. *)
Lemma spread_reads_same fuel h0 h y v :
  h0 ⊆ h → Store.snapshot fuel h0 y = Some v →
  Store.snapshot_props (Store.snapshot fuel h0) (Store.h_spread h y)
  = Some (spread v).
Proof.
  intros Hsub Hy. destruct fuel as [|fuel].
  - destruct y; simplify_eq/=; try apply snapshot_props_empty.
    apply snapshot_string_entries. intros y v Hd. by destruct y.
  - pose proof (spread_reads fuel h0 h y v Hsub Hy) as Hspread.
    revert Hspread. apply snapshot_props_weaken. apply snapshot_S.
Qed.

Lemma store_insert h l o key y :
  Store.store (<[l := o]> h) l key y
  = match Store.o_put o key y with
    | Returns o' => (<[l := o']> h, Returns ())
    | Throws e => (<[l := o]> h, Throws e)
    | Beyond => (<[l := o]> h, Beyond)
    end.
Proof.
  unfold Store.store, Store.deref. rewrite lookup_insert_eq. simpl.
  destruct (Store.o_put o key y); [|done..]. by rewrite insert_insert_eq.
Qed.

Lemma subseteq_delete_r h h' l : h ⊆ h' → h !! l = None → h ⊆ delete l h'.
Proof.
  intros Hsub Hl. apply map_subseteq_spec. intros l' o Hl'.
  rewrite lookup_delete_ne by congruence. by eapply lookup_weaken.
Qed.

(** A store that holds [o] at [l] is that object at [l] next to the rest
    of it. *)
Lemma split_at h l o : h !! l = Some o → h = <[l := o]> (delete l h).
Proof. intros Hl. rewrite insert_delete_eq. symmetry. by apply insert_id. Qed.

(** [merge] onto [Object.prototype], which has no own enumerable
    property: a new object with the own properties of [a]. *)
Lemma merge_host_object fuel N h0 h a av :
  h0 ⊆ h →
  Store.snapshot_props (Store.snapshot N h0) (Store.h_spread h a)
  = Some (spread av) →
  merge av (VHostObject ObjectPrototype) = Returns (VObj (spread av)) ∧
  ∃ h' l',
    Store.merge fuel h a (Store.HHostObject ObjectPrototype)
    = (h', Some (Returns (Store.HRef l'))) ∧
    ∀ hx, h0 ⊆ hx →
      (∀ l o, h !! l = None → h' !! l = Some o → hx !! l = Some o) →
      Store.snapshot (S N) hx (Store.HRef l') = Some (VObj (spread av)).
Proof.
  intros Hsub Ha. split.
  { cbn [merge spread]. by rewrite map_fold_empty. }
  assert (Store.merge fuel h a (Store.HHostObject ObjectPrototype)
          = Store.merge_loop (λ h _ _, (h, None)) h a
                             (Store.HHostObject ObjectPrototype)) as ->
    by by destruct fuel.
  unfold Store.merge_loop.
  pose proof (alloc_fresh h (Store.HObj (Store.h_spread h a))) as Hfresh.
  pose proof (alloc_lookup h (Store.HObj (Store.h_spread h a))) as Hl.
  destruct (Store.alloc h (Store.HObj (Store.h_spread h a))) as [h1 result].
  cbn [fst snd] in *. cbn [Store.h_spread]. rewrite map_to_list_empty.
  simpl. do 2 eexists. split; [reflexivity|]. intros hx Hhx Hext.
  cbn [Store.snapshot]. rewrite (Hext result _ Hfresh Hl). simpl.
  assert (Store.snapshot_props (Store.snapshot N hx) (Store.h_spread h a)
          = Some (spread av)) as ->; [|done].
  revert Ha. apply snapshot_props_weaken. intros y v.
  by apply snapshot_weaken.
Qed.
End merge_reads.

(** ** [merge] in the store model follows the pure model *)

Section merge_loop.
Implicit Types (g hk hx : gmap Store.loc Store.hobject).

Context (fuel' N : nat) (h0 h : gmap Store.loc Store.hobject).
Context (result lb : Store.loc).
Context (bprops rp0 : gmap string Store.hvalue) (bm sa : gmap string value).

Hypothesis recursive_calls :
  ∀ N' h1 a' b' av' bv',
    h0 ⊆ h1 →
    Store.snapshot_props (Store.snapshot N' h0) (Store.h_spread h1 a')
    = Some (spread av') →
    Store.snapshot (S N') h0 b' = Some bv' →
    is_record bv' = true →
    N' < fuel' →
    ∃ h2 s, Store.merge fuel' h1 a' b' = (h2, Some s) ∧
      outcome_rel
        (λ x r, ∀ hx, h0 ⊆ hx →
           (∀ l o, h1 !! l = None → h2 !! l = Some o → hx !! l = Some o) →
           Store.snapshot (S (S N')) hx x = Some r)
        s (merge av' bv').
Hypothesis inputs_in_store : h0 ⊆ h.
Hypothesis result_fresh : h !! result = None.
Hypothesis b_object : h0 !! lb = Some (Store.HObj bprops).
Hypothesis b_reads :
  Store.snapshot_props (Store.snapshot N h0) bprops = Some bm.
Hypothesis a_reads :
  Store.snapshot_props (Store.snapshot N h0) rp0 = Some sa.
Hypothesis enough_fuel : N ≤ fuel'.

(** [result[key] = x] in the two models. *)
Lemma loop_assign_refines hk k y v
    (rp : gmap string Store.hvalue) (R : gmap string value) :
  hk !! result = Some (Store.HObj rp) →
  (rp !! k = None ↔ R !! k = None) →
  (∃ n hx, Store.snapshot n hx y = Some v) →
  match assign R k v with
  | Returns R' =>
      ∃ rp', Store.store hk result k y
             = (<[result := Store.HObj rp']> (delete result hk), Returns ()) ∧
        (∀ j, j ≠ k → rp' !! j = rp !! j ∧ R' !! j = R !! j) ∧
        (k ≠ "__proto__" → rp' !! k = Some y) ∧
        (∀ read, read y = Some v →
           Store.snapshot_props read rp = Some R →
           Store.snapshot_props read rp' = Some R')
  | Throws _ => False
  | Beyond => Store.store hk result k y = (hk, Beyond)
  end.
Proof.
  intros Hres Hnone (n & hx & Hy).
  unfold Store.store, Store.deref. rewrite Hres. simpl. unfold assign.
  assert (Store.h_keeps_prototype ObjectPrototype y
          = keeps_prototype ObjectPrototype v) as Hkeeps.
  { apply (read_keeps_prototype (Store.snapshot n hx));
      [apply snapshot_direct|apply snapshot_ref_plain|done]. }
  destruct (decide (k = "__proto__" ∧ rp !! k = None)) as [[-> Hk]|Hno].
  - rewrite decide_True by (by split; [|apply Hnone]). rewrite Hkeeps.
    destruct (keeps_prototype _ _); [|done].
    exists rp. split; [by rewrite insert_delete_eq|]. split; [done|].
    split; [done|]. auto.
  - rewrite decide_False
      by (intros [-> Hk]; apply Hno; split; [done|by apply Hnone]).
    exists (<[k := y]> rp). split; [by rewrite insert_delete_eq|].
    split_and!.
    + intros j Hj. by rewrite !lookup_insert_ne.
    + intros _. apply lookup_insert_eq.
    + intros read Hry Hrp. by apply snapshot_props_insert.
Qed.

(** One iteration of the loop in the two models, from a store that holds
    the object under construction next to [g]. *)
Lemma merge_iteration_refines k bvh bvk g
    (rp : gmap string Store.hvalue) (R : gmap string value) :
  Store.snapshot N h0 bvh = Some bvk →
  h ⊆ g → g !! result = None →
  Store.reads_option (Store.snapshot N h0) (rp !! k) (R !! k) →
  ∃ h2 s2,
    Store.merge_iteration (Store.merge fuel') result (Store.HRef lb) k bvh
      (<[result := Store.HObj rp]> g) = (h2, Some s2) ∧
    match merge_iteration merge (VObj bm) k bvk R with
    | Returns R' =>
        s2 = Returns () ∧
        ∃ g' rp',
          h2 = <[result := Store.HObj rp']> g' ∧ g ⊆ g' ∧
          g' !! result = None ∧
          (∀ j, j ≠ k → rp' !! j = rp !! j ∧ R' !! j = R !! j) ∧
          (is_record bvk = false → k ≠ "__proto__" → rp' !! k = Some bvh) ∧
          (∀ hx, h0 ⊆ hx →
             (∀ l o, h !! l = None → g' !! l = Some o → hx !! l = Some o) →
             Store.snapshot_props (Store.snapshot (S N) hx) rp = Some R →
             Store.snapshot_props (Store.snapshot (S N) hx) rp' = Some R')
    | Throws e =>
        s2 = Throws e ∧
        ∃ g', h2 = <[result := Store.HObj rp]> g' ∧ g ⊆ g' ∧
              g' !! result = None
    | Beyond => s2 = Beyond
    end.
Proof.
  intros Hbv Hg Hfresh Hcur.
  set (hi := <[result := Store.HObj rp]> g).
  assert (g ⊆ hi) as Hgi by by apply insert_subseteq.
  assert (h0 ⊆ hi) as Hhi by (by do 2 (etrans; [eassumption|])).
  assert (hi !! result = Some (Store.HObj rp)) as Hresult
    by apply lookup_insert_eq.
  unfold Store.merge_iteration, merge_iteration.
  (* the call of line 137 *)
  assert (Store.h_has_own_property_call hi (Store.HRef lb) k
          = has_own_property_call (VObj bm) k) as ->.
  { unfold Store.h_has_own_property_call, has_own_property_call.
    unfold Store.h_get, get. cbn [Store.h_lookup_property].
    unfold Store.deref. rewrite (lookup_weaken _ _ _ _ b_object Hhi).
    cbn [default].
    apply (read_call (Store.snapshot N h0));
      [apply snapshot_direct|apply snapshot_ref_plain|].
    apply reads_option_default; [apply snapshot_direct|].
    apply lookup_obj_reads; [apply snapshot_direct|].
    by apply snapshot_props_lookup. }
  destruct (has_own_property_call (VObj bm) k) as [[]|e|] eqn:Hcall;
    cbn [mbind outcome_bind].
  2:{ by apply has_own_property_call_true in Hcall. }
  2:{ do 2 eexists. split; [reflexivity|]. split; [done|].
      exists g. by split_and!. }
  2:{ by do 2 eexists. }
  rewrite (h_is_record_reads N h0 hi bvh bvk Hhi Hbv).
  destruct (is_record bvk) eqn:Hrecord.
  - (* a Record: the recursive call *)
    set (cur := Store.h_get hi (Store.HRef result) k).
    set (cv := get (VObj R) k).
    assert (Store.snapshot N h0 cur = Some cv) as Hcv.
    { unfold cur, cv, Store.h_get, get. cbn [Store.h_lookup_property].
      unfold Store.deref. rewrite Hresult. cbn [default].
      apply reads_option_default; [apply snapshot_direct|].
      apply lookup_obj_reads; [apply snapshot_direct|done]. }
    rewrite (read_truthy (Store.snapshot N h0) (snapshot_direct N h0)
               (snapshot_ref_plain N h0) cur cv Hcv).
    assert (∃ hj arg,
      (if truthy cv then (hi, cur)
       else let '(hj, e) := Store.alloc hi (Store.HObj ∅) in
            (hj, Store.HRef e)) = (hj, arg) ∧
      hi ⊆ hj ∧
      Store.snapshot_props (Store.snapshot N h0) (Store.h_spread hj arg)
      = Some (spread (or_empty cv)) ∧
      (∀ N', N = S N' →
         Store.snapshot_props (Store.snapshot N' h0) (Store.h_spread hj arg)
         = Some (spread (or_empty cv)))) as (hj & arg & -> & Hij & Hsame & Hless).
    { unfold or_empty. destruct (truthy cv).
      - exists hi, cur. split_and!; [done|done|by apply spread_reads_same|].
        intros N' ->. by apply spread_reads.
      - pose proof (alloc_frame hi (Store.HObj ∅)) as Hsub.
        pose proof (alloc_lookup hi (Store.HObj ∅)) as Hnew.
        destruct (Store.alloc hi (Store.HObj ∅)) as [hj e].
        cbn [fst snd] in *. exists hj, (Store.HRef e).
        assert (Store.h_spread hj (Store.HRef e) = ∅) as ->.
        { simpl. unfold Store.deref. by rewrite Hnew. }
        split_and!; [done|done|apply snapshot_props_empty|].
        intros N' _. apply snapshot_props_empty. }
    assert (h0 ⊆ hj) as Hhj by by etrans.
    assert (∃ hk s,
      Store.merge fuel' hj arg bvh = (hk, Some s) ∧
      outcome_rel
        (λ x r, ∀ hx, h0 ⊆ hx →
           (∀ l o, hj !! l = None → hk !! l = Some o → hx !! l = Some o) →
           Store.snapshot (S N) hx x = Some r)
        s (merge (or_empty cv) bvk)) as (hk & s & Hcallk & Hrel).
    { destruct (is_record_inv _ Hrecord) as [[props ->]| ->].
      - destruct (snapshot_plain_inv _ _ _ _ Hbv) as [l' ->]; [done|].
        apply snapshot_ref_inv in Hbv as Hinv.
        destruct Hinv as (N' & o & -> & _ & _).
        apply (recursive_calls N' hj arg _ (or_empty cv)); auto with lia.
      - apply snapshot_host_inv in Hbv as ->.
        destruct (merge_host_object fuel' N h0 hj arg (or_empty cv) Hhj Hsame)
          as (-> & hk & l' & -> & Hreads).
        by exists hk, (Returns (Store.HRef l')). }
    pose proof (merge_frame fuel' hj arg bvh) as Hjk.
    rewrite Hcallk in *. cbn [fst] in Hjk.
    assert (hk !! result = Some (Store.HObj rp)) as Hresultk.
    { eapply lookup_weaken; [|exact Hjk].
      eapply lookup_weaken; [exact Hresult|exact Hij]. }
    assert (g ⊆ delete result hk) as Hgk.
    { apply subseteq_delete_r; [|done]. by do 2 (etrans; [eassumption|]). }
    destruct s as [x|e|], (merge (or_empty cv) bvk) as [r|e'|];
      try done; cbn [mbind outcome_bind].
    + pose proof (loop_assign_refines hk k x r rp R Hresultk) as Hassign.
      destruct (assign R k r) as [R'| |].
      * destruct Hassign as (rp' & -> & Hlookup & _ & Hreads).
        { by destruct (rp !! k), (R !! k). }
        { exists (S N), hk. apply Hrel; [by etrans|auto]. }
        do 2 eexists. split; [reflexivity|]. split; [done|].
        exists (delete result hk), rp'.
        split_and!; [done|done|apply lookup_delete_eq|done|congruence|].
        intros hx Hhx Hext. apply Hreads. apply Hrel; [done|].
        intros l o Hl Hlk. apply Hext.
        -- eapply lookup_weaken_None; [exact Hl|].
           etrans; [exact Hg|]. etrans; [exact Hgi|exact Hij].
        -- rewrite lookup_delete_ne; [done|].
           intros <-. rewrite (lookup_weaken _ _ _ _ Hresult Hij) in Hl.
           done.
      * destruct Hassign.
        { by destruct (rp !! k), (R !! k). }
        { exists (S N), hk. apply Hrel; [by etrans|auto]. }
      * rewrite Hassign.
        { by do 2 eexists. }
        { by destruct (rp !! k), (R !! k). }
        { exists (S N), hk. apply Hrel; [by etrans|auto]. }
    + simpl in Hrel. subst e'. do 2 eexists. split; [reflexivity|].
      split; [done|]. exists (delete result hk).
      split; [by apply split_at|]. split; [done|apply lookup_delete_eq].
    + by do 2 eexists.
  - (* anything else: the assignment of line 141 *)
    pose proof (loop_assign_refines hi k bvh bvk rp R Hresult) as Hassign.
    assert (g ⊆ delete result hi) as Hgk by by apply subseteq_delete_r.
    destruct (assign R k bvk) as [R'| |].
    + destruct Hassign as (rp' & -> & Hlookup & Hshared & Hreads).
      { by destruct (rp !! k), (R !! k). }
      { by exists N, h0. }
      do 2 eexists. split; [reflexivity|]. split; [done|].
      exists (delete result hi), rp'.
      split_and!; [done|done|apply lookup_delete_eq|done|by auto|].
      intros hx Hhx Hext. apply Hreads.
      apply snapshot_S. by eapply snapshot_weaken.
    + destruct Hassign.
      { by destruct (rp !! k), (R !! k). }
      { by exists N, h0. }
    + rewrite Hassign.
      { by do 2 eexists. }
      { by destruct (rp !! k), (R !! k). }
      { by exists N, h0. }
Qed.
(** The loop in the two models, over the entries of [b] in the same
    order: the same status, and as long as the call stays in the model the
    store holds the object under construction, which reads as the pure
    model's once the loop has gone through without a throw. *)
Lemma merge_fold_refines (L : list (string * Store.hvalue))
    (LP : list (string * value)) :
  Forall2 (λ e p, e.1 = p.1 ∧ Store.snapshot N h0 e.2 = Some p.2) L LP →
  NoDup L.*1 →
  ∃ hS sS R,
    foldr (λ entry, Store.merge_step (Store.merge fuel') result
                      (Store.HRef lb) entry.1 entry.2)
          (<[result := Store.HObj rp0]> h, Some (Returns ())) L
    = (hS, Some sS) ∧
    foldr (uncurry (merge_step merge (VObj bm))) (sa, Returns ()) LP
    = (R, sS) ∧
    (sS ≠ Beyond →
     ∃ g rp,
       hS = <[result := Store.HObj rp]> g ∧ h ⊆ g ∧ g !! result = None ∧
       (∀ j, j ∉ L.*1 → rp !! j = rp0 !! j ∧ R !! j = sa !! j) ∧
       (sS = Returns () → ∀ k y, (k, y) ∈ L →
          Store.h_is_record h0 y = false → k ≠ "__proto__" →
          rp !! k = Some y) ∧
       (sS = Returns () → ∀ hx, h0 ⊆ hx →
          (∀ l o, h !! l = None → g !! l = Some o → hx !! l = Some o) →
          Store.snapshot_props (Store.snapshot (S N) hx) rp = Some R)).
Proof.
  induction 1 as [|[k y] [k' v] L LP [Hk Hy] HL IH]; intros Hnodup.
  - exists (<[result := Store.HObj rp0]> h), (Returns ()), sa.
    split; [done|]. split; [done|]. intros _. exists h, rp0.
    split_and!; [done..| |].
    { intros _ k y Hin. by apply elem_of_nil in Hin. }
    intros _ hx Hhx _.
    revert a_reads. apply snapshot_props_weaken. intros x r Hx.
    apply snapshot_S. by eapply snapshot_weaken.
  - simpl in Hk, Hy. subst k'. apply NoDup_cons in Hnodup as [Hfresh Hnodup].
    destruct (IH Hnodup) as (hS & sS & R & HfoldS & HfoldP & Hstate).
    cbn [foldr fst snd uncurry]. rewrite HfoldS, HfoldP.
    cbn [Store.merge_step merge_step].
    destruct sS as [[]|e|].
    3:{ by exists hS, Beyond, R. }
    + (* the loop is running *)
      destruct Hstate as (g & rp & -> & Hg & Hresult & Hlookup & Hshared
                          & Hreads); [done|].
      destruct (Hlookup k Hfresh) as [Hrp HR].
      destruct (merge_iteration_refines k y v g rp R Hy Hg Hresult)
        as (h2 & s2 & -> & Hiteration).
      { rewrite Hrp, HR. by apply snapshot_props_lookup. }
      destruct (merge_iteration merge (VObj bm) k v R) as [R'|e|].
      * destruct Hiteration as (-> & g' & rp' & -> & Hg' & Hresult' & Hnew
                                & Hhere & Hreads').
        exists (<[result := Store.HObj rp']> g'), (Returns ()), R'.
        split; [done|]. split; [done|]. intros _. exists g', rp'.
        split_and!; [done|by etrans|done| | |].
        -- intros j [Hjk Hj]%not_elem_of_cons.
           destruct (Hnew j Hjk) as [-> ->]. by apply Hlookup.
        -- intros _ j z [[= -> ->]|Hin]%elem_of_cons Hz Hj.
           ++ apply Hhere; [|done].
              by rewrite <- (h_is_record_reads N h0 h0 y v).
           ++ assert (j ≠ k) as Hjk.
              { intros ->. apply Hfresh, list_elem_of_fmap.
                by exists (k, z). }
              destruct (Hnew j Hjk) as [-> _]. by apply Hshared.
        -- intros _ hx Hhx Hext. apply Hreads'; [done..|].
           apply Hreads; [done..|]. intros l o Hl Hlg. apply Hext; [done|].
           by eapply lookup_weaken.
      * destruct Hiteration as (-> & g' & -> & Hg' & Hresult').
        exists (<[result := Store.HObj rp]> g'), (Throws e), R.
        split; [done|]. split; [done|]. intros _. exists g', rp.
        split_and!; [done|by etrans|done| |done..].
        intros j [Hjk Hj]%not_elem_of_cons. by apply Hlookup.
      * subst s2. by exists h2, Beyond, R.
    + (* an iteration has thrown *)
      destruct Hstate as (g & rp & -> & Hg & Hresult & Hlookup & _ & Hreads);
        [done|].
      destruct (Hlookup k Hfresh) as [Hrp HR].
      destruct (merge_iteration_refines k y v g rp R Hy Hg Hresult)
        as (h2 & s2 & -> & Hiteration).
      { rewrite Hrp, HR. by apply snapshot_props_lookup. }
      cbn [snd].
      assert (∀ later : outcome (),
        later ≠ Beyond →
        ∃ hS sS R0,
          (<[result := Store.HObj rp]> g, Some (Throws e)) = (hS, Some sS) ∧
          (R, Throws e) = (R0, sS) ∧
          (sS ≠ Beyond →
           ∃ g0 rp1,
             hS = <[result := Store.HObj rp1]> g0 ∧ h ⊆ g0 ∧
             g0 !! result = None ∧
             (∀ j, j ∉ k :: L.*1 → rp1 !! j = rp0 !! j ∧ R0 !! j = sa !! j) ∧
             (sS = Returns () → ∀ j z, (j, z) ∈ (k, y) :: L →
                Store.h_is_record h0 z = false → j ≠ "__proto__" →
                rp1 !! j = Some z) ∧
             (sS = Returns () → ∀ hx, h0 ⊆ hx →
                (∀ l o, h !! l = None → g0 !! l = Some o → hx !! l = Some o) →
                Store.snapshot_props (Store.snapshot (S N) hx) rp1
                = Some R0))) as Hkept.
      { intros _ _. exists (<[result := Store.HObj rp]> g), (Throws e), R.
        split; [done|]. split; [done|]. intros _. exists g, rp.
        split_and!; [done..| |done|done].
        intros j [Hjk Hj]%not_elem_of_cons. by apply Hlookup. }
      destruct (merge_iteration merge (VObj bm) k v R) as [R'|e'|].
      * destruct Hiteration as [-> _]. by apply (Hkept (Returns ())).
      * destruct Hiteration as [-> _]. by apply (Hkept (Throws e')).
      * subst s2. by exists (<[result := Store.HObj rp]> g), Beyond, R.
Qed.
End merge_loop.

(** [merge] in the two models, with the first argument given by its own
    properties, which is all that [merge] reads of it. *)
Lemma merge_refines_spread fuel :
  ∀ N (h0 h : gmap Store.loc Store.hobject) a b av bv,
    h0 ⊆ h →
    Store.snapshot_props (Store.snapshot N h0) (Store.h_spread h a)
    = Some (spread av) →
    Store.snapshot (S N) h0 b = Some bv →
    is_record bv = true →
    N < fuel →
    ∃ h2 s, Store.merge fuel h a b = (h2, Some s) ∧
      outcome_rel
        (λ x r, ∀ hx, h0 ⊆ hx →
           (∀ l o, h !! l = None → h2 !! l = Some o → hx !! l = Some o) →
           Store.snapshot (S (S N)) hx x = Some r)
        s (merge av bv).
Proof.
  induction fuel as [|fuel IH]; intros N h0 h a b av bv Hsub Ha Hb Hrecord
                                       Hfuel; [lia|].
  destruct (is_record_inv _ Hrecord) as [[bm ->]| ->].
  - destruct (snapshot_plain_inv _ _ _ _ Hb) as [lb ->]; [done|].
    cbn [Store.snapshot] in Hb.
    apply bind_Some in Hb as (o & Hlb & Ho).
    destruct o as [bprops|]; simpl in Ho;
      [|by apply bind_Some in Ho as (? & _ & (? & _ & ?)%fmap_Some)].
    apply fmap_Some in Ho as (bm' & Hbm & [= <-]).
    cbn [Store.merge]. unfold Store.merge_loop.
    assert (Store.h_spread h (Store.HRef lb) = bprops) as ->.
    { simpl. unfold Store.deref.
      by rewrite (lookup_weaken _ _ _ _ Hlb Hsub). }
    pose proof (alloc_fresh h (Store.HObj (Store.h_spread h a))) as Hfresh.
    unfold Store.alloc in *. cbn [snd] in Hfresh.
    set (result := fresh (dom h)) in *.
    destruct (merge_fold_refines fuel N h0 h result lb bprops
                (Store.h_spread h a) bm (spread av)
                (λ N' h1, IH N' h0 h1) Hsub Hfresh Hlb Hbm Ha
                ltac:(lia) (map_to_list bprops) (map_to_list bm))
      as (hS & sS & R & -> & HfoldP & Hstate).
    { by apply snapshot_props_to_list. }
    { apply NoDup_fst_map_to_list. }
    rewrite merge_record, map_fold_foldr, HfoldP. unfold loop_end.
    cbn [fst snd fmap option_fmap option_map].
    do 2 eexists. split; [reflexivity|].
    destruct sS as [[]|e|]; cbn [mbind outcome_bind outcome_rel]; [|done..].
    destruct Hstate as (g & rp & -> & Hg & Hresult & _ & _ & Hreads);
      [done|].
    intros hx Hhx Hext.
    change (Store.snapshot (S (S N)) hx (Store.HRef result))
      with (hx !! result
            ≫= Store.snapshot_object (Store.snapshot (S N) hx)).
    rewrite (Hext result (Store.HObj rp) Hfresh (lookup_insert_eq _ _ _)).
    cbn [mbind option_bind Store.snapshot_object].
    rewrite Hreads; [done..|]. intros l o Hl Hlg. apply Hext; [done|].
    rewrite lookup_insert_ne; [done|]. by intros <-; rewrite Hresult in Hlg.
  - apply snapshot_host_inv in Hb as ->.
    destruct (merge_host_object (S fuel) N h0 h a av Hsub Ha)
      as (-> & h' & l' & -> & Hreads).
    do 2 eexists. split; [reflexivity|]. cbn [outcome_rel].
    intros hx Hhx Hext. apply snapshot_S. by apply Hreads.
Qed.

(** X30.  [merge] in the store model follows [merge] in the pure model:
    when [a] and the Record [b] read as [av] and [bv] to some depth and
    the fuel exceeds that depth, the call comes to an end; it throws when
    the pure [merge] throws, leaves the model when it does, and otherwise
    returns what reads as the Record that the pure [merge] returns. *)
Lemma merge_refines fuel depth (h : gmap Store.loc Store.hobject) a b av bv :
  Store.snapshot (S depth) h a = Some av →
  Store.snapshot (S depth) h b = Some bv →
  is_record bv = true →
  depth < fuel →
  ∃ h' s, Store.merge fuel h a b = (h', Some s) ∧
          outcome_rel (λ x r, Store.snapshot (S (S depth)) h' x = Some r)
                      s (merge av bv).
Proof.
  intros Ha Hb Hrecord Hfuel.
  destruct (merge_refines_spread fuel depth h h a b av bv)
    as (h' & s & Hcall & Hrel); [done|by apply spread_reads|done..|].
  exists h', s. split; [done|].
  pose proof (merge_frame fuel h a b) as Hsub. rewrite Hcall in Hsub.
  destruct s, (merge av bv); try done. simpl in *. by apply Hrel.
Qed.

(** ** [pick] and [omit] in the store model *)

Section store_pick_omit.
Implicit Types (h : gmap Store.loc Store.hobject).
Implicit Types (read : Store.hvalue → option value).

Lemma remove_frame h h' l key :
  h ⊆ h' → h !! l = None → h ⊆ Store.remove h' l key.
Proof.
  intros Hsub Hl. apply map_subseteq_spec. intros l' o Hl'.
  unfold Store.remove. rewrite lookup_alter_ne by congruence.
  by eapply lookup_weaken.
Qed.

Lemma remove_insert h l o key :
  Store.remove (<[l := o]> h) l key = <[l := Store.o_delete o key]> h.
Proof. unfold Store.remove. by rewrite alter_insert_eq. Qed.

Lemma snapshot_props_delete read m r k :
  Store.snapshot_props read m = Some r →
  Store.snapshot_props read (delete k m) = Some (delete k r).
Proof.
  unfold Store.snapshot_props. case_decide as Hall; [|done].
  intros [= <-]. rewrite decide_True.
  - f_equal. apply map_eq. intros j. rewrite lookup_omap.
    destruct (decide (j = k)) as [->|Hne].
    + by rewrite !lookup_delete_eq.
    + by rewrite !lookup_delete_ne, lookup_omap by done.
  - intros j y Hj. apply lookup_delete_Some in Hj as [_ Hj].
    by eapply Hall.
Qed.

(** [key in source] ends alike in the two models. *)
Lemma has_property_reads fuel h0 h (source : Store.hvalue) ov key :
  h0 ⊆ h →
  Store.snapshot fuel h0 source = Some ov →
  Store.h_has_property h source key = has_property ov key.
Proof.
  intros Hsub Hsource.
  destruct (Store.direct source) as [d|] eqn:Hdirect.
  - rewrite (snapshot_direct fuel h0 _ _ Hdirect) in Hsource.
    injection Hsource as <-.
    destruct source as [| | | | | | |[]|]; simplify_eq/=; try done;
      f_equal; repeat case_decide; try done.
    + by destruct (object_member key).
    + by destruct (array_member key).
  - destruct source as [| | | | | | | |l]; try done.
    apply snapshot_ref_inv in Hsource as (fuel' & o & -> & Hl & Ho).
    simpl. unfold Store.deref. rewrite (lookup_weaken _ _ _ _ Hl Hsub).
    cbn [default].
    pose proof (snapshot_object_lookup _ (snapshot_direct fuel' h0)
                  o ov key Ho) as Hkey.
    apply reads_option_is_Some in Hkey.
    apply snapshot_object_plain in Ho. unfold id. rewrite Hkey.
    by destruct ov.
Qed.

(** [source[key]] reads one level below the source. *)
Lemma get_reads depth h0 h (source : Store.hvalue) ov key :
  h0 ⊆ h →
  Store.snapshot (S depth) h0 source = Some ov →
  Store.snapshot depth h0 (Store.h_get h source key) = Some (get ov key).
Proof.
  intros Hsub Hsource.
  destruct (Store.direct source) as [d|] eqn:Hdirect.
  - rewrite (snapshot_direct (S depth) h0 _ _ Hdirect) in Hsource.
    injection Hsource as <-. apply snapshot_direct.
    destruct source as [| | | | | | |[]|]; simplify_eq/=; try done;
      unfold Store.h_get, get; simpl; repeat case_decide; try done.
    + by destruct (object_member key).
    + by destruct (array_member key).
  - destruct source as [| | | | | | | |l]; try done.
    apply snapshot_ref_inv in Hsource as (fuel' & o & [= <-] & Hl & Ho).
    change (Store.h_get h (Store.HRef l) key)
      with (Store.o_get (Store.deref h l) key).
    unfold Store.deref. rewrite (lookup_weaken _ _ _ _ Hl Hsub).
    cbn [default]. by apply snapshot_object_get; [apply snapshot_direct|].
Qed.

(** One turn of the loop of [pick] in the two models: the store holds
    the new object next to [h], and it reads as the object of the pure
    model. *)
Lemma pick_step_refines depth h l (source : Store.hvalue) ov key
    (acc : gmap Store.loc Store.hobject * outcome ())
    (p : outcome (gmap string value)) :
  h !! l = None →
  Store.snapshot (S depth) h source = Some ov →
  outcome_rel
    (λ _ R, ∃ rp, acc.1 = <[l := Store.HObj rp]> h ∧
            Store.snapshot_props (Store.snapshot depth h) rp = Some R)
    acc.2 p →
  outcome_rel
    (λ _ R, ∃ rp, (Store.pick_step source l acc key).1
                  = <[l := Store.HObj rp]> h ∧
            Store.snapshot_props (Store.snapshot depth h) rp = Some R)
    (Store.pick_step source l acc key).2
    (object ← p;
     present ← has_property ov key;
     if present : bool then assign object key (get ov key)
     else Returns object).
Proof.
  intros Hl Hsource. destruct acc as [hi [[]|e|]], p as [R|e'|]; try done.
  cbn [fst snd outcome_rel Store.pick_step mbind outcome_bind].
  intros (rp & -> & Hrp).
  assert (h ⊆ <[l := Store.HObj rp]> h) as Hsub by by apply insert_subseteq.
  rewrite (has_property_reads (S depth) h _ source ov key Hsub Hsource).
  destruct (has_property ov key) as [[]|e|] eqn:Hhas;
    cbn [fst snd mbind outcome_bind outcome_rel]; [|by eauto|done..].
  assert (Store.snapshot depth h
            (Store.h_get (<[l := Store.HObj rp]> h) source key)
          = Some (get ov key)) as Hget by by apply get_reads.
  pose proof (loop_assign_refines l (<[l := Store.HObj rp]> h) key
                (Store.h_get (<[l := Store.HObj rp]> h) source key)
                (get ov key) rp R (lookup_insert_eq _ _ _)) as Hassign.
  assert (rp !! key = None ↔ R !! key = None) as Habsent.
  { pose proof (snapshot_props_lookup _ _ _ key Hrp).
    by destruct (rp !! key), (R !! key). }
  destruct (assign R key (get ov key)) as [R'|e|].
  - destruct Hassign as (rp' & -> & _ & Hreads); [done|by eauto|].
    rewrite delete_insert_id by done. exists rp'. split; [done|].
    by apply Hreads.
  - destruct Hassign; [done|by eauto].
  - by rewrite Hassign; [|done|eauto].
Qed.

(** The loop of [pick] in the store model follows the loop of the pure
    model. *)
Lemma pick_loop_refines depth h l (source : Store.hvalue) ov
    (keys : list string) :
  ∀ (acc : gmap Store.loc Store.hobject * outcome ())
    (p : outcome (gmap string value)),
  h !! l = None →
  Store.snapshot (S depth) h source = Some ov →
  outcome_rel
    (λ _ R, ∃ rp, acc.1 = <[l := Store.HObj rp]> h ∧
            Store.snapshot_props (Store.snapshot depth h) rp = Some R)
    acc.2 p →
  outcome_rel
    (λ _ R, ∃ rp, (foldl (Store.pick_step source l) acc keys).1
                  = <[l := Store.HObj rp]> h ∧
            Store.snapshot_props (Store.snapshot depth h) rp = Some R)
    (foldl (Store.pick_step source l) acc keys).2
    (foldl (λ acc key,
              object ← acc;
              present ← has_property ov key;
              if present : bool then assign object key (get ov key)
              else Returns object)
           p keys).
Proof.
  induction keys as [|key keys IH]; intros acc p Hl Hsource Hrel; [done|].
  cbn [foldl]. apply IH; [done..|]. by apply pick_step_refines.
Qed.

Lemma omit_loop_refines depth h l (keys : list string) : ∀ rp R,
  Store.snapshot_props (Store.snapshot depth h) rp = Some R →
  ∃ rp',
    foldl (λ hi key,
             if bool_decide (is_Some (Store.h_lookup_property hi
                                        (Store.HRef l) key))
             then Store.remove hi l key
             else hi) (<[l := Store.HObj rp]> h) keys
    = <[l := Store.HObj rp']> h ∧
    Store.snapshot_props (Store.snapshot depth h) rp'
    = Some (foldl (λ object key,
                     if bool_decide (is_Some (lookup_property (VObj object)
                                                key))
                     then delete key object
                     else object) R keys).
Proof.
  induction keys as [|key keys IH]; intros rp R Hrp; cbn [foldl].
  { by exists rp. }
  assert (bool_decide (is_Some (Store.h_lookup_property
                                  (<[l := Store.HObj rp]> h)
                                  (Store.HRef l) key))
          = bool_decide (is_Some (lookup_property (VObj R) key))) as ->.
  { cbn [Store.h_lookup_property]. unfold Store.deref.
    rewrite lookup_insert_eq. cbn [default].
    apply (reads_option_is_Some (Store.snapshot depth h)).
    apply lookup_obj_reads; [apply snapshot_direct|].
    by apply snapshot_props_lookup. }
  destruct (bool_decide _); [|by apply IH].
  rewrite remove_insert. simpl.
  apply IH. by apply snapshot_props_delete.
Qed.
End store_pick_omit.

(** ** The scenarios of the specification, run on the model *)

Example scenario_set_deep :
  set "a.b" (VObj {[ "a" := VObj {[ "b" := VNum 1 ]} ]}) (VNum 42)
  = Returns (VObj {[ "a" := VObj {[ "b" := VNum 42 ]} ]}).
Proof. vm_compute. reflexivity. Qed.

Example scenario_set_array_index :
  set "arr.1.b"
      (VObj {[ "arr" := VArr [Some (VObj {[ "a" := VNum 1 ]});
                              Some (VObj {[ "b" := VNum 2 ]})] ∅ ]})
      (VNum 42)
  = Returns (VObj {[ "arr" := VArr [Some (VObj {[ "a" := VNum 1 ]});
                                    Some (VObj {[ "b" := VNum 42 ]})] ∅ ]}).
Proof. vm_compute. reflexivity. Qed.

Example scenario_set_empty_path :
  set "" (VObj {[ "a" := VNum 1 ]}) (VNum 42) = Throws InvalidPathError.
Proof. reflexivity. Qed.

Example scenario_set_past_the_end :
  set "3" (VArr [Some (VNum 1)] ∅) (VNum 2)
  = Returns (VArr [Some (VNum 1); None; None; Some (VNum 2)] ∅).
Proof. vm_compute. reflexivity. Qed.

Example scenario_merge_deep :
  merge (VObj {[ "a" := VObj {[ "x" := VNum 1 ]} ]})
        (VObj {[ "a" := VObj {[ "y" := VNum 2 ]} ]})
  = Returns (VObj {[ "a" := VObj {[ "x" := VNum 1; "y" := VNum 2 ]} ]}).
Proof. vm_compute. reflexivity. Qed.

Example scenario_merge_override :
  merge (VObj {[ "a" := VNum 1; "b" := VNum 2 ]})
        (VObj {[ "b" := VNum 42; "c" := VNum 3 ]})
  = Returns (VObj {[ "a" := VNum 1; "b" := VNum 42; "c" := VNum 3 ]}).
Proof. vm_compute. reflexivity. Qed.

Example scenario_pick_omit :
  pick (VObj {[ "a" := VNum 1; "b" := VNum 2; "c" := VNum 3 ]}) ["a"; "c"]
  = Returns (VObj {[ "a" := VNum 1; "c" := VNum 3 ]})
  ∧ omit (VObj {[ "a" := VNum 1; "b" := VNum 2; "c" := VNum 3 ]}) ["a"; "c"]
    = VObj {[ "b" := VNum 2 ]}.
Proof. split; vm_compute; reflexivity. Qed.

Example scenario_pick_omit_array :
  pick (VArr [Some (VNum 10); Some (VNum 20); Some (VNum 30)] ∅) ["0"; "2"]
  = Returns (VObj {[ "0" := VNum 10; "2" := VNum 30 ]})
  ∧ omit (VArr [Some (VNum 10); Some (VNum 20); Some (VNum 30)] ∅) ["1"]
    = VObj {[ "0" := VNum 10; "2" := VNum 30 ]}.
Proof. split; vm_compute; reflexivity. Qed.

(** The names that the host handles itself. *)
Example scenario_merge_own_hasOwnProperty :
  merge (VObj ∅) (VObj {[ "hasOwnProperty" := VNum 1 ]}) = Throws TypeError.
Proof. vm_compute. reflexivity. Qed.

Example scenario_set_proto_ignored :
  set "__proto__" (VObj {[ "a" := VNum 1 ]}) (VNum 5)
  = Returns (VObj {[ "a" := VNum 1 ]}).
Proof. vm_compute. reflexivity. Qed.

Example scenario_set_through_proto :
  set "__proto__.x" (VObj ∅) (VNum 1) = Beyond.
Proof. vm_compute. reflexivity. Qed.

Example scenario_set_length :
  set "length" (VArr [Some (VNum 1); Some (VNum 2); Some (VNum 3)] ∅) (VNum 0)
  = Returns (VArr [] ∅)
  ∧ set "length" (VArr [Some (VNum 1)] ∅) (VNum (-1)) = Throws RangeError.
Proof. split; vm_compute; reflexivity. Qed.

Example scenario_pick_inherited :
  pick (VObj {[ "a" := VNum 1 ]}) ["toString"]
  = Returns (VObj {[ "toString"
                     := VHostFunction "Object.prototype.toString" ]}).
Proof. vm_compute. reflexivity. Qed.

(** The store model computes what the pure model computes, and the
    argument reads as before. *)
Example scenario_store_set :
  let h : gmap Store.loc Store.hobject :=
    {[ 1%positive := Store.HObj {[ "a" := Store.HRef 2%positive ]};
       2%positive := Store.HObj {[ "b" := Store.HNum 1 ]} ]} in
  let r := Store.set "a.b" h (Store.HRef 1%positive) (Store.HNum 42) in
  r.2 = Returns (Store.HRef 3%positive)
  ∧ Store.snapshot 2 r.1 (Store.HRef 3%positive)
    = Some (VObj {[ "a" := VObj {[ "b" := VNum 42 ]} ]})
  ∧ Store.snapshot 2 r.1 (Store.HRef 1%positive)
    = Some (VObj {[ "a" := VObj {[ "b" := VNum 1 ]} ]}).
Proof. repeat split; vm_compute; reflexivity. Qed.

Example scenario_store_merge :
  let h : gmap Store.loc Store.hobject :=
    {[ 1%positive := Store.HObj {[ "a" := Store.HRef 2%positive ]};
       2%positive := Store.HObj {[ "x" := Store.HNum 1 ]};
       3%positive := Store.HObj {[ "a" := Store.HRef 4%positive ]};
       4%positive := Store.HObj {[ "y" := Store.HNum 2 ]} ]} in
  let r := Store.merge 2 h (Store.HRef 1%positive) (Store.HRef 3%positive) in
  (∃ x, r.2 = Some (Returns x) ∧
        Store.snapshot 2 r.1 x
        = Some (VObj {[ "a" := VObj {[ "x" := VNum 1; "y" := VNum 2 ]} ]}))
  ∧ Store.snapshot 2 r.1 (Store.HRef 1%positive)
    = Some (VObj {[ "a" := VObj {[ "x" := VNum 1 ]} ]})
  ∧ Store.snapshot 2 r.1 (Store.HRef 3%positive)
    = Some (VObj {[ "a" := VObj {[ "y" := VNum 2 ]} ]}).
Proof.
  split; [|split; vm_compute; reflexivity].
  exists (Store.HRef 5%positive). split; vm_compute; reflexivity.
Qed.

(** * The claims *)




(** A path that reads a container at its end reads containers all the
    way. *)
Lemma read_path_container (x : value) (ks : list string) (parent : value) :
  read_path x ks = Some parent → is_container parent = true →
  is_container x = true.
Proof.
  destruct ks as [|k ks]; simpl; [by intros [= ->]|].
  by destruct (is_container x).
Qed.

(** When the segments [ks], none of them [__proto__], lead through
    containers to a container, setting one segment further, at a name
    that the host does not handle itself, succeeds, and the value is then
    a property of the copy of that container. *)
Lemma recursor_terminal (ks : list string) (root parent : value)
    (k : string) (v : value) :
  "__proto__" ∉ ks →
  read_path root ks = Some parent → is_container parent = true →
  host_name parent k = false →
  ∃ r parent',
    recursor root (ks ++ [k]) v = Returns r ∧
    read_path r ks = Some parent' ∧
    has_property parent' k = Returns true ∧ get parent' k = v.
Proof.
  revert root. induction ks as [|k0 ks IH]; intros root Hproto.
  - intros [= ->] Hc Hk. simpl app. rewrite recursor_container by done.
    cbn [recursor mbind outcome_bind].
    destruct (get_put parent k v Hc Hk) as (u & -> & _ & Hhas & Hget).
    by exists u, u.
  - apply not_elem_of_cons in Hproto as [Hk0 Hproto]. intros Hread Hc Hk.
    assert (is_container root = true) as Hroot
      by by eapply read_path_container.
    simpl in Hread. rewrite Hroot in Hread.
    assert (is_container (get root k0) = true) as Hnext
      by by eapply read_path_container.
    destruct (IH _ Hproto Hread Hc Hk) as (r & parent' & Hr & Hread' & Hp).
    assert (host_name root k0 = false) as Hname.
    { unfold host_name. rewrite bool_decide_eq_false_2 by done. simpl.
      destruct (is_array root) eqn:Harray; [|done]. simpl.
      apply bool_decide_eq_false_2. intros ->.
      by rewrite get_length_array in Hnext. }
    destruct (get_put root k0 r Hroot Hname) as (u & Hput & Hu & _ & Hget).
    exists u, parent'. split.
    + change ((k0 :: ks) ++ [k]) with (k0 :: (ks ++ [k])).
      rewrite recursor_container by done. rewrite Hr. exact Hput.
    + split; [|done]. simpl. by rewrite Hu, Hget.
Qed.






(** C4.  [set] and [merge] leave every object of the store as it was:
    the store after the call, whether the call returned, threw or ran
    out of fuel, holds each object that existed before with the same
    content, so that a snapshot of any value, to any depth, taken before
    the call is the snapshot taken after it. *)
Theorem set_merge_do_not_mutate :
  (∀ path h obj value, h ⊆ (Store.set path h obj value).1) ∧
  (∀ fuel h a b, h ⊆ (Store.merge fuel h a b).1) ∧
  (∀ path h obj value depth x s,
     Store.snapshot depth h x = Some s →
     Store.snapshot depth (Store.set path h obj value).1 x = Some s) ∧
  (∀ fuel h a b depth x s,
     Store.snapshot depth h x = Some s →
     Store.snapshot depth (Store.merge fuel h a b).1 x = Some s).
Proof.
  assert (Hset : ∀ path h obj value, h ⊆ (Store.set path h obj value).1).
  { intros path h obj value. unfold Store.set.
    destruct (String.eqb path ""); [done|apply recursor_frame]. }
  split; [exact Hset|]. split; [apply merge_frame|]. split.
  - intros path h obj value depth x s. apply snapshot_weaken, Hset.
  - intros fuel h a b depth x s. apply snapshot_weaken, merge_frame.
Qed.














(** C10, as amended.  When the Record [obj] has a key [k] other than
    [__proto__] with the value [undefined], [pick(obj, [k])] returns the
    Record that has the key [k] with the value [undefined] and no other
    key.  [pick] goes by the presence of the key in the source, not by
    its value: for any list of keys without [__proto__], the result has
    exactly the listed keys that the source has, its own or inherited,
    each with the value the source has there, and so the key [k] with
    [undefined] whenever it is listed. *)
Theorem pick_keeps_undefined (obj : gmap string value) (k : string) :
  k ≠ "__proto__" →
  obj !! k = Some VUndefined →
  pick (VObj obj) [k] = Returns (VObj {[ k := VUndefined ]}) ∧
  ∀ keys, "__proto__" ∉ keys →
    ∃ object,
      pick (VObj obj) keys = Returns (VObj object) ∧
      (∀ j, object !! j = if decide (j ∈ keys)
                          then lookup_property (VObj obj) j else None) ∧
      (k ∈ keys → object !! k = Some VUndefined).
Proof.
  intros Hproto Hk.
  assert (∀ keys, "__proto__" ∉ keys →
    ∃ object,
      pick (VObj obj) keys = Returns (VObj object) ∧
      ∀ j, object !! j = if decide (j ∈ keys)
                         then lookup_property (VObj obj) j else None)
    as Hpick.
  { intros keys Hkeys.
    destruct (pick_lookup (VObj obj) keys) as (object & -> & Hobject);
      [done..|].
    exists object. split; [done|]. intros j. rewrite Hobject.
    destruct (decide (j ∈ keys)) as [Hj|Hj].
    - rewrite decide_True; [done|]. split; [done|]. by intros ->.
    - rewrite decide_False; [done|]. by intros [? _]. }
  split.
  - destruct (Hpick [k]) as (object & -> & Hobject).
    { apply not_elem_of_cons. split; [done|apply not_elem_of_nil]. }
    do 2 f_equal. apply map_eq. intros j. rewrite Hobject.
    destruct (decide (j = k)) as [->|Hne].
    + rewrite decide_True by apply list_elem_of_here.
      rewrite lookup_singleton_eq. simpl. by rewrite Hk.
    + rewrite decide_False by (by intros ->%list_elem_of_singleton).
      by rewrite lookup_singleton_ne.
  - intros keys Hkeys. destruct (Hpick keys Hkeys) as (object & -> & Hobject).
    exists object. split; [done|]. split; [done|]. intros Hin.
    rewrite Hobject, decide_True by done. simpl. by rewrite Hk.
Qed.

Lemma pick_keeps_undefined_witness :
  "b" ≠ "__proto__" ∧
  ({[ "a" := VNum 1; "b" := VUndefined ]} : gmap string value) !! "b"
  = Some VUndefined ∧
  pick (VObj {[ "a" := VNum 1; "b" := VUndefined ]}) ["b"]
    = Returns (VObj {[ "b" := VUndefined ]}) ∧
  ∀ keys, "__proto__" ∉ keys →
    ∃ object,
      pick (VObj {[ "a" := VNum 1; "b" := VUndefined ]}) keys
      = Returns (VObj object) ∧
      (∀ j, object !! j
            = if decide (j ∈ keys)
              then lookup_property
                     (VObj {[ "a" := VNum 1; "b" := VUndefined ]}) j
              else None) ∧
      ("b" ∈ keys → object !! "b" = Some VUndefined).
Proof.
  split; [done|]. split; [reflexivity|].
  apply (pick_keeps_undefined {[ "a" := VNum 1; "b" := VUndefined ]} "b");
    [done|reflexivity].
Defined.

(** C10, as stated, fails at the key [__proto__]: when the source holds
    [undefined] at an own key of that name, the assignment of line 81
    goes to the host, which ignores it, and the result has no such
    key. *)
Lemma pick_own_proto_undefined :
  ({[ "__proto__" := VUndefined ]} : gmap string value) !! "__proto__"
  = Some VUndefined ∧
  ¬ ∃ object,
      pick (VObj {[ "__proto__" := VUndefined ]}) ["__proto__"]
      = Returns (VObj object) ∧
      object !! "__proto__" = Some VUndefined.
Proof.
  split; [done|]. intros (object & Hpick & Hobject).
  vm_compute in Hpick. injection Hpick as <-. done.
Qed.
(** * Further properties of the code *)

#[local] Set Warnings "-clear-no-such-hyp".

(** ** The function helpers *)

(** X1.  [composeL] applies its functions from the first to the last and
    [composeR] from the last to the first: composing a list from the left
    is composing the reversed list from the right, and with no function
    both give the value back. *)
Theorem composeL_is_composeR_reversed {A} (fns : list (A → A)) (x : A) :
  FunctionHelpers.composeL fns x = FunctionHelpers.composeR (reverse fns) x
  ∧ FunctionHelpers.composeR fns x = FunctionHelpers.composeL (reverse fns) x
  ∧ FunctionHelpers.composeL [] x = x
  ∧ FunctionHelpers.composeR [] x = x.
Proof.
  assert (∀ (l : list (A → A)) y,
    FunctionHelpers.composeL l y = FunctionHelpers.composeR (reverse l) y)
    as Hleft.
  { unfold FunctionHelpers.composeL, FunctionHelpers.composeR.
    induction l as [|f l IH]; intros y; [done|].
    rewrite reverse_cons, foldr_app. simpl. apply IH. }
  split; [apply Hleft|]. split; [|done].
  by rewrite Hleft, reverse_involutive.
Qed.

(** X2.  A pipeline can be cut anywhere: composing [fs ++ gs] from the
    left runs [fs], then [gs], on the result; from the right it runs
    [gs], then [fs]. *)
Theorem compose_app {A} (fs gs : list (A → A)) (x : A) :
  FunctionHelpers.composeL (fs ++ gs) x
  = FunctionHelpers.composeL gs (FunctionHelpers.composeL fs x)
  ∧ FunctionHelpers.composeR (fs ++ gs) x
    = FunctionHelpers.composeR fs (FunctionHelpers.composeR gs x).
Proof.
  unfold FunctionHelpers.composeL, FunctionHelpers.composeR.
  by rewrite foldl_app, foldr_app.
Qed.

(** ** The list helpers *)

Lemma write_index_in_range (c : list (option value)) (i : nat) (x : value) :
  i < length c → write_index c i x = <[i := Some x]> c.
Proof. intros Hi. unfold write_index. by rewrite decide_True. Qed.

(** The loop of [zip] over the indices [s], ..., [s + n - 1] of an array
    that has them fills exactly these, and keeps the length. *)
Lemma zip_loop (f : nat → value) (n : nat) : ∀ s (c : list (option value)),
  s + n ≤ length c →
  length (foldl (λ c i, write_index c i (f i)) c (seq s n)) = length c ∧
  ∀ i, foldl (λ c i, write_index c i (f i)) c (seq s n) !! i
       = if decide (s ≤ i < s + n) then Some (Some (f i)) else c !! i.
Proof.
  induction n as [|n IH]; intros s c Hlen; simpl.
  { split; [done|]. intros i. by rewrite decide_False by lia. }
  rewrite write_index_in_range by lia.
  destruct (IH (S s) (<[s := Some (f s)]> c)) as [Hlength Hlookup].
  { rewrite length_insert. lia. }
  rewrite length_insert in Hlength. split; [done|].
  intros i. rewrite Hlookup.
  destruct (decide (i = s)) as [->|Hne].
  - rewrite decide_False, decide_True by lia.
    by rewrite list_lookup_insert_eq by lia.
  - rewrite list_lookup_insert_ne by done.
    destruct (decide (S s ≤ i < S s + n)).
    + by rewrite decide_True by lia.
    + by rewrite decide_False by lia.
Qed.

(** What [zip] holds: the length of the longer array and, at each index
    below it, the tuple of the two elements there. *)
Lemma zip_entries (a b : list (option value)) :
  length (ListHelpers.zip a b) = length a `max` length b ∧
  ∀ i, i < length a `max` length b →
    ListHelpers.zip a b !! i
    = Some (Some (ListHelpers.tuple (ListHelpers.element a i)
                                    (ListHelpers.element b i))).
Proof.
  unfold ListHelpers.zip. set (n := length a `max` length b).
  destruct (zip_loop
              (λ i, ListHelpers.tuple (ListHelpers.element a i)
                                      (ListHelpers.element b i))
              n 0 (replicate n None)) as [Hlength Hlookup].
  { by rewrite length_replicate. }
  rewrite length_replicate in Hlength. split; [done|].
  intros i Hi. rewrite Hlookup. by rewrite decide_True by lia.
Qed.

(** X3.  [zip] is as long as the longer of the two arrays, has no hole, and
    holds at each index the tuple of the two elements there, with
    [undefined] where an array has a hole or has ended. *)
Theorem zip_pads_with_undefined (a b : list (option value)) :
  length (ListHelpers.zip a b) = length a `max` length b ∧
  ∀ i, i < length a `max` length b →
    ListHelpers.zip a b !! i
    = Some (Some (ListHelpers.tuple (ListHelpers.element a i)
                                    (ListHelpers.element b i))).
Proof.
  unfold ListHelpers.zip. set (n := length a `max` length b).
  destruct (zip_loop
              (λ i, ListHelpers.tuple (ListHelpers.element a i)
                                      (ListHelpers.element b i))
              n 0 (replicate n None)) as [Hlength Hlookup].
  { by rewrite length_replicate. }
  rewrite length_replicate in Hlength. split; [done|].
  intros i Hi. rewrite Hlookup. by rewrite decide_True by lia.
Qed.

Lemma tuple_components (x y : value) :
  get (ListHelpers.tuple x y) "0" = x ∧ get (ListHelpers.tuple x y) "1" = y.
Proof. split; reflexivity. Qed.

(** X4.  The tuples of [zip] give the arrays back: for two arrays without
    holes and of the same length, the first components are the first
    array and the second components the second. *)
Theorem zip_unzip (xs ys : list value) :
  length xs = length ys →
  (λ e, get (default VUndefined e) "0")
    <$> ListHelpers.zip (Some <$> xs) (Some <$> ys) = xs ∧
  (λ e, get (default VUndefined e) "1")
    <$> ListHelpers.zip (Some <$> xs) (Some <$> ys) = ys.
Proof.
  intros Hlen.
  destruct (zip_entries (Some <$> xs) (Some <$> ys)) as [Hlength Hlookup].
  rewrite !length_fmap in Hlength, Hlookup.
  assert (∀ (zs : list value) i,
    ListHelpers.element (Some <$> zs) i = default VUndefined (zs !! i))
    as Helement.
  { intros zs i. unfold ListHelpers.element. rewrite list_lookup_fmap.
    by destruct (zs !! i). }
  split; apply list_eq; intros i; rewrite list_lookup_fmap.
  - destruct (decide (i < length xs)) as [Hi|Hi].
    + rewrite Hlookup by lia. cbn [fmap option_fmap option_map default]. unfold id.
      rewrite (proj1 (tuple_components _ _)), Helement.
      destruct (lookup_lt_is_Some_2 xs i Hi) as [x Hx]. by rewrite Hx.
    + rewrite (lookup_ge_None_2 xs) by lia.
      by rewrite lookup_ge_None_2 by lia.
  - destruct (decide (i < length ys)) as [Hi|Hi].
    + rewrite Hlookup by lia. cbn [fmap option_fmap option_map default]. unfold id.
      rewrite (proj2 (tuple_components _ _)), Helement.
      destruct (lookup_lt_is_Some_2 ys i Hi) as [y Hy]. by rewrite Hy.
    + rewrite (lookup_ge_None_2 ys) by lia.
      by rewrite lookup_ge_None_2 by lia.
Qed.

Lemma zip_unzip_witness :
  length [VNum 1; VNum 2] = length [VStr [97%N]; VStr [98%N]] ∧
  (λ e, get (default VUndefined e) "0")
    <$> ListHelpers.zip (Some <$> [VNum 1; VNum 2])
                        (Some <$> [VStr [97%N]; VStr [98%N]])
  = [VNum 1; VNum 2] ∧
  (λ e, get (default VUndefined e) "1")
    <$> ListHelpers.zip (Some <$> [VNum 1; VNum 2])
                        (Some <$> [VStr [97%N]; VStr [98%N]])
  = [VStr [97%N]; VStr [98%N]].
Proof.
  split; [reflexivity|].
  apply (zip_unzip [VNum 1; VNum 2] [VStr [97%N]; VStr [98%N]]). reflexivity.
Defined.

(** The loop of [partition] appends to the parts it is given. *)
Lemma partition_loop_filter (p : value → bool) (arr : list (option value)) :
  ∀ truePart falsePart,
    ListHelpers.partition_loop arr (Some p) truePart falsePart
    = ListHelpers.Parts
        (truePart ++ (Some <$> List.filter p (default VUndefined <$> arr)))
        (falsePart
           ++ (Some <$> List.filter (λ x, negb (p x))
                                    (default VUndefined <$> arr))).
Proof.
  induction arr as [|e arr IH]; intros truePart falsePart; simpl.
  { by rewrite !app_nil_r. }
  destruct (p (default VUndefined e)); simpl; rewrite IH;
    unfold ListHelpers.push; by rewrite <- app_assoc.
Qed.

(** X5.  With a predicate that is a function, [partition] returns the items
    that satisfy it and the items that do not, each part in the order of
    the array; a hole counts as [undefined].  Every item is in one part:
    the two parts together are a rearrangement of the items. *)
Theorem partition_splits_in_order (p : value → bool)
    (arr : list (option value)) :
  ListHelpers.partition arr (Some p)
  = ListHelpers.Parts
      (Some <$> List.filter p (default VUndefined <$> arr))
      (Some <$> List.filter (λ x, negb (p x)) (default VUndefined <$> arr))
  ∧ List.filter p (default VUndefined <$> arr)
      ++ List.filter (λ x, negb (p x)) (default VUndefined <$> arr)
    ≡ₚ default VUndefined <$> arr.
Proof.
  split; [apply partition_loop_filter|].
  induction (default VUndefined <$> arr) as [|x items IH]; [done|]. simpl.
  destruct (p x); simpl.
  - by rewrite IH.
  - rewrite <- Permutation_middle. by rewrite IH.
Qed.

(** X6.  [partition] checks its predicate inside the loop: with a
    predicate that is not a function it throws exactly when the array
    has an item, and returns two empty parts on the empty array; with a
    function it never throws. *)
Theorem partition_throws_iff (arr : list (option value)) :
  (ListHelpers.partition arr None = ListHelpers.ThrowsPredicate ↔ arr ≠ []) ∧
  ListHelpers.partition [] None = ListHelpers.Parts [] [] ∧
  ∀ p, ListHelpers.partition arr (Some p) ≠ ListHelpers.ThrowsPredicate.
Proof.
  split; [|split; [done|]].
  - by destruct arr.
  - intros p. unfold ListHelpers.partition. by rewrite partition_loop_filter.
Qed.

(** ** The type predicates and their combinators *)

Lemma any_loop_functions {T} (ps : list (T → bool)) (c : T) :
  Base.any_loop (Some <$> ps) c = Base.Answers (existsb (λ p, p c) ps).
Proof.
  induction ps as [|p ps IH]; [done|]. simpl. by destruct (p c).
Qed.

Lemma all_loop_functions {T} (ps : list (T → bool)) (c : T) :
  Base.all_loop (Some <$> ps) c = Base.Answers (forallb (λ p, p c) ps).
Proof.
  induction ps as [|p ps IH]; [done|]. simpl. by destruct (p c).
Qed.

Lemma isAnyOf_loop {T} (predicates : list (option (T → bool))) (c : T) :
  Base.isAnyOf predicates c = Base.any_loop predicates c.
Proof. by destruct predicates. Qed.

Lemma isAllOf_loop {T} (predicates : list (option (T → bool))) (c : T) :
  Base.isAllOf predicates c = Base.all_loop predicates c.
Proof. by destruct predicates. Qed.

(** X7.  On a list of functions, [isAnyOf] answers whether some predicate
    holds of the candidate and [isAllOf] whether all do; with no
    predicate, [isAnyOf] answers [false] and [isAllOf] answers [true]. *)
Theorem isAnyOf_isAllOf_functions {T} (ps : list (T → bool)) (c : T) :
  Base.isAnyOf (Some <$> ps) c = Base.Answers (existsb (λ p, p c) ps) ∧
  Base.isAllOf (Some <$> ps) c = Base.Answers (forallb (λ p, p c) ps) ∧
  Base.isAnyOf [] c = Base.Answers false ∧
  Base.isAllOf [] c = Base.Answers true.
Proof.
  rewrite isAnyOf_loop, isAllOf_loop.
  by rewrite any_loop_functions, all_loop_functions.
Qed.

(** X8.  The combinators stop at the first predicate that decides, and
    look at a member only when they reach it: [isAnyOf] throws exactly
    when a member that is not a function comes after functions that all
    fail on the candidate, and [isAllOf] exactly when it comes after
    functions that all hold.  A member that is not a function behind a
    deciding predicate goes unnoticed. *)
Theorem isAnyOf_isAllOf_throw_iff {T}
    (predicates : list (option (T → bool))) (c : T) :
  (Base.isAnyOf predicates c = Base.ThrowsNotFunction ↔
   ∃ before rest, predicates = (Some <$> before) ++ None :: rest ∧
                  existsb (λ p, p c) before = false) ∧
  (Base.isAllOf predicates c = Base.ThrowsNotFunction ↔
   ∃ before rest, predicates = (Some <$> before) ++ None :: rest ∧
                  forallb (λ p, p c) before = true).
Proof.
  rewrite isAnyOf_loop, isAllOf_loop. split.
  - induction predicates as [|[p|] predicates IH]; simpl.
    + split; [done|]. intros (before & rest & Heq & _). by destruct before.
    + destruct (p c) eqn:Hp.
      * split; [done|]. intros (before & rest & Heq & Hnone).
        destruct before as [|q before]; simplify_eq/=. by rewrite Hp in Hnone.
      * rewrite IH. split.
        -- intros (before & rest & -> & Hnone). exists (p :: before), rest.
           simpl. by rewrite Hp.
        -- intros (before & rest & Heq & Hnone).
           destruct before as [|q before]; simplify_eq/=.
           rewrite Hp in Hnone. eauto.
    + split; [|done]. intros _. by exists [], predicates.
  - induction predicates as [|[p|] predicates IH]; simpl.
    + split; [done|]. intros (before & rest & Heq & _). by destruct before.
    + destruct (p c) eqn:Hp; simpl.
      * rewrite IH. split.
        -- intros (before & rest & -> & Hall). exists (p :: before), rest.
           simpl. by rewrite Hp.
        -- intros (before & rest & Heq & Hall).
           destruct before as [|q before]; simplify_eq/=.
           rewrite Hp in Hall. eauto.
      * split; [done|]. intros (before & rest & Heq & Hall).
        destruct before as [|q before]; simplify_eq/=. by rewrite Hp in Hall.
    + split; [|done]. intros _. by exists [], predicates.
Qed.

(** X9.  De Morgan: some predicate holds exactly when not every negated
    predicate holds, and the two combinators throw on the same lists. *)
Theorem isAnyOf_de_morgan {T} (predicates : list (option (T → bool))) (c : T) :
  Base.isAnyOf predicates c
  = Base.negate
      (Base.isAllOf (fmap (M := option) (λ (p : T → bool) x, negb (p x))
                      <$> predicates) c) ∧
  Base.isAllOf predicates c
  = Base.negate
      (Base.isAnyOf (fmap (M := option) (λ (p : T → bool) x, negb (p x))
                      <$> predicates) c).
Proof.
  rewrite !isAnyOf_loop, !isAllOf_loop.
  split; induction predicates as [|[p|] predicates IH]; simpl; try done;
    by destruct (p c).
Qed.

(** X10.  The type predicates [isString], [isNumber], [isBoolean],
    [isFunction], [isUndefined], [isNull] and [isObject] exclude one
    another; [isObject] rejects [null]; an array is an object. *)
Theorem type_predicates_exclusive (a : value) :
  length (List.filter (λ p : value → bool, p a)
            [Base.isString; Base.isNumber; Base.isBoolean; Base.isFunction;
             Base.isUndefined; Base.isNull; Base.isObject]) ≤ 1 ∧
  (Base.isNull a = true → Base.isObject a = false) ∧
  (Base.isArray a = true → Base.isObject a = true).
Proof. by destruct a; repeat split; simpl; try lia. Qed.

(** ** [pick] and [omit], further *)

Lemma has_property_true (c : value) (k : string) :
  has_property c k = Returns true → lookup_property c k = Some (get c k).
Proof.
  unfold get. destruct c; try done; simpl;
    intros [= [x ->]%bool_decide_eq_true]; done.
Qed.

Lemma has_property_false (c : value) (k : string) :
  has_property c k = Returns false → lookup_property c k = None.
Proof.
  destruct c; try done; simpl; intros [= Hno%bool_decide_eq_false];
    by apply eq_None_not_Some.
Qed.

(** Once the loop of [pick] has stopped it stays stopped. *)
Lemma pick_fold_stopped (obj : value) (keys : list string)
    (s : outcome (gmap string value)) :
  (∀ object, s ≠ Returns object) →
  foldl (λ (acc : outcome (gmap string value)) key,
           object ← acc;
           present ← has_property obj key;
           if present : bool
           then assign object key (get obj key)
           else Returns object)
        s keys = s.
Proof.
  intros Hs. induction keys as [|key keys IH]; [done|]. cbn [foldl].
  destruct s as [object| |]; [by destruct (Hs object)|done..].
Qed.

(** The loop of [pick], whenever it returns: at a key other than
    [__proto__] the result holds what the source has there, as an own or
    an inherited property, when the key is listed. *)
Lemma pick_fold_returns (obj : value) (keys : list string) :
  ∀ acc object : gmap string value,
    foldl (λ (acc : outcome (gmap string value)) key,
             object ← acc;
             present ← has_property obj key;
             if present : bool
             then assign object key (get obj key)
             else Returns object)
          (Returns acc) keys = Returns object →
    ∀ k, k ≠ "__proto__" →
      object !! k
      = if decide (k ∈ keys)
        then match lookup_property obj k with
             | Some x => Some x
             | None => acc !! k
             end
        else acc !! k.
Proof.
  induction keys as [|key keys IH]; intros acc object Hfold k Hk.
  { injection Hfold as <-. by rewrite decide_False by apply not_elem_of_nil. }
  cbn [foldl] in Hfold. cbn [mbind outcome_bind] in Hfold.
  destruct (present ← has_property obj key;
            if present : bool then assign acc key (get obj key)
            else Returns acc) as [acc'|e|] eqn:Hstep;
    [|by rewrite pick_fold_stopped in Hfold..].
  rewrite (IH acc' object Hfold k Hk). clear IH Hfold.
  assert (acc' !! k
          = if decide (k = key)
            then match lookup_property obj k with
                 | Some x => Some x
                 | None => acc !! k
                 end
            else acc !! k) as Hacc'.
  { destruct (has_property obj key) as [[]|e|] eqn:Hhas; simplify_eq/=.
    - apply has_property_true in Hhas. unfold assign in Hstep.
      case_decide as Hproto.
      + destruct Hproto as [-> _]. rewrite decide_False by done.
        by destruct (keeps_prototype _ _); simplify_eq.
      + injection Hstep as <-. case_decide as Hkey.
        * subst key. by rewrite Hhas, lookup_insert_eq.
        * by rewrite lookup_insert_ne.
    - apply has_property_false in Hhas. case_decide as Hkey; [|done].
      subst key. by rewrite Hhas. }
  rewrite Hacc'.
  destruct (decide (k ∈ keys)) as [Hin|Hout].
  - rewrite (decide_True (P := k ∈ key :: keys)) by by right.
    destruct (lookup_property obj k); [done|]. by case_decide.
  - destruct (decide (k = key)) as [->|Hne].
    + by rewrite (decide_True (P := key ∈ key :: keys))
        by apply list_elem_of_here.
    + by rewrite (decide_False (P := k ∈ key :: keys))
        by (rewrite not_elem_of_cons; auto).
Qed.

(** X11.  [pick] of a Record, for listed keys other than [__proto__]:
    the result has exactly the listed keys that the source has, as its
    own or through its prototype, each with the value the source has
    there.  When no listed key is a name that a plain object inherits,
    its entries are entries of the source and its keys are the keys of
    the source that are listed.  A listed key that the source does not
    have gives no entry, and neither the order nor the repetition of the
    keys matters. *)
Theorem pick_selects (props : gmap string value) (keys : list string) :
  "__proto__" ∉ keys →
  ∃ object, pick (VObj props) keys = Returns (VObj object) ∧
    (∀ k, object !! k = if decide (k ∈ keys)
                        then lookup_property (VObj props) k else None) ∧
    ((∀ k, k ∈ keys → object_inherits k = false) →
     object ⊆ props ∧ dom object = dom props ∩ list_to_set keys) ∧
    ∀ keys', (∀ k, k ∈ keys ↔ k ∈ keys') →
             pick (VObj props) keys' = Returns (VObj object).
Proof.
  intros Hproto.
  assert (∀ K, "__proto__" ∉ K →
    ∃ object, pick (VObj props) K = Returns (VObj object) ∧
      ∀ k, object !! k = if decide (k ∈ K)
                         then lookup_property (VObj props) k else None)
    as Hpick.
  { intros K HK.
    destruct (pick_lookup (VObj props) K) as (object & -> & Hobject);
      [done..|].
    exists object. split; [done|]. intros j. rewrite Hobject.
    destruct (decide (j ∈ K)) as [Hj|Hj].
    - rewrite decide_True; [done|]. split; [done|]. by intros ->.
    - rewrite decide_False; [done|]. by intros [? _]. }
  destruct (Hpick keys Hproto) as (object & Hobject & Hlookup).
  exists object. split; [done|]. split; [done|]. split.
  - intros Hown.
    assert (∀ k, object !! k = if decide (k ∈ keys) then props !! k else None)
      as Hlookup'.
    { intros k. rewrite Hlookup. case_decide; [|done].
      by apply lookup_property_obj, Hown. }
    split.
    + apply map_subseteq_spec. intros k v. rewrite Hlookup'.
      by case_decide.
    + apply set_eq. intros k.
      rewrite elem_of_intersection, !elem_of_dom, elem_of_list_to_set,
        Hlookup'.
      case_decide; [naive_solver|]. split; [by intros ?%is_Some_None|].
      naive_solver.
  - intros keys' Hsame.
    destruct (Hpick keys') as (object' & -> & Hlookup').
    { by rewrite <- Hsame. }
    do 2 f_equal. apply map_eq. intros k. rewrite Hlookup, Hlookup'.
    destruct (decide (k ∈ keys)) as [Hk|Hk].
    + by rewrite decide_True by by apply Hsame.
    + by rewrite decide_False by by rewrite <- Hsame.
Qed.

Lemma pick_selects_witness :
  ("__proto__" ∉ ["a"; "toString"; "z"]) ∧
  ∃ object,
    pick (VObj {[ "a" := VNum 1; "b" := VNum 2 ]}) ["a"; "toString"; "z"]
    = Returns (VObj object) ∧
    (∀ k, object !! k
          = if decide (k ∈ ["a"; "toString"; "z"])
            then lookup_property (VObj {[ "a" := VNum 1; "b" := VNum 2 ]}) k
            else None) ∧
    ((∀ k, k ∈ ["a"; "toString"; "z"] → object_inherits k = false) →
     object ⊆ {[ "a" := VNum 1; "b" := VNum 2 ]} ∧
     dom object
     = dom ({[ "a" := VNum 1; "b" := VNum 2 ]} : gmap string value)
       ∩ list_to_set ["a"; "toString"; "z"]) ∧
    ∀ keys', (∀ k, k ∈ ["a"; "toString"; "z"] ↔ k ∈ keys') →
             pick (VObj {[ "a" := VNum 1; "b" := VNum 2 ]}) keys'
             = Returns (VObj object).
Proof.
  assert ("__proto__" ∉ ["a"; "toString"; "z"]) as Hkeys.
  { repeat (apply not_elem_of_cons; split; [done|]). apply not_elem_of_nil. }
  split; [exact Hkeys|].
  exact (pick_selects {[ "a" := VNum 1; "b" := VNum 2 ]}
           ["a"; "toString"; "z"] Hkeys).
Defined.

(** X12.  [omit] of a Record is the Record without the listed keys: its
    entries are entries of the source, and its keys are the keys of the
    source that are not listed.  A listed key that the source does not
    have changes nothing, and with no key listed the result equals the
    source. *)
Theorem omit_removes (props : gmap string value) (keys : list string) :
  ∃ object, omit (VObj props) keys = VObj object ∧
    object ⊆ props ∧
    dom object = dom props ∖ list_to_set keys ∧
    ((∀ k, k ∈ keys → props !! k = None) → object = props).
Proof.
  destruct (omit_lookup (VObj props) keys) as (object & Homit & Hobject).
  simpl in Hobject.
  exists object. split; [done|]. split; [|split].
  - apply map_subseteq_spec. intros k v. rewrite Hobject.
    by case_decide.
  - apply set_eq. intros k.
    rewrite elem_of_difference, !elem_of_dom, elem_of_list_to_set, Hobject.
    case_decide; [|naive_solver]. split; [by intros ?%is_Some_None|].
    naive_solver.
  - intros Habsent. apply map_eq. intros k. rewrite Hobject.
    case_decide; [|done]. symmetry. by apply Habsent.
Qed.



(** ** Array indices *)

Lemma digit_of_pretty_char (d : N) :
  (d < 10)%N → digit_of (pretty_N_char d) = Some d.
Proof.
  intros Hd.
  assert (d = 0 ∨ d = 1 ∨ d = 2 ∨ d = 3 ∨ d = 4 ∨ d = 5 ∨ d = 6 ∨ d = 7
          ∨ d = 8 ∨ d = 9)%N as Hcases by lia.
  by repeat destruct Hcases as [->|Hcases]; try subst d.
Qed.

(** Reading back the digits that [pretty] writes in front of a string. *)
Lemma parse_pretty_go (x : N) :
  ∃ m, ∀ acc s,
    parse_digits acc (pretty_N_go x s) = parse_digits (acc * m + x)%N s.
Proof.
  induction (N.lt_wf_0 x) as [x _ IH].
  destruct (decide (x = 0)%N) as [->|Hx].
  { exists 1%N. intros acc s. rewrite pretty_N_go_0. f_equal. lia. }
  assert (x `div` 10 < x)%N as Hlt by (apply N.div_lt; lia).
  destruct (IH _ Hlt) as [m Hm].
  exists (10 * m)%N. intros acc s.
  rewrite pretty_N_go_step, Hm by lia. simpl.
  rewrite digit_of_pretty_char by (apply N.mod_lt; lia).
  f_equal. pose proof (N.div_mod x 10). lia.
Qed.

Lemma parse_pretty (n : N) : parse_digits 0 (pretty n) = Some n.
Proof.
  unfold pretty, pretty_N. case_decide as Hn; [by subst|].
  destruct (parse_pretty_go n) as [m Hm]. by rewrite Hm.
Qed.

(** The decimal form of a number below [2^32 - 1] is an array index, and
    names that number. *)
Lemma array_index_pretty (i : nat) :
  (N.of_nat i < 4294967295)%N →
  array_index (pretty (N.of_nat i)) = Some i.
Proof.
  intros Hi. unfold array_index. rewrite parse_pretty.
  rewrite decide_True by done. by rewrite Nat2N.id.
Qed.

Lemma parse_digits_dot_free (s : string) : ∀ acc n,
  parse_digits acc s = Some n → dot_free s = true.
Proof.
  induction s as [|c s IH]; intros acc n; [done|]. simpl.
  destruct (digit_of c) as [d|] eqn:Hd; [|done]. intros Hparse.
  rewrite (IH _ _ Hparse), andb_true_r.
  apply negb_true_iff, bool_decide_eq_false. by intros ->.
Qed.

Lemma split_dot_pretty (n : N) : split_dot (pretty n) = [pretty n].
Proof.
  apply split_dot_dot_free. eapply parse_digits_dot_free, parse_pretty.
Qed.

Lemma write_index_length (c : list (option value)) (i : nat) (x : value) :
  length (write_index c i x) = length c `max` S i.
Proof.
  unfold write_index. case_decide.
  - rewrite length_insert. lia.
  - rewrite !length_app, length_replicate. simpl. lia.
Qed.

Lemma write_index_lookup_ne (c : list (option value)) (i j : nat)
    (x : value) :
  j ≠ i →
  write_index c i x !! j
  = if decide (j < length c) then c !! j
    else if decide (j < i) then Some None else None.
Proof.
  intros Hne. unfold write_index. case_decide as Hi.
  - rewrite list_lookup_insert_ne by done.
    case_decide; [done|]. rewrite decide_False by lia.
    apply lookup_ge_None. lia.
  - case_decide as Hj; [by rewrite lookup_app_l|].
    rewrite lookup_app_r by lia. case_decide.
    + rewrite lookup_app_l by (rewrite length_replicate; lia).
      apply lookup_replicate. split; [done|lia].
    + apply lookup_ge_None.
      rewrite length_app, length_replicate. simpl. lia.
Qed.

(** ** [set], further *)

Lemma set_first_segment (p : string) (root v r : value) :
  set p root v = Returns r →
  ∃ k rest x,
    split_dot p = k :: rest ∧ is_container root = true ∧
    recursor (get root k) rest v = Returns x ∧
    put (shallow_copy root) k x = Returns r.
Proof.
  destruct (decide (p = "")) as [->|Hp]; [done|].
  rewrite set_nonempty by done.
  destruct (split_dot p) as [|k rest] eqn:Hsplit;
    [by apply split_dot_nonempty in Hsplit|].
  destruct (is_container root) eqn:Hroot;
    [|by rewrite recursor_not_container].
  rewrite recursor_container by done.
  destruct (recursor (get root k) rest v) as [x| |] eqn:Hx; [|done..].
  intros Hput. by exists k, rest, x.
Qed.

(** On a path without the names that the host handles itself, [set]
    returns or throws the intermediate error. *)
Lemma recursor_ordinary (current : value) (keys : list string) (v : value) :
  ordinary_path keys →
  (∃ r, recursor current keys v = Returns r) ∨
  recursor current keys v = Throws InvalidIntermediateError.
Proof.
  intros Hpath.
  pose proof (recursor_returns_iff current keys v Hpath) as Hreturns.
  pose proof (recursor_throws_iff current keys v) as Hthrows.
  assert (recursor current keys v ≠ Throws InvalidIntermediateError →
          ∃ r, recursor current keys v = Returns r) as Hother.
  { intros Hno. apply Hreturns. intros x Hx.
    destruct (is_container x) eqn:Hc; [done|].
    destruct Hno. apply Hthrows. eauto. }
  destruct (recursor current keys v) as [r|e|] eqn:Hr.
  - left. eauto.
  - destruct (recursor_throws _ _ _ _ Hr) as [->| ->]; [by right|].
    left. by apply Hother.
  - left. by apply Hother.
Qed.

(** X14.  [set] returns a container of the kind of its root: a Record for
    a Record, a Sequence for a Sequence; it never returns the value
    itself or a primitive. *)
Theorem set_keeps_kind (p : string) (root v r : value) :
  set p root v = Returns r →
  is_container r = true ∧ is_array r = is_array root.
Proof.
  intros (k & rest & x & _ & Hroot & _ & Hput)%set_first_segment.
  apply put_kind in Hput as [Hr Harray]. split; [done|].
  by rewrite Harray, shallow_copy_is_array.
Qed.

Lemma set_keeps_kind_witness :
  set "1" (VArr [Some (VNum 1)] ∅) (VNum 2)
    = Returns (VArr [Some (VNum 1); Some (VNum 2)] ∅) ∧
  is_container (VArr [Some (VNum 1); Some (VNum 2)] ∅) = true ∧
  is_array (VArr [Some (VNum 1); Some (VNum 2)] ∅)
    = is_array (VArr [Some (VNum 1)] ∅).
Proof.
  assert (set "1" (VArr [Some (VNum 1)] ∅) (VNum 2)
          = Returns (VArr [Some (VNum 1); Some (VNum 2)] ∅)) as Hset
    by (vm_compute; reflexivity).
  split; [exact Hset|]. exact (set_keeps_kind _ _ _ _ Hset).
Defined.

(** X15.  On a Record and a path whose first segment is not [__proto__],
    [set] touches the first segment's key only: the result is a Record
    with that key added to the keys of the root, every other entry is the
    root's entry, and reading along any path that starts at another key
    gives what it gave on the root. *)
Theorem set_record_siblings (p : string) (props : gmap string value)
    (v r : value) (k : string) (rest : list string) :
  split_dot p = k :: rest → k ≠ "__proto__" →
  set p (VObj props) v = Returns r →
  ∃ props',
    r = VObj props' ∧
    dom props' = {[k]} ∪ dom props ∧
    (∀ k', k' ≠ k → props' !! k' = props !! k') ∧
    (∀ k' q, k' ≠ k →
       read_path r (k' :: q) = read_path (VObj props) (k' :: q)).
Proof.
  intros Hsplit Hk (k0 & rest0 & x & Hsplit' & _ & _ & Hput)%set_first_segment.
  rewrite Hsplit in Hsplit'. injection Hsplit' as <- <-.
  cbn in Hput. rewrite assign_ordinary in Hput by done.
  injection Hput as <-.
  exists (<[k := x]> props). split; [done|].
  split; [apply dom_insert_L|]. split.
  - intros k' Hk'. by rewrite lookup_insert_ne.
  - intros k' q Hk'. cbn [read_path is_container]. unfold get.
    rewrite (lookup_property_obj_ext (<[k := x]> props) props); [done|].
    by rewrite lookup_insert_ne.
Qed.

Lemma set_record_siblings_witness :
  split_dot "a.b" = "a" :: ["b"] ∧ "a" ≠ "__proto__" ∧
  set "a.b" (VObj {[ "a" := VObj ∅; "c" := VNum 3 ]}) (VNum 42)
    = Returns (VObj {[ "a" := VObj {[ "b" := VNum 42 ]}; "c" := VNum 3 ]}) ∧
  ∃ props',
    VObj {[ "a" := VObj {[ "b" := VNum 42 ]}; "c" := VNum 3 ]} = VObj props' ∧
    dom props' = {["a"]} ∪ dom ({[ "a" := VObj ∅; "c" := VNum 3 ]}
                                : gmap string value) ∧
    (∀ k', k' ≠ "a" →
       props' !! k'
       = ({[ "a" := VObj ∅; "c" := VNum 3 ]} : gmap string value) !! k') ∧
    (∀ k' q, k' ≠ "a" →
       read_path (VObj {[ "a" := VObj {[ "b" := VNum 42 ]}; "c" := VNum 3 ]})
                 (k' :: q)
       = read_path (VObj {[ "a" := VObj ∅; "c" := VNum 3 ]}) (k' :: q)).
Proof.
  assert (set "a.b" (VObj {[ "a" := VObj ∅; "c" := VNum 3 ]}) (VNum 42)
          = Returns (VObj {[ "a" := VObj {[ "b" := VNum 42 ]};
                             "c" := VNum 3 ]})) as Hset
    by (vm_compute; reflexivity).
  split; [reflexivity|]. split; [done|]. split; [exact Hset|].
  exact (set_record_siblings "a.b" _ _ _ "a" ["b"] eq_refl
           ltac:(done) Hset).
Defined.

(** X16.  On a Sequence, a first segment that is the decimal form of an
    index [i] addresses the element [i].  The result is a Sequence
    without named properties whose element [i] is the updated element;
    the other elements up to the old length are the root's, a hole having
    become [undefined]; and when [i] lies past the end, the Sequence
    grows to length [i + 1] and the gap is left as holes. *)
Theorem set_sequence_index (p : string) (elems : list (option value))
    (extra : gmap string value) (v r : value) (i : nat)
    (rest : list string) :
  (N.of_nat i < 4294967295)%N →
  split_dot p = pretty (N.of_nat i) :: rest →
  set p (VArr elems extra) v = Returns r →
  ∃ x elems',
    recursor (ListHelpers.element elems i) rest v = Returns x ∧
    r = VArr elems' ∅ ∧
    length elems' = length elems `max` S i ∧
    elems' !! i = Some (Some x) ∧
    (∀ j, j < length elems → j ≠ i →
       elems' !! j = Some (Some (ListHelpers.element elems j))) ∧
    (∀ j, length elems ≤ j < i → elems' !! j = Some None).
Proof.
  intros Hi Hsplit (k & rest' & x & Hsplit' & _ & Hx & Hput)%set_first_segment.
  rewrite Hsplit in Hsplit'. injection Hsplit' as <- <-.
  unfold get in Hx. cbn [lookup_property] in Hx.
  rewrite array_index_pretty in Hx by done.
  cbn in Hput. rewrite array_index_pretty in Hput by done.
  injection Hput as <-.
  exists x, (write_index ((λ e, Some (default VUndefined e)) <$> elems) i x).
  split; [done|]. split; [done|].
  split; [by rewrite write_index_length, length_fmap|].
  split; [apply write_index_lookup|]. split.
  - intros j Hj Hne. rewrite write_index_lookup_ne by done.
    rewrite length_fmap, decide_True by done.
    rewrite list_lookup_fmap. unfold ListHelpers.element.
    destruct (lookup_lt_is_Some_2 elems j Hj) as [e ->]. by destruct e.
  - intros j Hj. rewrite write_index_lookup_ne by lia.
    rewrite length_fmap, decide_False, decide_True by lia. done.
Qed.

Lemma set_sequence_index_witness :
  (N.of_nat 3 < 4294967295)%N ∧
  split_dot "3" = pretty (N.of_nat 3) :: [] ∧
  set "3" (VArr [Some (VNum 1); None] ∅) (VNum 2)
    = Returns (VArr [Some (VNum 1); Some VUndefined; None; Some (VNum 2)] ∅) ∧
  ∃ x elems',
    recursor (ListHelpers.element [Some (VNum 1); None] 3) [] (VNum 2)
      = Returns x ∧
    VArr [Some (VNum 1); Some VUndefined; None; Some (VNum 2)] ∅
      = VArr elems' ∅ ∧
    length elems' = length [Some (VNum 1); (None : option value)] `max` 4 ∧
    elems' !! 3 = Some (Some x) ∧
    (∀ j, j < length [Some (VNum 1); (None : option value)] → j ≠ 3 →
       elems' !! j
       = Some (Some (ListHelpers.element [Some (VNum 1); None] j))) ∧
    (∀ j, length [Some (VNum 1); (None : option value)] ≤ j < 3 →
       elems' !! j = Some None).
Proof.
  assert (set "3" (VArr [Some (VNum 1); None] ∅) (VNum 2)
          = Returns (VArr [Some (VNum 1); Some VUndefined; None;
                           Some (VNum 2)] ∅)) as Hset
    by (vm_compute; reflexivity).
  split; [done|]. split; [reflexivity|]. split; [exact Hset|].
  exact (set_sequence_index "3" [Some (VNum 1); None] ∅ (VNum 2) _ 3 []
           ltac:(done) ltac:(reflexivity) Hset).
Defined.

(** X17.  On a Sequence, a first segment that is neither an array index
    nor [length] nor [__proto__] names a property of the Sequence.
    [set] copies the elements only: the result has them, a hole having
    become [undefined], and has the segment as its one named property;
    the named properties of the root are not in it. *)
Theorem set_sequence_named (p : string) (elems : list (option value))
    (extra : gmap string value) (v r : value) (k : string)
    (rest : list string) :
  array_index k = None → k ≠ "length" → k ≠ "__proto__" →
  split_dot p = k :: rest →
  set p (VArr elems extra) v = Returns r →
  ∃ x,
    recursor (get (VArr elems extra) k) rest v = Returns x ∧
    r = VArr ((λ e, Some (default VUndefined e)) <$> elems) {[ k := x ]}.
Proof.
  intros Hk Hlength Hproto Hsplit
         (k' & rest' & x & Hsplit' & _ & Hx & Hput)%set_first_segment.
  rewrite Hsplit in Hsplit'. injection Hsplit' as <- <-.
  exists x. split; [done|]. cbn in Hput. rewrite Hk in Hput.
  rewrite decide_False in Hput by done.
  rewrite decide_False in Hput by (by intros [? _]).
  by injection Hput as <-.
Qed.

Lemma set_sequence_named_witness :
  array_index "name" = None ∧ "name" ≠ "length" ∧ "name" ≠ "__proto__" ∧
  split_dot "name" = ["name"] ∧
  set "name" (VArr [Some (VNum 1); None] {[ "other" := VNum 7 ]}) (VNum 2)
    = Returns (VArr [Some (VNum 1); Some VUndefined] {[ "name" := VNum 2 ]}) ∧
  ∃ x,
    recursor (get (VArr [Some (VNum 1); None] {[ "other" := VNum 7 ]}) "name")
             [] (VNum 2) = Returns x ∧
    VArr [Some (VNum 1); Some VUndefined] {[ "name" := VNum 2 ]}
    = VArr ((λ e, Some (default VUndefined e)) <$> [Some (VNum 1); None])
           {[ "name" := x ]}.
Proof.
  assert (set "name" (VArr [Some (VNum 1); None] {[ "other" := VNum 7 ]})
              (VNum 2)
          = Returns (VArr [Some (VNum 1); Some VUndefined]
                          {[ "name" := VNum 2 ]})) as Hset
    by (vm_compute; reflexivity).
  split; [reflexivity|]. split; [done|]. split; [done|].
  split; [reflexivity|]. split; [exact Hset|].
  exact (set_sequence_named "name" _ _ _ _ "name" []
           ltac:(reflexivity) ltac:(done) ltac:(done) ltac:(reflexivity)
           Hset).
Defined.

(** X18.  Whether [set] throws one of the two errors of the library
    depends on the path and on the root only: it throws the same one
    whatever the value to set.  On a path none of whose segments is
    [__proto__] and whose last segment is not [length] that holds of
    every error; the [RangeError] of the host for a bad array length
    does depend on the value. *)
Theorem set_failure_ignores_value (p : string) (root v1 v2 : value) :
  (set p root v1 = Throws InvalidPathError ↔
   set p root v2 = Throws InvalidPathError) ∧
  (set p root v1 = Throws InvalidIntermediateError ↔
   set p root v2 = Throws InvalidIntermediateError) ∧
  (ordinary_path (split_dot p) →
   ∀ e, set p root v1 = Throws e ↔ set p root v2 = Throws e) ∧
  set "length" (VArr [] ∅) (VNum 1) = Returns (VArr [None] ∅) ∧
  set "length" (VArr [] ∅) (VNum (-1)) = Throws RangeError.
Proof.
  split; [by rewrite !set_invalid_path_iff|].
  assert (∀ v v', set p root v = Throws InvalidIntermediateError →
                  set p root v' = Throws InvalidIntermediateError) as Himpl.
  { intros v v'. destruct (decide (p = "")) as [->|Hp]; [done|].
    rewrite !set_nonempty by done. by rewrite !recursor_throws_iff. }
  split; [split; apply Himpl|]. split; [|split; vm_compute; reflexivity].
  intros Hpath e.
  assert (∀ v v', set p root v = Throws e → set p root v' = Throws e)
    as Hany.
  { intros v v'. destruct (decide (p = "")) as [->|Hp]; [done|].
    intros Hv.
    assert (e = InvalidIntermediateError) as ->; [|by eapply Himpl].
    rewrite set_nonempty in Hv by done.
    destruct (recursor_ordinary root (split_dot p) v Hpath) as [[r Hr]|Hr];
      congruence. }
  split; apply Hany.
Qed.

(** ** [merge], further *)

(** X19.  Merging the same Record in twice is merging it in once: for a
    Record [b] in which no Record at any depth has an own key
    [hasOwnProperty] or [__proto__], [merge(merge(a, b), b)] is deeply
    equal to [merge(a, b)], whatever [a] is. *)
Theorem merge_absorbs (a b : value) :
  ordinary_keys b = true → is_record b = true →
  (m ← merge a b; merge m b) = merge a b.
Proof.
  revert a. induction b as [b Hb|props IH] using value_record_ind;
    intros a Hordinary Hrecord.
  { destruct (ordinary_record_inv b Hordinary Hrecord) as [props ->].
    by destruct (Hb props). }
  destruct (ordinary_keys_inv props Hordinary) as (_ & _ & Hnested).
  destruct (merge_lookup a props Hordinary) as (r & Hr & Hkey).
  rewrite Hr. cbn [mbind outcome_bind].
  destruct (merge_lookup (VObj r) props Hordinary) as (r' & -> & Hkey').
  do 2 f_equal. apply map_eq. intros k.
  specialize (Hkey k). specialize (Hkey' k). simpl in Hkey'.
  destruct (props !! k) as [bv|] eqn:Hk; [|by rewrite Hkey', Hkey].
  destruct (is_record bv) eqn:Hbv; [|by rewrite Hkey, Hkey'].
  destruct Hkey as (x & Hx & Hrk). destruct Hkey' as (x' & Hx' & ->).
  rewrite Hrk in Hx' |- *. simpl in Hx'.
  pose proof (IH k bv Hk (default (VObj ∅) (spread a !! k))
                (Hnested k bv Hk) Hbv) as Habsorbs.
  rewrite Hx in Habsorbs. cbn [mbind outcome_bind] in Habsorbs.
  rewrite Hx' in Habsorbs. by injection Habsorbs as ->.
Qed.

Lemma merge_absorbs_witness :
  ordinary_keys (VObj {[ "a" := VObj {[ "y" := VNum 2 ]} ]}) = true ∧
  is_record (VObj {[ "a" := VObj {[ "y" := VNum 2 ]} ]}) = true ∧
  (m ← merge (VObj {[ "a" := VObj {[ "x" := VNum 1 ]} ]})
             (VObj {[ "a" := VObj {[ "y" := VNum 2 ]} ]});
   merge m (VObj {[ "a" := VObj {[ "y" := VNum 2 ]} ]}))
  = merge (VObj {[ "a" := VObj {[ "x" := VNum 1 ]} ]})
          (VObj {[ "a" := VObj {[ "y" := VNum 2 ]} ]}).
Proof.
  split; [vm_compute; reflexivity|]. split; [reflexivity|].
  apply (merge_absorbs (VObj {[ "a" := VObj {[ "x" := VNum 1 ]} ]})
           (VObj {[ "a" := VObj {[ "y" := VNum 2 ]} ]}));
    [vm_compute; reflexivity|reflexivity].
Defined.

(** X20.  The empty Record is neutral for [merge] on both sides: merging
    it into a Record gives a Record deeply equal to that Record, and so
    does merging into it a Record in which no Record at any depth has an
    own key [hasOwnProperty] or [__proto__]. *)
Theorem merge_empty_neutral (a : gmap string value) :
  merge (VObj a) (VObj ∅) = Returns (VObj a) ∧
  (ordinary_keys (VObj a) = true →
   merge (VObj ∅) (VObj a) = Returns (VObj a)).
Proof.
  split; [|by intros Ha; apply merge_empty].
  by rewrite merge_record, map_fold_empty.
Qed.

(** X21.  [merge] is not commutative: where two Records, in which no
    Record at any depth has an own key [hasOwnProperty] or [__proto__],
    hold different values at a common key and neither value is a Record,
    each order keeps the value of its second argument, and the two
    results differ. *)
Theorem merge_second_wins (a b : gmap string value) (k : string)
    (av bv : value) :
  ordinary_keys (VObj a) = true → ordinary_keys (VObj b) = true →
  a !! k = Some av → b !! k = Some bv →
  is_record av = false → is_record bv = false → av ≠ bv →
  ∃ ab ba,
    merge (VObj a) (VObj b) = Returns (VObj ab) ∧
    merge (VObj b) (VObj a) = Returns (VObj ba) ∧
    ab !! k = Some bv ∧ ba !! k = Some av ∧
    merge (VObj a) (VObj b) ≠ merge (VObj b) (VObj a).
Proof.
  intros Hordinary_a Hordinary_b Ha Hb Hav Hbv Hne.
  destruct (merge_lookup (VObj a) b Hordinary_b) as (ab & Hab & Hkey).
  destruct (merge_lookup (VObj b) a Hordinary_a) as (ba & Hba & Hkey').
  specialize (Hkey k). specialize (Hkey' k).
  rewrite Hb, Hbv in Hkey. rewrite Ha, Hav in Hkey'.
  exists ab, ba. split; [done|]. split; [done|]. split; [done|].
  split; [done|]. rewrite Hab, Hba. intros [= ->]. congruence.
Qed.

Lemma merge_second_wins_witness :
  ordinary_keys (VObj {[ "b" := VNum 2 ]}) = true ∧
  ordinary_keys (VObj {[ "b" := VNum 42 ]}) = true ∧
  ({[ "b" := VNum 2 ]} : gmap string value) !! "b" = Some (VNum 2) ∧
  ({[ "b" := VNum 42 ]} : gmap string value) !! "b" = Some (VNum 42) ∧
  is_record (VNum 2) = false ∧ is_record (VNum 42) = false ∧
  VNum 2 ≠ VNum 42 ∧
  ∃ ab ba,
    merge (VObj {[ "b" := VNum 2 ]}) (VObj {[ "b" := VNum 42 ]})
      = Returns (VObj ab) ∧
    merge (VObj {[ "b" := VNum 42 ]}) (VObj {[ "b" := VNum 2 ]})
      = Returns (VObj ba) ∧
    ab !! "b" = Some (VNum 42) ∧ ba !! "b" = Some (VNum 2) ∧
    merge (VObj {[ "b" := VNum 2 ]}) (VObj {[ "b" := VNum 42 ]})
      ≠ merge (VObj {[ "b" := VNum 42 ]}) (VObj {[ "b" := VNum 2 ]}).
Proof.
  repeat (split; [done|]).
  apply (merge_second_wins {[ "b" := VNum 2 ]} {[ "b" := VNum 42 ]} "b"
           (VNum 2) (VNum 42)); done.
Defined.

(** The elements of an array, as properties, are found at the decimal
    forms of their indices. *)
Lemma index_entries_lookup (elems : list (option value)) : ∀ (s n : N),
  index_entries s elems !! pretty n
  = if decide (s ≤ n)%N then mjoin (elems !! N.to_nat (n - s)) else None.
Proof.
  induction elems as [|e elems IH]; intros s n; simpl.
  { rewrite lookup_empty. by case_decide. }
  assert (index_entries (N.succ s) elems !! pretty n
          = if decide (s < n)%N
            then mjoin (elems !! N.to_nat (n - N.succ s)) else None) as Hrest.
  { rewrite IH. destruct (decide (s < n)%N).
    - by rewrite decide_True by lia.
    - by rewrite decide_False by lia. }
  destruct (decide (n = s)) as [->|Hne].
  - rewrite decide_True, N.sub_diag by lia. simpl.
    destruct e as [x|]; [by rewrite lookup_insert_eq|].
    rewrite Hrest. by rewrite decide_False by lia.
  - assert (pretty s ≠ pretty n) by (by intros ?%(inj pretty)).
    assert (index_entries (N.succ s) elems !! pretty n
            = if decide (s ≤ n)%N
              then mjoin ((e :: elems) !! N.to_nat (n - s)) else None)
      as Hgoal.
    { rewrite Hrest. destruct (decide (s < n)%N).
      - rewrite decide_True by lia.
        replace (N.to_nat (n - s)) with (S (N.to_nat (n - N.succ s))) by lia.
        done.
      - by rewrite decide_False by lia. }
    destruct e as [x|]; [rewrite lookup_insert_ne by done|]; exact Hgoal.
Qed.

(** X22.  Merging a Record over a Sequence turns the Sequence into a
    Record: when [a] holds a Sequence at a key where [b] holds a Record,
    and no Record of [b] at any depth has an own key [hasOwnProperty] or
    [__proto__], the result holds there a Record that has the elements of
    the Sequence at the decimal forms of their indices, where [b]'s
    Record has no such key, and the entries of [b]'s Record that are not
    Records. *)
Theorem merge_over_sequence (a b : gmap string value) (k : string)
    (elems : list (option value)) (extra bm : gmap string value) :
  ordinary_keys (VObj b) = true →
  a !! k = Some (VArr elems extra) → b !! k = Some (VObj bm) →
  ∃ r rk,
    merge (VObj a) (VObj b) = Returns (VObj r) ∧ r !! k = Some (VObj rk) ∧
    (∀ i x, elems !! i = Some (Some x) →
            bm !! pretty (N.of_nat i) = None →
            rk !! pretty (N.of_nat i) = Some x) ∧
    (∀ j y, bm !! j = Some y → is_record y = false → rk !! j = Some y).
Proof.
  intros Hordinary Ha Hb.
  destruct (ordinary_keys_inv b Hordinary) as (_ & _ & Hnested).
  destruct (merge_lookup (VObj a) b Hordinary) as (r & Hr & Hkey).
  assert (is_record (VObj bm) = true) as Hrecord by done.
  specialize (Hkey k). rewrite Hb, Hrecord in Hkey. cbn [spread] in Hkey.
  rewrite Ha in Hkey. cbn [default] in Hkey. unfold id in Hkey.
  destruct Hkey as (rk & Hrk & Hlookup).
  destruct (merge_lookup (VArr elems extra) bm (Hnested k _ Hb))
    as (rk' & Hrk' & Hinner).
  rewrite Hrk in Hrk'. injection Hrk' as <-.
  exists r, rk. split; [done|]. split; [done|]. split.
  - intros i x Hi Hbm. specialize (Hinner (pretty (N.of_nat i))).
    rewrite Hbm in Hinner. rewrite Hinner. simpl.
    apply lookup_union_Some_raw. left.
    rewrite index_entries_lookup, decide_True by lia.
    by rewrite N.sub_0_r, Nat2N.id, Hi.
  - intros j y Hj Hy. specialize (Hinner j). by rewrite Hj, Hy in Hinner.
Qed.

Lemma merge_over_sequence_witness :
  ordinary_keys (VObj {[ "a" := VObj {[ "y" := VNum 2 ]} ]}) = true ∧
  ({[ "a" := VArr [Some (VNum 1)] ∅ ]} : gmap string value) !! "a"
    = Some (VArr [Some (VNum 1)] ∅) ∧
  ({[ "a" := VObj {[ "y" := VNum 2 ]} ]} : gmap string value) !! "a"
    = Some (VObj {[ "y" := VNum 2 ]}) ∧
  ∃ r rk,
    merge (VObj {[ "a" := VArr [Some (VNum 1)] ∅ ]})
          (VObj {[ "a" := VObj {[ "y" := VNum 2 ]} ]}) = Returns (VObj r) ∧
    r !! "a" = Some (VObj rk) ∧
    (∀ i x, [Some (VNum 1)] !! i = Some (Some x) →
            ({[ "y" := VNum 2 ]} : gmap string value)
              !! pretty (N.of_nat i) = None →
            rk !! pretty (N.of_nat i) = Some x) ∧
    (∀ j y, ({[ "y" := VNum 2 ]} : gmap string value) !! j = Some y →
            is_record y = false → rk !! j = Some y).
Proof.
  repeat (split; [done|]).
  apply (merge_over_sequence {[ "a" := VArr [Some (VNum 1)] ∅ ]}
           {[ "a" := VObj {[ "y" := VNum 2 ]} ]} "a"
           [Some (VNum 1)] ∅ {[ "y" := VNum 2 ]}); done.
Defined.

(** ** The path resolver, further *)

Lemma join_dot_cons (seg : string) (segments : list string) :
  segments ≠ [] →
  join_dot (seg :: segments) = seg +:+ String "." (join_dot segments).
Proof. by destruct segments. Qed.

Lemma join_dot_cons_char (c : ascii) (seg : string) (segments : list string) :
  join_dot (String c seg :: segments) = String c (join_dot (seg :: segments)).
Proof. by destruct segments. Qed.

(** X23.  Splitting a path at its dots loses nothing: there is always at
    least one segment, no segment contains a dot, and joining the
    segments with dots gives the path back. *)
Theorem split_dot_round_trip (path : string) :
  join_dot (split_dot path) = path ∧
  forallb dot_free (split_dot path) = true ∧
  split_dot path ≠ [].
Proof.
  split; [|split; [|apply split_dot_nonempty]].
  - induction path as [|c path IH]; [done|].
    destruct (decide (c = "."%char)) as [->|Hc].
    + rewrite split_dot_cons_dot, join_dot_cons by apply split_dot_nonempty.
      by rewrite IH.
    + destruct (split_dot_cons_other c path Hc) as (seg & segs & Hs & ->).
      by rewrite join_dot_cons_char, <- Hs, IH.
  - induction path as [|c path IH]; [done|].
    destruct (decide (c = "."%char)) as [->|Hc].
    + rewrite split_dot_cons_dot. simpl. exact IH.
    + destruct (split_dot_cons_other c path Hc) as (seg & segs & Hs & ->).
      rewrite Hs in IH. simpl in *.
      rewrite (bool_decide_eq_false_2 _ Hc). done.
Qed.

(** ** [pick] and [omit] of a Sequence *)

(** X24.  [pick] and [omit] take a Sequence as their source and return a
    Record: an element of the Sequence is found in the result at the
    decimal form of its index, in [pick] when that key is listed, in
    [omit] when it is not.  [omit] returns for every list of keys, and
    [pick] for every list without [__proto__]. *)
Theorem pick_omit_of_sequence (elems : list (option value))
    (extra : gmap string value) (keys : list string) (i : nat) (x : value) :
  (N.of_nat i < 4294967295)%N →
  elems !! i = Some (Some x) →
  (∃ omitted,
     omit (VArr elems extra) keys = VObj omitted ∧
     omitted !! pretty (N.of_nat i)
     = (if decide (pretty (N.of_nat i) ∈ keys) then None else Some x)) ∧
  (∀ picked,
     pick (VArr elems extra) keys = Returns picked →
     ∃ props, picked = VObj props ∧
       props !! pretty (N.of_nat i)
       = (if decide (pretty (N.of_nat i) ∈ keys) then Some x else None)) ∧
  ("__proto__" ∉ keys →
   ∃ picked, pick (VArr elems extra) keys = Returns picked).
Proof.
  intros Hi Hx.
  assert (lookup_property (VArr elems extra) (pretty (N.of_nat i)) = Some x)
    as Hlookup.
  { simpl. by rewrite array_index_pretty, Hx by done. }
  split; [|split].
  - destruct (omit_lookup (VArr elems extra) keys) as (omitted & -> & Homit).
    exists omitted. split; [done|]. rewrite Homit. case_decide; [done|].
    apply lookup_union_Some_raw. left.
    rewrite index_entries_lookup, decide_True by lia.
    by rewrite N.sub_0_r, Nat2N.id, Hx.
  - intros picked. unfold pick.
    destruct (foldl _ _ _) as [props| |] eqn:Hfold; [|done..].
    intros [= <-]. exists props. split; [done|].
    rewrite (pick_fold_returns _ _ _ _ Hfold), lookup_empty, Hlookup.
    + by case_decide.
    + intros Hproto.
      pose proof (array_index_pretty i Hi) as Hindex.
      by rewrite Hproto in Hindex.
  - intros Hproto.
    destruct (pick_lookup (VArr elems extra) keys) as (object & -> & _);
      [done..|]. eauto.
Qed.

Lemma pick_omit_of_sequence_witness :
  (N.of_nat 2 < 4294967295)%N ∧
  [Some (VNum 10); Some (VNum 20); Some (VNum 30)] !! 2
    = Some (Some (VNum 30)) ∧
  (∃ omitted,
     omit (VArr [Some (VNum 10); Some (VNum 20); Some (VNum 30)] ∅) ["0"; "2"]
     = VObj omitted ∧
     omitted !! pretty (N.of_nat 2)
     = (if decide (pretty (N.of_nat 2) ∈ ["0"; "2"])
        then None else Some (VNum 30))) ∧
  (∀ picked,
     pick (VArr [Some (VNum 10); Some (VNum 20); Some (VNum 30)] ∅) ["0"; "2"]
     = Returns picked →
     ∃ props, picked = VObj props ∧
       props !! pretty (N.of_nat 2)
       = (if decide (pretty (N.of_nat 2) ∈ ["0"; "2"])
          then Some (VNum 30) else None)) ∧
  ("__proto__" ∉ ["0"; "2"] →
   ∃ picked,
     pick (VArr [Some (VNum 10); Some (VNum 20); Some (VNum 30)] ∅) ["0"; "2"]
     = Returns picked).
Proof.
  split; [done|]. split; [reflexivity|].
  apply (pick_omit_of_sequence
           [Some (VNum 10); Some (VNum 20); Some (VNum 30)] ∅ ["0"; "2"] 2
           (VNum 30)); done.
Defined.

(** ** The store model, further *)

Section store_theorems.
Implicit Types (h : gmap Store.loc Store.hobject).

(** X25.  [pick] and [omit] build their result in a new object and write
    to nothing else: the store after the call holds every object that
    existed before, unchanged, and the result, whenever there is one, is
    a reference to an object that did not exist. *)
Theorem pick_omit_do_not_mutate h (source : Store.hvalue)
    (keys : list string) :
  h ⊆ (Store.pick h source keys).1 ∧
  h ⊆ (Store.omit h source keys).1 ∧
  (∃ l, h !! l = None ∧ is_Some ((Store.pick h source keys).1 !! l) ∧
        ∀ x, (Store.pick h source keys).2 = Returns x → x = Store.HRef l) ∧
  (∃ l, (Store.omit h source keys).2 = Store.HRef l ∧ h !! l = None ∧
        is_Some ((Store.omit h source keys).1 !! l)).
Proof.
  unfold Store.pick, Store.omit, Store.alloc. cbn [fst snd].
  set (l := fresh (dom h)).
  assert (h !! l = None) as Hl by apply not_elem_of_dom, is_fresh.
  assert (∀ o, (λ acc : gmap Store.loc Store.hobject * outcome (),
                  h ⊆ acc.1 ∧ is_Some (acc.1 !! l))
     (foldl (Store.pick_step source l) (<[l := o]> h, Returns ()) keys))
    as Hpick.
  { intros o. apply foldl_invariant.
    - cbn [fst]. split; [by apply insert_subseteq|].
      by rewrite lookup_insert_eq.
    - intros [hi so_far] key [Hsub Hsome]. cbn [fst] in *.
      unfold Store.pick_step. destruct so_far as [[]| |]; [|done..].
      destruct (Store.h_has_property hi source key) as [[]| |]; [|done..].
      split; [by apply store_frame|].
      unfold Store.store. destruct (Store.o_put _ _ _); cbn [fst]; [|done..].
      by rewrite lookup_insert_eq. }
  assert (∀ o, (λ hi, h ⊆ hi ∧ is_Some (hi !! l))
     (foldl (λ hi key,
               if bool_decide (is_Some (Store.h_lookup_property hi
                                          (Store.HRef l) key))
               then Store.remove hi l key
               else hi) (<[l := o]> h) keys)) as Homit.
  { intros o. apply foldl_invariant.
    - split; [by apply insert_subseteq|]. by rewrite lookup_insert_eq.
    - intros hi key [Hsub Hsome]. destruct (bool_decide _); [|done].
      split; [by apply remove_frame|].
      unfold Store.remove. rewrite lookup_alter_eq.
      by apply fmap_is_Some. }
  specialize (Hpick (Store.HObj ∅)).
  destruct (foldl (Store.pick_step source l) _ keys) as [h' status].
  cbn [fst snd] in *. destruct Hpick as [Hsub Hsome].
  split; [done|]. split; [apply Homit|]. split.
  - exists l. split; [done|]. split; [done|].
    intros x. by destruct status as [[]| |]; intros [= <-].
  - exists l. split; [done|]. split; [done|]. apply Homit.
Qed.

(** X26.  [pick] and [omit] in the store model follow the pure model: on
    a source that reads as [ov], [pick] ends as [pick ov keys] ends, and
    the new objects read as what [pick ov keys], respectively
    [omit ov keys], returns. *)
Theorem pick_omit_refine depth h (source : Store.hvalue) ov
    (keys : list string) :
  Store.snapshot (S depth) h source = Some ov →
  outcome_rel
    (λ x r, Store.snapshot (S depth) (Store.pick h source keys).1 x = Some r)
    (Store.pick h source keys).2 (pick ov keys) ∧
  Store.snapshot (S depth) (Store.omit h source keys).1
                 (Store.omit h source keys).2 = Some (omit ov keys).
Proof.
  intros Hsource.
  unfold Store.pick, Store.omit, Store.alloc, pick. cbn [fst snd].
  set (l := fresh (dom h)).
  assert (h !! l = None) as Hl by apply not_elem_of_dom, is_fresh.
  assert (∀ rp R,
    Store.snapshot_props (Store.snapshot depth h) rp = Some R →
    Store.snapshot (S depth) (<[l := Store.HObj rp]> h) (Store.HRef l)
    = Some (VObj R)) as Hread.
  { intros rp R Hrp. cbn [Store.snapshot]. rewrite lookup_insert_eq. simpl.
    rewrite (snapshot_props_weaken (Store.snapshot depth h) _ _ R);
      [done| |done].
    intros y v. apply snapshot_weaken. by apply insert_subseteq. }
  split.
  - pose proof (pick_loop_refines depth h l source ov keys
                  (<[l := Store.HObj ∅]> h, Returns ()) (Returns ∅)
                  Hl Hsource) as Hloop.
    destruct (foldl (Store.pick_step source l) _ keys) as [h' status].
    cbn [fst snd] in *.
    assert (∃ rp, <[l := Store.HObj ∅]> h = <[l := Store.HObj rp]> h ∧
                  Store.snapshot_props (Store.snapshot depth h) rp = Some ∅)
      as Hstart by (exists ∅; by rewrite snapshot_props_empty).
    specialize (Hloop Hstart).
    destruct status as [[]|e|], (foldl _ (Returns ∅) keys) as [R|e'|];
      try done.
    destruct Hloop as (rp & -> & Hrp). by apply Hread.
  - destruct (omit_loop_refines depth h l keys (Store.h_spread h source)
                (spread ov)) as (rp' & -> & Hrp').
    { by apply spread_reads. }
    by apply Hread.
Qed.

Lemma pick_omit_refine_witness :
  let h : gmap Store.loc Store.hobject :=
    {[ 1%positive := Store.HObj {[ "a" := Store.HNum 1;
                                   "b" := Store.HNum 2 ]} ]} in
  Store.snapshot 1 h (Store.HRef 1%positive)
    = Some (VObj {[ "a" := VNum 1; "b" := VNum 2 ]}) ∧
  outcome_rel
    (λ x r, Store.snapshot 1 (Store.pick h (Store.HRef 1%positive) ["a"]).1 x
            = Some r)
    (Store.pick h (Store.HRef 1%positive) ["a"]).2
    (pick (VObj {[ "a" := VNum 1; "b" := VNum 2 ]}) ["a"]) ∧
  Store.snapshot 1 (Store.omit h (Store.HRef 1%positive) ["a"]).1
                 (Store.omit h (Store.HRef 1%positive) ["a"]).2
    = Some (omit (VObj {[ "a" := VNum 1; "b" := VNum 2 ]}) ["a"]).
Proof.
  intros h.
  assert (Store.snapshot 1 h (Store.HRef 1%positive)
          = Some (VObj {[ "a" := VNum 1; "b" := VNum 2 ]})) as Hsource
    by (vm_compute; reflexivity).
  split; [exact Hsource|].
  exact (pick_omit_refine 0 h (Store.HRef 1%positive) _ ["a"] Hsource).
Defined.

(** X27.  [set] on a Record, along a path whose first segment is not
    [__proto__], returns a new object, never the root: the root stays in
    the store as it was, and the new object holds, at every key but the
    first segment, the very value the root holds there; what lies off
    the path is shared, not copied. *)
Theorem store_set_shares (path : string) h (l : Store.loc)
    (props : gmap string Store.hvalue) (v x : Store.hvalue) h'
    (k : string) (rest : list string) :
  h !! l = Some (Store.HObj props) →
  split_dot path = k :: rest → k ≠ "__proto__" →
  Store.set path h (Store.HRef l) v = (h', Returns x) →
  ∃ u y,
    x = Store.HRef u ∧ h !! u = None ∧
    h' !! u = Some (Store.HObj (<[k := y]> props)) ∧
    h' !! l = Some (Store.HObj props).
Proof.
  intros Hl Hsplit Hk. unfold Store.set.
  destruct (String.eqb path ""); [done|]. rewrite Hsplit.
  cbn [Store.recursor Store.h_is_container negb Store.h_shallow_copy].
  unfold Store.deref. rewrite Hl. cbn [default]. unfold id.
  change (Store.o_shallow_copy (Store.HObj props)) with (Store.HObj props).
  pose proof (alloc_frame h (Store.HObj props)) as Hsub1.
  pose proof (alloc_fresh h (Store.HObj props)) as Hfresh.
  pose proof (alloc_lookup h (Store.HObj props)) as Hu.
  destruct (Store.alloc h (Store.HObj props)) as [h1 u]. cbn [fst snd] in *.
  pose proof (recursor_frame rest h1
                (Store.h_get h (Store.HRef l) k) v) as Hsub2.
  destruct (Store.recursor h1 _ rest v) as [h2 [y|e|]]; [|done..].
  cbn [fst] in Hsub2. unfold Store.store, Store.deref.
  rewrite (lookup_weaken _ _ _ _ Hu Hsub2). cbn [default]. unfold id.
  cbn [Store.o_put]. rewrite decide_False by (by intros [? _]).
  intros [= <- <-]. exists u, y. split; [done|]. split; [done|]. split.
  - apply lookup_insert_eq.
  - rewrite lookup_insert_ne by congruence.
    eapply lookup_weaken; [exact Hl|]. by etrans.
Qed.

Lemma store_set_shares_witness :
  let h : gmap Store.loc Store.hobject :=
    {[ 1%positive := Store.HObj {[ "a" := Store.HNum 1;
                                   "c" := Store.HRef 2%positive ]};
       2%positive := Store.HArr [] ∅ ]} in
  h !! 1%positive = Some (Store.HObj {[ "a" := Store.HNum 1;
                                        "c" := Store.HRef 2%positive ]}) ∧
  split_dot "a" = "a" :: [] ∧ "a" ≠ "__proto__" ∧
  Store.set "a" h (Store.HRef 1%positive) (Store.HNum 42)
    = ((Store.set "a" h (Store.HRef 1%positive) (Store.HNum 42)).1,
       Returns (Store.HRef 3%positive)) ∧
  ∃ u y,
    Store.HRef 3%positive = Store.HRef u ∧ h !! u = None ∧
    (Store.set "a" h (Store.HRef 1%positive) (Store.HNum 42)).1 !! u
      = Some (Store.HObj (<["a" := y]> {[ "a" := Store.HNum 1;
                                          "c" := Store.HRef 2%positive ]})) ∧
    (Store.set "a" h (Store.HRef 1%positive) (Store.HNum 42)).1 !! 1%positive
      = Some (Store.HObj {[ "a" := Store.HNum 1;
                            "c" := Store.HRef 2%positive ]}).
Proof.
  intros h.
  assert (Store.set "a" h (Store.HRef 1%positive) (Store.HNum 42)
          = ((Store.set "a" h (Store.HRef 1%positive) (Store.HNum 42)).1,
             Returns (Store.HRef 3%positive))) as Hset
    by (vm_compute; reflexivity).
  split; [reflexivity|]. split; [reflexivity|]. split; [done|].
  split; [exact Hset|].
  exact (store_set_shares "a" h 1%positive _ _ _ _ "a" []
           ltac:(reflexivity) ltac:(reflexivity) ltac:(done) Hset).
Defined.

(** X28.  [merge] returns a new object and copies by reference.  Let [a]
    and the Record [b] read as values to some depth, no Record of [b] at
    any depth having an own key [hasOwnProperty] or [__proto__]; with
    more fuel than that depth the call returns a reference to a new
    object.  At a key that [b] does not have, the new object holds the
    very value [a] holds there, and at a key where [b] holds anything
    but a Record (a primitive, a function, a Sequence) it holds [b]'s
    very value.  A Sequence of [b] is shared with the result, not
    cloned. *)
Theorem store_merge_shares (fuel depth : nat) h (a : Store.hvalue)
    (lb : Store.loc) (bprops : gmap string Store.hvalue)
    (av : value) (bm : gmap string value) :
  h !! lb = Some (Store.HObj bprops) →
  Store.snapshot (S depth) h a = Some av →
  Store.snapshot (S depth) h (Store.HRef lb) = Some (VObj bm) →
  ordinary_keys (VObj bm) = true →
  depth < fuel →
  ∃ h' u rp,
    Store.merge fuel h a (Store.HRef lb)
    = (h', Some (Returns (Store.HRef u))) ∧
    h !! u = None ∧ h' !! u = Some (Store.HObj rp) ∧
    (∀ k, bprops !! k = None → rp !! k = Store.h_spread h a !! k) ∧
    (∀ k y, bprops !! k = Some y →
            Store.h_is_record h y = false →
            rp !! k = Some y).
Proof.
  intros Hlb Ha Hb Hordinary Hfuel.
  destruct fuel as [|fuel]; [lia|].
  cbn [Store.snapshot] in Hb. rewrite Hlb in Hb. simpl in Hb.
  apply fmap_Some in Hb as (bm' & Hbm & [= <-]).
  cbn [Store.merge]. unfold Store.merge_loop.
  assert (Store.h_spread h (Store.HRef lb) = bprops) as ->.
  { simpl. unfold Store.deref. by rewrite Hlb. }
  pose proof (alloc_fresh h (Store.HObj (Store.h_spread h a))) as Hfresh.
  unfold Store.alloc in *. cbn [snd] in Hfresh.
  set (u := fresh (dom h)) in *.
  destruct (merge_fold_refines fuel depth h h u lb bprops
              (Store.h_spread h a) bm (spread av)
              (λ N' h1, merge_refines_spread fuel N' h h1)
              (reflexivity h) Hfresh Hlb Hbm (spread_reads _ _ _ _ _
                                                (reflexivity h) Ha)
              ltac:(lia) (map_to_list bprops) (map_to_list bm))
    as (hS & sS & R & -> & HfoldP & Hstate).
  { by apply snapshot_props_to_list. }
  { apply NoDup_fst_map_to_list. }
  destruct (merge_lookup av bm Hordinary) as (r & Hr & _).
  rewrite merge_record, map_fold_foldr, HfoldP in Hr. unfold loop_end in Hr.
  destruct sS as [[]|e|]; [|done..].
  destruct Hstate as (g & rp & -> & Hg & Hresult & Hlookup & Hshared & _);
    [done|].
  exists (<[u := Store.HObj rp]> g), u, rp. split; [done|].
  split; [done|]. split; [apply lookup_insert_eq|]. split.
  - intros k Hk. apply Hlookup.
    intros ([k' y] & -> & Hin)%list_elem_of_fmap.
    apply elem_of_map_to_list in Hin. simpl in *. congruence.
  - intros k y Hk Hy. apply Hshared; [done|by apply elem_of_map_to_list|done|].
    intros ->. destruct (ordinary_keys_inv bm Hordinary) as (_ & Hproto & _).
    pose proof (snapshot_props_lookup _ _ _ "__proto__" Hbm) as Hreads.
    by rewrite Hk, Hproto in Hreads.
Qed.

Lemma store_merge_shares_witness :
  let h : gmap Store.loc Store.hobject :=
    {[ 1%positive := Store.HObj {[ "a" := Store.HNum 1 ]};
       2%positive := Store.HObj {[ "b" := Store.HRef 3%positive ]};
       3%positive := Store.HArr [Some (Store.HNum 7)] ∅ ]} in
  h !! 2%positive = Some (Store.HObj {[ "b" := Store.HRef 3%positive ]}) ∧
  Store.snapshot 2 h (Store.HRef 1%positive)
    = Some (VObj {[ "a" := VNum 1 ]}) ∧
  Store.snapshot 2 h (Store.HRef 2%positive)
    = Some (VObj {[ "b" := VArr [Some (VNum 7)] ∅ ]}) ∧
  ordinary_keys (VObj {[ "b" := VArr [Some (VNum 7)] ∅ ]}) = true ∧
  1 < 2 ∧
  ∃ h' u rp,
    Store.merge 2 h (Store.HRef 1%positive) (Store.HRef 2%positive)
    = (h', Some (Returns (Store.HRef u))) ∧
    h !! u = None ∧ h' !! u = Some (Store.HObj rp) ∧
    (∀ k, ({[ "b" := Store.HRef 3%positive ]}
             : gmap string Store.hvalue) !! k = None →
          rp !! k = Store.h_spread h (Store.HRef 1%positive) !! k) ∧
    (∀ k y, ({[ "b" := Store.HRef 3%positive ]}
               : gmap string Store.hvalue) !! k = Some y →
            Store.h_is_record h y = false →
            rp !! k = Some y).
Proof.
  intros h.
  assert (Store.snapshot 2 h (Store.HRef 1%positive)
          = Some (VObj {[ "a" := VNum 1 ]})) as Ha
    by (vm_compute; reflexivity).
  assert (Store.snapshot 2 h (Store.HRef 2%positive)
          = Some (VObj {[ "b" := VArr [Some (VNum 7)] ∅ ]})) as Hb
    by (vm_compute; reflexivity).
  assert (ordinary_keys (VObj {[ "b" := VArr [Some (VNum 7)] ∅ ]}) = true)
    as Hordinary by (vm_compute; reflexivity).
  split; [reflexivity|]. split; [exact Ha|]. split; [exact Hb|].
  split; [exact Hordinary|]. split; [lia|].
  exact (store_merge_shares 2 1 h (Store.HRef 1%positive) 2%positive _ _ _
           ltac:(reflexivity) Ha Hb Hordinary ltac:(lia)).
Defined.
End store_theorems.

(** ** The refinements at work *)

Lemma set_refines_witness :
  let h : gmap Store.loc Store.hobject :=
    {[ 1%positive := Store.HObj {[ "a" := Store.HRef 2%positive ]};
       2%positive := Store.HObj {[ "b" := Store.HNum 1 ]} ]} in
  let cv := VObj {[ "a" := VObj {[ "b" := VNum 1 ]} ]} in
  Store.snapshot 2 h (Store.HRef 1%positive) = Some cv ∧
  Store.snapshot 2 h (Store.HNum 5) = Some (VNum 5) ∧
  outcome_rel
    (λ x r, Store.snapshot (2 + length (split_dot "a.b"))
              (Store.set "a.b" h (Store.HRef 1%positive) (Store.HNum 5)).1 x
            = Some r)
    (Store.set "a.b" h (Store.HRef 1%positive) (Store.HNum 5)).2
    (set "a.b" cv (VNum 5)).
Proof.
  intros h cv.
  assert (Store.snapshot 2 h (Store.HRef 1%positive) = Some cv) as Hobj
    by (vm_compute; reflexivity).
  assert (Store.snapshot 2 h (Store.HNum 5) = Some (VNum 5)) as Hvalue
    by reflexivity.
  split; [exact Hobj|]. split; [exact Hvalue|].
  exact (set_refines "a.b" 2 h (Store.HRef 1%positive) (Store.HNum 5)
           cv (VNum 5) Hobj Hvalue).
Defined.

Lemma merge_refines_witness :
  let h : gmap Store.loc Store.hobject :=
    {[ 1%positive := Store.HObj {[ "a" := Store.HNum 1 ]};
       2%positive := Store.HObj {[ "b" := Store.HNum 2 ]} ]} in
  let av := VObj {[ "a" := VNum 1 ]} in
  let bv := VObj {[ "b" := VNum 2 ]} in
  Store.snapshot 1 h (Store.HRef 1%positive) = Some av ∧
  Store.snapshot 1 h (Store.HRef 2%positive) = Some bv ∧
  is_record bv = true ∧ 0 < 1 ∧
  ∃ h' s,
    Store.merge 1 h (Store.HRef 1%positive) (Store.HRef 2%positive)
      = (h', Some s) ∧
    outcome_rel (λ x r, Store.snapshot 2 h' x = Some r) s (merge av bv).
Proof.
  intros h av bv.
  assert (Store.snapshot 1 h (Store.HRef 1%positive) = Some av) as Ha
    by (vm_compute; reflexivity).
  assert (Store.snapshot 1 h (Store.HRef 2%positive) = Some bv) as Hb
    by (vm_compute; reflexivity).
  split; [exact Ha|]. split; [exact Hb|]. split; [reflexivity|].
  split; [lia|].
  exact (merge_refines 1 0 h (Store.HRef 1%positive) (Store.HRef 2%positive)
           av bv Ha Hb ltac:(reflexivity) ltac:(lia)).
Defined.
